(** * DiffDen: the snapshot engine and its change watcher

  A shallow embedding of [src/utils.ts], [src/config.ts], [src/tracker.ts]
  and [src/watcher.ts], and of the commands of [src/app.ts] that drive
  them.  Strings are sequences of 8-bit code units, the
  file system and the git repositories that the code drives through
  [fs] and [simple-git] are explicit state, and a JavaScript exception is
  the [Throw] outcome of a small state-and-exception monad. *)

From Stdlib Require Import Ascii String.
From stdpp Require Import gmap strings list fin_maps pretty sorting.

Open Scope string_scope.
Open Scope list_scope.

(** ** Paths ([path] of Node, POSIX flavour) and [src/utils.ts] *)

Module Path.

(** [s.split(sep)] for a one-character separator; [cur] accumulates the
    current piece in reverse. *)
Fixpoint split_go (sep : ascii) (cur : string) (s : string) : list string :=
  match s with
  | "" => [String.rev cur]
  | String a s' =>
      if decide (a = sep) then String.rev cur :: split_go sep "" s'
      else split_go sep (String a cur) s'
  end.

Definition split (sep : ascii) (s : string) : list string := split_go sep "" s.

Fixpoint join_with (sep : string) (l : list string) : string :=
  match l with
  | [] => ""
  | [x] => x
  | x :: l' => x +:+ sep +:+ join_with sep l'
  end.

(** The non-empty components of a path. *)
Definition segments (p : string) : list string :=
  filter (λ x, x ≠ "") (split "/" p).

(** [path.basename(p)]: the last maximal run of characters other than
    the separator, trailing separators ignored. *)
Definition basename (p : string) : string := default "" (last (segments p)).

Definition is_absolute (p : string) : bool :=
  match p with String "/" _ => true | _ => false end.

(** One step of normalisation; [acc] is the stack of kept components,
    innermost first. *)
Definition norm_step (acc : list string) (seg : string) : list string :=
  if decide (seg = ".") then acc
  else if decide (seg = "..") then tail acc
  else seg :: acc.

Definition normalize_segments (l : list string) : list string :=
  rev (foldl norm_step [] l).

(** [path.resolve(p)] with [cwd] the (absolute) working directory of the
    process. *)
Definition resolved_segments (cwd p : string) : list string :=
  normalize_segments
    (segments (if is_absolute p then p else cwd +:+ "/" +:+ p)).

Definition resolve (cwd p : string) : string :=
  "/" +:+ join_with "/" (resolved_segments cwd p).

(** [path.dirname] of an absolute path. *)
Definition dirname (p : string) : string :=
  "/" +:+ join_with "/" (removelast (segments p)).

Definition ends_with_sep (p : string) : bool :=
  match String.rev p with String "/" _ => true | _ => false end.

(** One step of [path.normalize]; a path that is not absolute keeps the
    [..] that lead out of it. *)
Definition normalize_step (abs : bool) (acc : list string) (seg : string)
  : list string :=
  if decide (seg = ".") then acc
  else if decide (seg = "..") then
    match acc with
    | top :: rest => if decide (top = "..") then seg :: acc else rest
    | [] => if abs then [] else [seg]
    end
  else seg :: acc.

(** [path.normalize(p)] *)
Definition normalize (p : string) : string :=
  if decide (p = "") then "."
  else
    let abs := is_absolute p in
    let body := join_with "/" (rev (foldl (normalize_step abs) [] (segments p))) in
    if decide (body = "") then
      if abs then "/" else if ends_with_sep p then "./" else "."
    else
      (if abs then "/" else "") +:+ body +:+ (if ends_with_sep p then "/" else "").

(** [path.join(dir, name)]: the arguments that are not empty, with a
    separator between them, normalised. *)
Definition join (dir name : string) : string :=
  if decide (dir = "") then
    if decide (name = "") then "." else normalize name
  else if decide (name = "") then normalize dir
  else normalize (dir +:+ "/" +:+ name).

Fixpoint prefixes {A} (l : list A) : list (list A) :=
  [] :: match l with
        | [] => []
        | x :: l' => cons x <$> prefixes l'
        end.

(** The directories above [p], and [p] itself, outermost first. *)
Definition ancestors (p : string) : list string :=
  (λ l, "/" +:+ join_with "/" l) <$> prefixes (segments p).

End Path.

Module Utils.

Definition is_slug_char (a : ascii) : bool :=
  let n := N_of_ascii a in
  ((97 <=? n) && (n <=? 122) || (65 <=? n) && (n <=? 90)
   || (48 <=? n) && (n <=? 57) || (n =? 95) || (n =? 45))%N.

(** [s.replace(/[^a-zA-Z0-9_-]/g, "_")] *)
Fixpoint sanitize (s : string) : string :=
  match s with
  | "" => ""
  | String a s' => String (if is_slug_char a then a else "_"%char) (sanitize s')
  end.

(** [projectSlug(dirPath)] *)
Definition projectSlug (cwd dirPath : string) : string :=
  sanitize (Path.basename (Path.resolve cwd dirPath)).

(** [projectDirFromFile(filePath)] *)
Definition projectDirFromFile (cwd filePath : string) : string :=
  Path.dirname (Path.resolve cwd filePath).

(** [DATA_DIR] and [REPOS_DIR], from the home directory. *)
Definition DATA_DIR (home : string) : string := Path.join home ".diffden".
Definition REPOS_DIR (home : string) : string := Path.join (DATA_DIR home) "repos".

(** An index argument of [slice], for a string of length [len]: negative
    indices count from the end, and everything is clamped. *)
Definition slice_index (len i : Z) : Z :=
  if (i <? 0)%Z then Z.max (len + i) 0 else Z.min i len.

(** [s.slice(from, to)] *)
Definition slice (s : string) (from to : Z) : string :=
  let len := Z.of_nat (String.length s) in
  let a := slice_index len from in
  let b := slice_index len to in
  substring (Z.to_nat a) (Z.to_nat (Z.max (b - a) 0)) s.

(** [s.repeat(n)], for a count that is not negative. *)
Fixpoint repeat_nat (s : string) (n : nat) : string :=
  match n with
  | O => ""
  | S n' => s +:+ repeat_nat s n'
  end.
Definition repeat (s : string) (n : Z) : string := repeat_nat s (Z.to_nat n).

(** [truncate(str, maxLen)] *)
Definition truncate (str : string) (maxLen : Z) : string :=
  if (Z.of_nat (String.length str) <=? maxLen)%Z then str
  else slice str 0 (maxLen - 2) +:+ "..".

(** [padRight(str, len)] *)
Definition padRight (str : string) (len : Z) : string :=
  if (Z.of_nat (String.length str) >=? len)%Z then slice str 0 len
  else str +:+ repeat " " (len - Z.of_nat (String.length str)).

(** [padLeft(str, len)] *)
Definition padLeft (str : string) (len : Z) : string :=
  if (Z.of_nat (String.length str) >=? len)%Z then slice str 0 len
  else repeat " " (len - Z.of_nat (String.length str)) +:+ str.

(** [relativeTime(date)]: [now] is [Date.now()] and [date] is
    [date.getTime()], both in milliseconds; [toLocaleDateString] is the
    method of [Date], which depends on the locale of the process. *)
Definition relativeTime (toLocaleDateString : Z → string) (now date : Z) : string :=
  let diff := (now - date)%Z in
  let seconds := (diff / 1000)%Z in
  let minutes := (seconds / 60)%Z in
  let hours := (minutes / 60)%Z in
  let days := (hours / 24)%Z in
  if (seconds <? 5)%Z then "just now"
  else if (seconds <? 60)%Z then pretty seconds +:+ "s ago"
  else if (minutes <? 60)%Z then pretty minutes +:+ "m ago"
  else if (hours <? 24)%Z then pretty hours +:+ "h ago"
  else if (days =? 1)%Z then "yesterday"
  else if (days <? 30)%Z then pretty days +:+ "d ago"
  else toLocaleDateString date.

End Utils.

(** ** [src/config.ts]: the registry of projects *)

Module Config.

Record ProjectConfig := Build_ProjectConfig {
  p_slug : string;
  p_dir : string;
  (** basenames of watched files *)
  p_files : list string
}.

Record AppConfig := Build_AppConfig {
  projects : list ProjectConfig;
  editor : option string
}.

(** [getRepoPath(slug)]: the template string [`${REPOS_DIR}/${slug}`]. *)
Definition getRepoPath (home slug : string) : string :=
  Utils.REPOS_DIR home +:+ "/" +:+ slug.

(** [getFullFilePath(project, fileName)] *)
Definition getFullFilePath (project : ProjectConfig) (fileName : string) : string :=
  Path.join (p_dir project) fileName.

(** [projects.find((p) => p.slug === slug)] *)
Definition find_project (slug : string) (ps : list ProjectConfig)
  : option ProjectConfig :=
  list_find (λ p, p_slug p = slug) ps ≫= (λ ip, Some ip.2).

(** An update in place of the project that [find] returns: the first one
    with this slug. *)
Fixpoint update_found (slug : string) (f : ProjectConfig → ProjectConfig)
    (ps : list ProjectConfig) : list ProjectConfig :=
  match ps with
  | [] => []
  | p :: ps' =>
      if decide (p_slug p = slug) then f p :: ps'
      else p :: update_found slug f ps'
  end.

Definition push_file (fileName : string) (p : ProjectConfig) : ProjectConfig :=
  if decide (fileName ∈ p_files p) then p
  else Build_ProjectConfig (p_slug p) (p_dir p) (p_files p ++ [fileName]).

(** [addFileToConfig(config, filePath)]: the registry it returns.  The
    write of the registry file by [saveConfig] is not part of this
    model. *)
Definition addFileToConfig (cwd : string) (config : AppConfig) (filePath : string)
  : AppConfig :=
  let absPath := Path.resolve cwd filePath in
  let dir := Utils.projectDirFromFile cwd absPath in
  let slug := Utils.projectSlug cwd dir in
  let fileName := Path.basename absPath in
  let ps :=
    match find_project slug (projects config) with
    | Some _ => projects config
    | None => projects config ++ [Build_ProjectConfig slug dir []]
    end in
  Build_AppConfig (update_found slug (push_file fileName) ps) (editor config).

Definition drop_file (fileName : string) (p : ProjectConfig) : ProjectConfig :=
  Build_ProjectConfig (p_slug p) (p_dir p) (filter (λ f, f ≠ fileName) (p_files p)).

(** [removeFileFromConfig(config, filePath)], likewise. *)
Definition removeFileFromConfig (cwd : string) (config : AppConfig) (filePath : string)
  : AppConfig :=
  let absPath := Path.resolve cwd filePath in
  let dir := Utils.projectDirFromFile cwd absPath in
  let slug := Utils.projectSlug cwd dir in
  let fileName := Path.basename absPath in
  match find_project slug (projects config) with
  | Some project =>
      let ps := update_found slug (drop_file fileName) (projects config) in
      if decide (length (p_files (drop_file fileName project)) = 0%nat)
      then Build_AppConfig (filter (λ p, p_slug p ≠ slug) ps) (editor config)
      else Build_AppConfig ps (editor config)
  | None => config
  end.

(** What the command handler does to the registry. *)
Inductive registry_op :=
| AddFile (filePath : string)
| RemoveFile (filePath : string).

Definition apply_op (cwd : string) (config : AppConfig) (op : registry_op) : AppConfig :=
  match op with
  | AddFile f => addFileToConfig cwd config f
  | RemoveFile f => removeFileFromConfig cwd config f
  end.

(** The registry after a sequence of commands, from the empty one that
    [loadConfig] creates. *)
Definition registry_after (cwd : string) (ops : list registry_op) : AppConfig :=
  foldl (apply_op cwd) (Build_AppConfig [] None) ops.

(** The storage directories of the projects of a registry. *)
Definition repo_dirs (home : string) (config : AppConfig) : list string :=
  (λ p, getRepoPath home (p_slug p)) <$> projects config.

End Config.

(** ** The environment: file system and git repositories

  What the code reaches through [fs] and [simple-git].  A repository is
  its index and its linear list of commits, newest first; its work tree
  is the part of the file system below its directory.  A path is the
  string that names it, and a directory is in a repository when the
  repository is at that directory: repositories within the work tree
  of another one are not part of this model. *)

Module Env.

Abbreviation tree := (gmap string string).

Record commit := Commit {
  c_hash : string;
  c_tree : tree;
  c_message : string;
  c_body : string;
  c_date : N
}.

Record repo := Repo {
  r_config : gmap string string;
  r_index : tree;
  r_commits : list commit;
  (** the object store cannot be read: every git command on it fails *)
  r_damaged : bool
}.

Record world := World {
  w_home : string;
  w_now : N;
  (** the files, with their bytes *)
  w_fs : gmap string string;
  (** the paths at which nothing can be created or written, whatever the
      reason: permissions, a missing parent directory, a full disk *)
  w_readonly : gset string;
  w_repos : gmap string repo;
  (** the directories *)
  w_dirs : gset string;
  (** [git] is installed and can be run *)
  w_git_ok : bool;
  (** the runtime defines [require] inside a module: Bun does, the ES
      modules of Node do not *)
  w_require : bool;
  (** the copy and rename detection of [git log --follow]: the file of
      the parent tree that [git] takes a file added by a commit to come
      from, given the two trees and the path *)
  w_copy_source : tree → tree → string → option string
}.

Definition set_fs (f : gmap string string) (w : world) : world :=
  World (w_home w) (w_now w) f (w_readonly w) (w_repos w)
        (w_dirs w) (w_git_ok w) (w_require w) (w_copy_source w).
Definition set_repos (rs : gmap string repo) (w : world) : world :=
  World (w_home w) (w_now w) (w_fs w) (w_readonly w) rs
        (w_dirs w) (w_git_ok w) (w_require w) (w_copy_source w).
Definition set_now (t : N) (w : world) : world :=
  World (w_home w) t (w_fs w) (w_readonly w) (w_repos w)
        (w_dirs w) (w_git_ok w) (w_require w) (w_copy_source w).
Definition set_dirs (ds : gset string) (w : world) : world :=
  World (w_home w) (w_now w) (w_fs w) (w_readonly w) (w_repos w)
        ds (w_git_ok w) (w_require w) (w_copy_source w).

(** *** Outcomes and the monad *)

Inductive outcome (A : Type) : Type :=
| Ok (a : A)
| Throw (e : string).
Arguments Ok {A} a.
Arguments Throw {A} e.

Definition M (A : Type) : Type := world → outcome A * world.

Definition ret {A} (a : A) : M A := λ w, (Ok a, w).
Definition throw {A} (e : string) : M A := λ w, (Throw e, w).
Definition bind {A B} (m : M A) (k : A → M B) : M B :=
  λ w, match m w with
       | (Ok a, w') => k a w'
       | (Throw e, w') => (Throw e, w')
       end.
(** [try { m } catch { h }]: what [m] did before it threw stays done. *)
Definition try_catch {A} (m : M A) (h : M A) : M A :=
  λ w, match m w with
       | (Ok a, w') => (Ok a, w')
       | (Throw _, w') => h w'
       end.

Definition get_home : M string := λ w, (Ok (w_home w), w).

(** [require(name)] in a module. *)
Definition require : M unit :=
  λ w, if w_require w then (Ok tt, w)
       else (Throw "ReferenceError: require is not defined", w).

End Env.

Import Env.

Global Instance M_ret : MRet M := @ret.
Global Instance M_bind : MBind M := λ A B k m, bind m k.

(** *** [fs] *)

Module Fs.

Definition is_file (p : string) (w : world) : bool :=
  bool_decide (is_Some (w_fs w !! p)).

Definition is_dir (p : string) (w : world) : bool :=
  bool_decide (p ∈ w_dirs w).

(** [existsSync(p)]: a file or a directory. *)
Definition existsSync (p : string) : M bool :=
  λ w, (Ok (is_file p w || is_dir p w), w).

(** [mkdirSync(p, { recursive: true })]: nothing to do for a directory
    that exists; it fails where a file is in the way or nothing can be
    created. *)
Definition mkdirSync (p : string) : M unit :=
  λ w, if is_dir p w then (Ok tt, w)
       else if is_file p w then (Throw "EEXIST", w)
       else if decide (p ∈ w_readonly w) then (Throw "EACCES", w)
       else (Ok tt, set_dirs ({[ p ]} ∪ list_to_set (Path.ancestors p) ∪ w_dirs w) w).

Definition writeFileSync (p : string) (content : string) : M unit :=
  λ w, if is_dir p w then (Throw "EISDIR", w)
       else if decide (p ∈ w_readonly w) then (Throw "EACCES", w)
       else (Ok tt, set_fs (<[p := content]> (w_fs w)) w).

Definition copyFileSync (src dst : string) : M unit :=
  λ w, if is_dir src w then (Throw "EISDIR", w)
       else match w_fs w !! src with
            | None => (Throw "ENOENT", w)
            | Some c => writeFileSync dst c w
            end.

End Fs.

(** *** Text differences, as [git diff] prints them

  Of the text of a difference this has the header of each file and its
  lines, kept, deleted and added, as one hunk; the [index] line and the
  [@@] lines are not part of it.  The text is empty exactly when no
  file differs. *)

Module Diff.

(** The lines of a text, each with its terminating newline when it has
    one. *)
Fixpoint lines_go (cur : string) (s : string) : list string :=
  match s with
  | "" => if decide (cur = "") then [] else [String.rev cur]
  | String a s' =>
      if decide (a = "010"%char) then String.rev (String a cur) :: lines_go "" s'
      else lines_go (String a cur) s'
  end.
Definition lines (s : string) : list string := lines_go "" s.

Inductive edit := Keep (l : string) | Del (l : string) | Add (l : string).

Definition is_change (e : edit) : bool :=
  match e with Keep _ => false | _ => true end.
Definition is_add (e : edit) : bool :=
  match e with Add _ => true | _ => false end.
Definition is_del (e : edit) : bool :=
  match e with Del _ => true | _ => false end.

Definition cost (es : list edit) : nat := length (filter is_change es).

(** An edit script from [xs] to [ys] that keeps a longest common
    subsequence of the lines. *)
Fixpoint diff_lines (xs ys : list string) {struct xs} : list edit :=
  match xs with
  | [] => Add <$> ys
  | x :: xs' =>
      (fix inner (ys : list string) : list edit :=
         match ys with
         | [] => Del <$> (x :: xs')
         | y :: ys' =>
             if decide (x = y) then Keep x :: diff_lines xs' ys'
             else
               let a := Del x :: diff_lines xs' (y :: ys') in
               let b := Add y :: inner ys' in
               if decide (cost a ≤ cost b)%nat then a else b
         end) ys
  end.

Record file_change := FileChange {
  fc_path : string;
  fc_old : option string;
  fc_new : option string
}.

Global Instance file_change_eq_dec : EqDecision file_change.
Proof. solve_decision. Defined.

Definition side_lines (o : option string) : list string :=
  match o with Some c => lines c | None => [] end.

Definition edits (fc : file_change) : list edit :=
  diff_lines (side_lines (fc_old fc)) (side_lines (fc_new fc)).

Definition ends_with_newline (l : string) : bool :=
  match String.rev l with String "010" _ => true | _ => false end.

Definition nl : string := String "010"%char "".

Definition render_line (sign : string) (l : string) : string :=
  if ends_with_newline l then sign +:+ l
  else sign +:+ l +:+ nl +:+ "\ No newline at end of file" +:+ nl.

Definition render_edit (e : edit) : string :=
  match e with
  | Keep l => render_line " " l
  | Del l => render_line "-" l
  | Add l => render_line "+" l
  end.

Fixpoint concat_str (l : list string) : string :=
  match l with
  | [] => ""
  | x :: l' => x +:+ concat_str l'
  end.

Definition render_change (fc : file_change) : string :=
  "diff --git a/" +:+ fc_path fc +:+ " b/" +:+ fc_path fc +:+ nl +:+
  match fc_old fc, fc_new fc with
  | None, _ =>
      "new file mode 100644" +:+ nl +:+
      "--- /dev/null" +:+ nl +:+
      "+++ b/" +:+ fc_path fc
  | _, None =>
      "deleted file mode 100644" +:+ nl +:+
      "--- a/" +:+ fc_path fc +:+ nl +:+
      "+++ /dev/null"
  | _, _ =>
      "--- a/" +:+ fc_path fc +:+ nl +:+
      "+++ b/" +:+ fc_path fc
  end +:+ nl +:+ concat_str (render_edit <$> edits fc).

Definition render (l : list file_change) : string :=
  concat_str (render_change <$> l).

(** The files that differ between two trees, all of them or only
    [path]. *)
Definition diff_trees (t1 t2 : gmap string string) (path : option string)
  : list file_change :=
  let names :=
    match path with
    | Some f => [f]
    | None => merge_sort String.le (elements (dom t1 ∪ dom t2))
    end in
  omap (λ f, if decide (t1 !! f = t2 !! f) then None
             else Some (FileChange f (t1 !! f) (t2 !! f))) names.

(** The totals of [--stat]. *)
Record summary := Summary { insertions : N; deletions : N }.

Definition count_edits (p : edit → bool) (l : list file_change) : N :=
  N.of_nat (length (filter p (l ≫= edits))).

Definition stat (l : list file_change) : option summary :=
  match l with
  | [] => None
  | _ => Some (Summary (count_edits is_add l) (count_edits is_del l))
  end.

End Diff.

(** *** UTF-8

  [simple-git] hands the output of a command over as a string, decoded
  from UTF-8 with every ill-formed sequence replaced by U+FFFD.  A
  string that was decoded is written here by its UTF-8 encoding, which
  is also what [writeFileSync] writes for it. *)

Module Utf8.

Definition byte (a : ascii) : N := N_of_ascii a.

Definition between (lo hi : N) (a : ascii) : bool :=
  ((lo <=? byte a) && (byte a <=? hi))%N.

(** U+FFFD, encoded *)
Definition replacement : string :=
  String "239" (String "191" (String "189" "")).

(** The range of the byte after the lead byte [b] of a sequence of
    three or four. *)
Definition second_lo (b : ascii) : N :=
  if (byte b =? 224)%N then 160%N else if (byte b =? 240)%N then 144%N else 128%N.
Definition second_hi (b : ascii) : N :=
  if (byte b =? 237)%N then 159%N else if (byte b =? 244)%N then 143%N else 191%N.

(** Decoding and encoding again: well-formed sequences stay, each
    maximal ill-formed part becomes one U+FFFD. *)
Fixpoint lossy (s : string) : string :=
  match s with
  | "" => ""
  | String b0 r0 =>
      if (byte b0 <? 128)%N then String b0 (lossy r0)
      else if between 194 223 b0 then
        match r0 with
        | String b1 r1 =>
            if between 128 191 b1 then String b0 (String b1 (lossy r1))
            else replacement +:+ lossy r0
        | "" => replacement
        end
      else if between 224 239 b0 then
        match r0 with
        | String b1 r1 =>
            if between (second_lo b0) (second_hi b0) b1 then
              match r1 with
              | String b2 r2 =>
                  if between 128 191 b2
                  then String b0 (String b1 (String b2 (lossy r2)))
                  else replacement +:+ lossy r1
              | "" => replacement
              end
            else replacement +:+ lossy r0
        | "" => replacement
        end
      else if between 240 244 b0 then
        match r0 with
        | String b1 r1 =>
            if between (second_lo b0) (second_hi b0) b1 then
              match r1 with
              | String b2 r2 =>
                  if between 128 191 b2 then
                    match r2 with
                    | String b3 r3 =>
                        if between 128 191 b3
                        then String b0 (String b1 (String b2 (String b3 (lossy r3))))
                        else replacement +:+ lossy r2
                    | "" => replacement
                    end
                  else replacement +:+ lossy r1
              | "" => replacement
              end
            else replacement +:+ lossy r0
        | "" => replacement
        end
      else replacement +:+ lossy r0
  end.

(** The bytes are well-formed UTF-8: decoding loses nothing. *)
Definition well_formed (s : string) : Prop := lossy s = s.

End Utf8.

(** *** [simple-git] *)

Module Git.

(** The identifier that [git] has for the empty tree. *)
Definition EMPTY_TREE_ID : string := "4b825dc642cb6eb9a060e54bf8d69288fbee4904".

Definition empty_repo : repo := Repo ∅ ∅ [] false.

Definition set_config (c : gmap string string) (r : repo) : repo :=
  Repo c (r_index r) (r_commits r) (r_damaged r).
Definition set_index (i : tree) (r : repo) : repo :=
  Repo (r_config r) i (r_commits r) (r_damaged r).
Definition set_commits (cs : list commit) (r : repo) : repo :=
  Repo (r_config r) (r_index r) cs (r_damaged r).

(** The tree of [HEAD]; the empty tree before the first commit. *)
Definition head_tree (cs : list commit) : tree :=
  match cs with
  | [] => ∅
  | c :: _ => c_tree c
  end.

(** The identifier of the [n]-th commit of a repository. *)
Definition mk_hash (n : nat) : string := "c" +:+ pretty (N.of_nat n).

(** A git command on the repository at [dir]: fails where [git] cannot
    be run, without a repository and on a damaged one; [f] gives the
    result and the new state of the repository. *)
Definition on_repo {A} (dir : string) (f : world → repo → outcome A * repo) : M A :=
  λ w, if negb (w_git_ok w) then (Throw "spawn git ENOENT", w)
       else match w_repos w !! dir with
            | None => (Throw "not a git repository", w)
            | Some r =>
                if r_damaged r then (Throw "object store unreadable", w)
                else let '(o, r') := f w r in
                     (o, set_repos (<[dir := r']> (w_repos w)) w)
            end.

(** A git command that only reads. *)
Definition read_repo {A} (dir : string) (f : repo → outcome A) : M A :=
  λ w, if negb (w_git_ok w) then (Throw "spawn git ENOENT", w)
       else match w_repos w !! dir with
            | None => (Throw "not a git repository", w)
            | Some r =>
                if r_damaged r then (Throw "object store unreadable", w)
                else (f r, w)
            end.

(** [checkIsRepo()]: whether [dir] is a repository; it rejects where
    [git] cannot be run. *)
Definition checkIsRepo (dir : string) : M bool :=
  λ w, if negb (w_git_ok w) then (Throw "spawn git ENOENT", w)
       else (Ok (bool_decide (is_Some (w_repos w !! dir))), w).

Definition init (dir : string) : M unit :=
  λ w, if negb (w_git_ok w) then (Throw "spawn git ENOENT", w)
       else match w_repos w !! dir with
            | Some _ => (Ok tt, w)
            | None => (Ok tt, set_repos (<[dir := empty_repo]> (w_repos w)) w)
            end.

Definition addConfig (dir key value : string) : M unit :=
  on_repo dir (λ _ r, (Ok tt, set_config (<[key := value]> (r_config r)) r)).

Definition is_option (a : string) : bool :=
  match a with String "-" _ => true | _ => false end.

(** [git add file]: the work-tree file goes to the index.  A name that
    starts with a dash is taken for an option, which [git add] does not
    know. *)
Definition add (dir file : string) : M unit :=
  on_repo dir (λ w r,
    if is_option file then (Throw "unknown option", r)
    else
      match w_fs w !! Path.join dir file with
      | Some c => (Ok tt, set_index (<[file := c]> (r_index r)) r)
      | None =>
          if decide (is_Some (r_index r !! file))
          then (Ok tt, set_index (delete file (r_index r)) r)
          else (Throw "pathspec did not match any files", r)
      end).

(** [status.staged]: the paths whose index entry differs from [HEAD]. *)
Definition staged (r : repo) : list string :=
  Diff.fc_path <$> Diff.diff_trees (head_tree (r_commits r)) (r_index r) None.

Definition status (dir : string) : M (list string) :=
  read_repo dir (λ r, Ok (staged r)).

(** [git commit -m message]: with nothing staged no commit is made and
    the [commit] field of the result is empty. *)
Definition commit (dir message : string) : M string :=
  on_repo dir (λ w r,
    match staged r with
    | [] => (Ok "", r)
    | _ =>
        let c := Commit (mk_hash (length (r_commits r))) (r_index r)
                        message "" (w_now w) in
        (Ok (c_hash c), set_commits (c :: r_commits r) r)
    end).

(** Command-line arguments: the path after [--], and the revisions
    before it. *)
Fixpoint path_arg (args : list string) : option string :=
  match args with
  | [] => None
  | a :: rest => if decide (a = "--") then head rest else path_arg rest
  end.

Fixpoint rev_args (args : list string) : list string :=
  match args with
  | [] => []
  | a :: rest =>
      if decide (a = "--") then []
      else if is_option a then rev_args rest
      else a :: rev_args rest
  end.

Record log_entry := LogEntry {
  e_hash : string;
  e_date : N;
  e_message : string;
  e_body : string;
  e_diff : option Diff.summary
}.

(** The commits, newest first; with a path only those that change it. *)
Fixpoint log_entries (cs : list Env.commit) (path : option string) : list log_entry :=
  match cs with
  | [] => []
  | c :: older =>
      let changes := Diff.diff_trees (head_tree older) (c_tree c) path in
      let rest := log_entries older path in
      match path, changes with
      | Some _, [] => rest
      | _, _ =>
          LogEntry (c_hash c) (c_date c) (c_message c) (c_body c)
                   (Diff.stat changes) :: rest
      end
  end.

(** The commits that [--follow] lists for [path]: those that change it,
    and from the commit that adds it on, where [git] takes it to be a
    copy or a rename of the file [from], those that change [from]. *)
Fixpoint log_follow (source : tree → tree → string → option string)
    (cs : list Env.commit) (path : string) : list log_entry :=
  match cs with
  | [] => []
  | c :: older =>
      let parent := head_tree older in
      if decide (parent !! path = c_tree c !! path) then log_follow source older path
      else
        match parent !! path, source parent (c_tree c) path with
        | None, Some from =>
            LogEntry (c_hash c) (c_date c) (c_message c) (c_body c)
                     (Diff.stat [Diff.FileChange path (parent !! from) (c_tree c !! path)])
            :: log_follow source older from
        | _, _ =>
            LogEntry (c_hash c) (c_date c) (c_message c) (c_body c)
                     (Diff.stat [Diff.FileChange path (parent !! path) (c_tree c !! path)])
            :: log_follow source older path
        end
  end.

Definition log (dir : string) (args : list string) : M (list log_entry) :=
  λ w, read_repo dir (λ r,
    match r_commits r with
    | [] => Throw "your current branch does not have any commits yet"
    | cs =>
        match path_arg args with
        | Some path =>
            if decide ("--follow" ∈ args)
            then Ok (log_follow (w_copy_source w) cs path)
            else Ok (log_entries cs (Some path))
        | None => Ok (log_entries cs None)
        end
    end) w.

(** The commit named [h], with the commits before it. *)
Fixpoint find_commit (cs : list Env.commit) (h : string)
  : option (Env.commit * list Env.commit) :=
  match cs with
  | [] => None
  | c :: older =>
      if decide (c_hash c = h) then Some (c, older) else find_commit older h
  end.

Definition strip_caret (rev : string) : option string :=
  match String.rev rev with
  | String "^" r => Some (String.rev r)
  | _ => None
  end.

(** The tree a revision names.  Of the ways that [git] has to name a
    revision these are here: the identifier of a commit, the identifier
    of the empty tree, and [h^] for the parent of the commit [h]. *)
Definition rev_tree (cs : list Env.commit) (rev : string) : option tree :=
  if decide (rev = EMPTY_TREE_ID) then Some ∅
  else match strip_caret rev with
       | Some h =>
           match find_commit cs h with
           | Some (_, p :: _) => Some (c_tree p)
           | _ => None
           end
       | None =>
           match find_commit cs rev with
           | Some (c, _) => Some (c_tree c)
           | None => None
           end
       end.

(** [git diff a b [-- path]] over the commits [cs]. *)
Definition diff_of (cs : list Env.commit) (args : list string) : outcome string :=
  match rev_args args with
  | [a; b] =>
      match rev_tree cs a, rev_tree cs b with
      | Some ta, Some tb =>
          Ok (Diff.render (Diff.diff_trees ta tb (path_arg args)))
      | _, _ => Throw "bad revision"
      end
  | _ => Throw "usage"
  end.

Definition diff (dir : string) (args : list string) : M string :=
  read_repo dir (λ r, diff_of (r_commits r) args).

Fixpoint split_colon (s : string) : option (string * string) :=
  match s with
  | "" => None
  | String a s' =>
      if decide (a = ":"%char) then Some ("", s')
      else match split_colon s' with
           | Some (x, y) => Some (String a x, y)
           | None => None
           end
  end.

(** [git show rev:path] *)
Definition show (dir : string) (args : list string) : M string :=
  read_repo dir (λ r,
    match args with
    | [spec] =>
        match split_colon spec with
        | Some (rev, path) =>
            match find_commit (r_commits r) rev with
            | Some (c, _) =>
                match c_tree c !! path with
                | Some bytes => Ok (Utf8.lossy bytes)
                | None => Throw "path does not exist in revision"
                end
            | None => Throw "bad revision"
            end
        | None => Throw "bad object"
        end
    | _ => Throw "usage"
    end).

End Git.

(** ** [src/tracker.ts] *)

Module Tracker.

(** A [number] that holds a count: a natural number that a double
    represents, or [Infinity]. *)
Inductive number :=
| Num (n : N)
| Infinity.

(** The double nearest to a natural number, ties to even. *)
Definition to_double (n : N) : number :=
  let bits := N.size n in
  if (bits <=? 53)%N then Num n
  else
    let k := (bits - 53)%N in
    let q := N.shiftr n k in
    let r := N.land n (N.ones k) in
    let half := N.shiftl 1 (k - 1) in
    let q' := if ((half <? r) || ((r =? half) && N.odd q))%N then (q + 1)%N else q in
    let v := N.shiftl q' k in
    if (2 ^ 1024 <=? v)%N then Infinity else Num v.

Definition is_zero (x : number) : bool :=
  match x with Num 0 => true | _ => false end.

Record SnapshotInfo := Build_SnapshotInfo {
  hash : string;
  date : N;
  message : string;
  insertions : number;
  deletions : number
}.

(** The constant that [getDiff] has for the empty tree. *)
Definition EMPTY_TREE : string := "4b825dc642cb6eb9a060e54bf899d8b2da2e7862".

(** An optional string argument is used when it is given and not
    empty. *)
Definition truthy (s : option string) : option string :=
  match s with
  | Some "" => None
  | _ => s
  end.

Definition ensureRepoDir (slug : string) : M string :=
  home ← get_home;
  let repoPath := Config.getRepoPath home slug in
  Fs.mkdirSync repoPath;;
  mret repoPath.

(** The [SimpleGit] handle is the directory it is bound to. *)
Definition getGit (slug : string) : M string :=
  repoPath ← ensureRepoDir slug;
  let git := repoPath in
  isRepo ← Git.checkIsRepo git;
  (if negb isRepo then
     Git.init git;;
     Git.addConfig git "user.name" "track-scratchpad";;
     Git.addConfig git "user.email" "track-scratchpad@local"
   else mret tt);;
  mret git.

Definition snapshot (slug sourceFilePath : string) : M (option string) :=
  git ← getGit slug;
  home ← get_home;
  let repoPath := Config.getRepoPath home slug in
  let fileName := Path.basename sourceFilePath in
  let destPath := Path.join repoPath fileName in
  ex ← Fs.existsSync sourceFilePath;
  if negb ex then mret None
  else
    Fs.copyFileSync sourceFilePath destPath;;
    Git.add git fileName;;
    status ← Git.status git;
    if decide (length status = 0%nat) then mret None
    else
      result ← Git.commit git ("[" +:+ fileName +:+ "] auto-snapshot");
      mret (if decide (result = "") then None else Some result).

(** *** The fall-back of [getLog]:
    [body.match(/(\d+) insertion.*?(\d+) deletion/)] *)

Definition is_digit (a : ascii) : bool :=
  let n := N_of_ascii a in ((48 <=? n) && (n <=? 57))%N.

Definition is_line_terminator (a : ascii) : bool :=
  let n := N_of_ascii a in ((n =? 10) || (n =? 13))%N.

Fixpoint span_digits (s : string) : string * string :=
  match s with
  | "" => ("", "")
  | String a s' =>
      if is_digit a then
        let '(ds, rest) := span_digits s' in (String a ds, rest)
      else ("", s)
  end.

Fixpoint strip_prefix (pre s : string) : option string :=
  match pre, s with
  | "", _ => Some s
  | String a pre', String b s' =>
      if decide (a = b) then strip_prefix pre' s' else None
  | _, _ => None
  end.

(** The number that a string of digits writes. *)
Definition digits_value (ds : string) : N :=
  let fix go (acc : N) (s : string) : N :=
    match s with
    | "" => acc
    | String a s' => go (10 * acc + (N_of_ascii a - 48))%N s'
    end in
  go 0%N ds.

(** [parseInt(ds, 10)] of a string of digits: a [number]. *)
Definition parseInt (ds : string) : number := to_double (digits_value ds).

(** [(\d+)word] at the start of [s]: the digits and what follows. *)
Definition digits_then (word s : string) : option (string * string) :=
  let '(ds, rest) := span_digits s in
  if decide (ds = "") then None
  else match strip_prefix word rest with
       | Some rest' => Some (ds, rest')
       | None => None
       end.

(** [.*?(\d+) deletion]: the nearest place, on the same line. *)
Fixpoint lazy_deletion (s : string) : option string :=
  match digits_then " deletion" s with
  | Some (ds, _) => Some ds
  | None =>
      match s with
      | "" => None
      | String a s' => if is_line_terminator a then None else lazy_deletion s'
      end
  end.

Fixpoint stat_match (s : string) : option (string * string) :=
  let here :=
    match digits_then " insertion" s with
    | Some (ds1, rest) =>
        match lazy_deletion rest with
        | Some ds2 => Some (ds1, ds2)
        | None => None
        end
    | None => None
    end in
  match here with
  | Some m => Some m
  | None =>
      match s with
      | "" => None
      | String _ s' => stat_match s'
      end
  end.

Definition to_info (entry : Git.log_entry) : SnapshotInfo :=
  let diff := Git.e_diff entry in
  let insertions0 :=
    match diff with Some d => to_double (Diff.insertions d) | None => Num 0 end in
  let deletions0 :=
    match diff with Some d => to_double (Diff.deletions d) | None => Num 0 end in
  let '(insertions1, deletions1) :=
    if (is_zero insertions0 && is_zero deletions0
        && negb (bool_decide (Git.e_body entry = "")))%bool
    then match stat_match (Git.e_body entry) with
         | Some (a, b) => (parseInt a, parseInt b)
         | None => (insertions0, deletions0)
         end
    else (insertions0, deletions0) in
  Build_SnapshotInfo (Git.e_hash entry) (Git.e_date entry)
                     (Git.e_message entry) insertions1 deletions1.

(** The [args] of [getLog]. *)
Definition log_args (fileName : option string) : list string :=
  ["--stat"; "--stat-width=200"] ++
  match truthy fileName with
  | Some f => ["--follow"; "--"; f]
  | None => []
  end.

Definition getLog (slug : string) (fileName : option string) : M (list SnapshotInfo) :=
  git ← getGit slug;
  try_catch
    (log ← Git.log git (log_args fileName);
     mret (to_info <$> log))
    (mret []).

(** The [args] of [getDiff]. *)
Definition diff_args (hash : string) (fileName : option string) : list string :=
  [hash +:+ "^"; hash] ++
  match truthy fileName with
  | Some f => ["--"; f]
  | None => []
  end.

Definition getDiff (slug hash : string) (fileName : option string) : M string :=
  git ← getGit slug;
  try_catch
    (diff ← Git.diff git (diff_args hash fileName);
     mret (if decide (diff = "") then "(no diff available)" else diff))
    (try_catch
       (diff ← Git.diff git [EMPTY_TREE; hash];
        mret (if decide (diff = "") then "(initial snapshot)" else diff))
       (mret "(no diff available)")).

Definition getContent (slug hash fileName : string) : M string :=
  git ← getGit slug;
  try_catch
    (Git.show git [hash +:+ ":" +:+ fileName])
    (mret "(content not available)").

Definition restore (slug hash fileName destPath : string) : M bool :=
  try_catch
    (content ← getContent slug hash fileName;
     if decide (content = "(content not available)") then mret false
     else
       require;;
       Fs.writeFileSync destPath content;;
       mret true)
    (mret false).



End Tracker.

(** ** [src/watcher.ts]

  The module-level state of the watcher, the watchers of chokidar and the
  timers of the event loop are one [state].  An exported function, a
  ["change"] handler and a timer callback each run to completion before
  the next event: the [await]s inside them are not points where other
  events interleave. *)

Module Watcher.

Definition DEBOUNCE_MS : N := 500.

Import Config.

(** One [FSWatcher] of chokidar together with the variables that its
    ["change"] handler closes over: an iteration of the loop of
    [startWatching] creates one.  It is named by its position in
    [fswatchers]. *)
Record fswatcher := FSWatcher {
  fw_slug : string;
  fw_fileName : string;
  fw_filePath : string;
  fw_debounceTimer : option nat;
  fw_closed : bool
}.

Record WatcherEntry := Build_WatcherEntry {
  watcher : nat;
  filePath : string;
  slug : string
}.

(** A timer armed by [setTimeout]: its handle, when it is due, and the
    watcher whose handler armed it. *)
Record timer := Timer {
  t_id : nat;
  t_due : N;
  t_owner : nat
}.

Record state := State {
  (** the module-level [watchers] map *)
  watchers : gmap string WatcherEntry;
  (** the module-level [onSnapshotCallback], a callback by its name *)
  onSnapshotCallback : option nat;
  fswatchers : list fswatcher;
  (** the armed timers, in the order they were armed *)
  timers : list timer;
  next_timer : nat;
  (** the calls made to a callback so far *)
  notified : list (nat * string * string);
  env : world
}.

Definition set_watchers (m : gmap string WatcherEntry) (st : state) : state :=
  State m (onSnapshotCallback st) (fswatchers st) (timers st) (next_timer st)
        (notified st) (env st).
Definition set_fswatchers (l : list fswatcher) (st : state) : state :=
  State (watchers st) (onSnapshotCallback st) l (timers st) (next_timer st)
        (notified st) (env st).
Definition set_timers (l : list timer) (n : nat) (st : state) : state :=
  State (watchers st) (onSnapshotCallback st) (fswatchers st) l n
        (notified st) (env st).
Definition set_notified (l : list (nat * string * string)) (st : state) : state :=
  State (watchers st) (onSnapshotCallback st) (fswatchers st) (timers st)
        (next_timer st) l (env st).
Definition set_env (w : world) (st : state) : state :=
  State (watchers st) (onSnapshotCallback st) (fswatchers st) (timers st)
        (next_timer st) (notified st) w.

Definition init_state (w : world) : state := State ∅ None [] [] 0 [] w.

(** [onSnapshot(cb)] *)
Definition onSnapshot (cb : nat) (st : state) : state :=
  State (watchers st) (Some cb) (fswatchers st) (timers st) (next_timer st)
        (notified st) (env st).

Definition key_of (slug fileName : string) : string :=
  slug +:+ ":" +:+ fileName.

(** The body of the loop of [startWatching]. *)
Definition start_one (slug dir : string) (st : state) (fileName : string) : state :=
  let filePath := Path.join dir fileName in
  let key := key_of slug fileName in
  if decide (is_Some (watchers st !! key)) then st
  else
    let watcher := length (fswatchers st) in
    let st1 :=
      set_fswatchers (fswatchers st ++ [FSWatcher slug fileName filePath None false]) st in
    set_watchers (<[key := Build_WatcherEntry watcher filePath slug]> (watchers st1)) st1.

Definition startWatching (project : ProjectConfig) (st : state) : state :=
  foldl (start_one (p_slug project) (p_dir project)) st (p_files project).

(** [clearTimeout(id)] *)
Definition clearTimeout (id : nat) (st : state) : state :=
  set_timers (filter (λ t, t_id t ≠ id) (timers st)) (next_timer st) st.

(** The ["change"] handler of the watcher [w]. *)
Definition on_change (w : nat) (st : state) : state :=
  match fswatchers st !! w with
  | None => st
  | Some fw =>
      let st1 :=
        match fw_debounceTimer fw with
        | Some id => clearTimeout id st
        | None => st
        end in
      let id := next_timer st1 in
      let st2 :=
        set_timers (timers st1 ++ [Timer id (w_now (env st1) + DEBOUNCE_MS) w])
                   (S id) st1 in
      set_fswatchers
        (<[w := FSWatcher (fw_slug fw) (fw_fileName fw) (fw_filePath fw)
                          (Some id) (fw_closed fw)]> (fswatchers st2)) st2
  end.

(** The callback given to [setTimeout], for the watcher [w]. *)
Definition on_settle (w : nat) (st : state) : state :=
  match fswatchers st !! w with
  | None => st
  | Some fw =>
      let '(hash, w') := Tracker.snapshot (fw_slug fw) (fw_filePath fw) (env st) in
      let st1 := set_env w' st in
      match hash, onSnapshotCallback st1 with
      | Ok (Some h), Some cb =>
          if decide (h = "") then st1
          else set_notified (notified st1 ++ [(cb, fw_slug fw, fw_fileName fw)]) st1
      | _, _ => st1
      end
  end.

(** [watcher.close()] *)
Definition close (w : nat) (st : state) : state :=
  match fswatchers st !! w with
  | None => st
  | Some fw =>
      set_fswatchers
        (<[w := FSWatcher (fw_slug fw) (fw_fileName fw) (fw_filePath fw)
                          (fw_debounceTimer fw) true]> (fswatchers st)) st
  end.

(** [s.endsWith(suffix)] *)
Definition endsWith (s suffix : string) : bool :=
  bool_decide (is_Some (Tracker.strip_prefix (String.rev suffix) (String.rev s))).

Definition stop_matches (slug : string) (fileName : option string)
    (key : string) (entry : WatcherEntry) : bool :=
  bool_decide (Watcher.slug entry = slug) &&
  match Tracker.truthy fileName with
  | None => true
  | Some f => endsWith key (":" +:+ f)
  end.

(** The body of the loop of [stopWatching]. *)
Definition stop_one (slug : string) (fileName : option string)
    (st : state) (ke : string * WatcherEntry) : state :=
  if stop_matches slug fileName ke.1 ke.2 then
    let st1 := close (watcher ke.2) st in
    set_watchers (delete ke.1 (watchers st1)) st1
  else st.

Definition stopWatching (slug : string) (fileName : option string) (st : state) : state :=
  foldl (stop_one slug fileName) st (map_to_list (watchers st)).

Definition stopAll (st : state) : state :=
  let st1 := foldl (λ st ke, close (watcher ke.2) st) st (map_to_list (watchers st)) in
  set_watchers ∅ st1.

Definition isWatching (slug fileName : string) (st : state) : bool :=
  bool_decide (is_Some (watchers st !! key_of slug fileName)).

(** *** The event loop *)

(** An armed timer fires: it leaves the table and its callback runs, at
    the time it was due. *)
Definition fire (t : timer) (st : state) : state :=
  if decide (t_id t ∈ t_id <$> timers st) then
    let st1 := clearTimeout (t_id t) st in
    let st2 := set_env (set_now (N.max (w_now (env st1)) (t_due t)) (env st1)) st1 in
    on_settle (t_owner t) st2
  else st.

Definition elapse (d : N) (st : state) : state :=
  let target := (w_now (env st) + d)%N in
  let due := filter (λ t, (t_due t ≤ target)%N) (timers st) in
  let st1 := foldl (λ st t, fire t st) st due in
  set_env (set_now target (env st1)) st1.

Inductive event :=
| FileWritten (path content : string)
| FileRemoved (path : string)
| ChangeSeen (w : nat)
| Elapse (d : N)
| CallOnSnapshot (cb : nat)
| CallStartWatching (project : ProjectConfig)
| CallStopWatching (slug : string) (fileName : option string)
| CallStopAll.

Definition step (st : state) (e : event) : state :=
  match e with
  | FileWritten path content =>
      set_env (set_fs (<[path := content]> (w_fs (env st))) (env st)) st
  | FileRemoved path =>
      set_env (set_fs (delete path (w_fs (env st))) (env st)) st
  | ChangeSeen w =>
      match fswatchers st !! w with
      | Some fw => if fw_closed fw then st else on_change w st
      | None => st
      end
  | Elapse d => elapse d st
  | CallOnSnapshot cb => onSnapshot cb st
  | CallStartWatching project => startWatching project st
  | CallStopWatching slug fileName => stopWatching slug fileName st
  | CallStopAll => stopAll st
  end.

Definition run (st : state) (es : list event) : state := foldl step st es.

(** The history of the project [slug]: its commits, newest first. *)
Definition history (slug : string) (w : world) : list Env.commit :=
  match w_repos w !! Config.getRepoPath (w_home w) slug with
  | Some r => r_commits r
  | None => []
  end.

End Watcher.

(** ** The vocabulary of the properties *)

Module Props.

Import Config Tracker Watcher.

(** The repository that [getGit] creates where there is none. *)
Definition fresh_repo : repo :=
  Repo (<["user.email" := "track-scratchpad@local"]>
          (<["user.name" := "track-scratchpad"]> ∅)) ∅ [] false.

(** The directory of the store is there, or can be made. *)
Definition dir_ready (slug : string) (w : world) : bool :=
  let dir := getRepoPath (w_home w) slug in
  Fs.is_dir dir w ||
  (negb (Fs.is_file dir w) && negb (bool_decide (dir ∈ w_readonly w))).

(** [getGit] can open the store: its directory is ready and [git] can
    be run. *)
Definition opens (slug : string) (w : world) : bool :=
  dir_ready slug w && w_git_ok w.

(** The world as [mkdirSync] leaves it. *)
Definition with_dir (dir : string) (w : world) : world :=
  if Fs.is_dir dir w then w
  else set_dirs ({[ dir ]} ∪ list_to_set (Path.ancestors dir) ∪ w_dirs w) w.

(** The world as [getGit] leaves it when it returns. *)
Definition with_git (slug : string) (w : world) : world :=
  let dir := getRepoPath (w_home w) slug in
  let w1 := with_dir dir w in
  match w_repos w !! dir with
  | Some _ => w1
  | None => set_repos (<[dir := fresh_repo]> (w_repos w)) w1
  end.

(** The commit that [snapshot] makes of the repository [r]. *)
Definition snapshot_commit (w : world) (fileName : string) (r : repo) : Env.commit :=
  Commit (Git.mk_hash (length (r_commits r))) (r_index r)
         ("[" +:+ fileName +:+ "] auto-snapshot") "" (w_now w).

(** The store is clean for [fileName] with text [c]: [git] runs, the
    directory of the store is there, neither the source nor its copy in
    the store is a directory, the name is one that [git add] takes for
    a path, the copy can be written, the repository is usable, nothing
    is staged, and [c] is what it holds for the file. *)
Definition clean (slug sourceFilePath c : string) (w : world) : Prop :=
  let dir := getRepoPath (w_home w) slug in
  let fileName := Path.basename sourceFilePath in
  w_git_ok w = true ∧ Fs.is_dir dir w = true ∧
  Fs.is_dir sourceFilePath w = false ∧
  Fs.is_dir (Path.join dir fileName) w = false ∧
  Git.is_option fileName = false ∧
  (Path.join dir fileName ∉ w_readonly w) ∧
  (∃ r, w_repos w !! dir = Some r ∧ r_damaged r = false ∧
        Git.head_tree (r_commits r) = r_index r ∧
        r_index r !! fileName = Some c).

Definition fw_key (fw : fswatcher) : string :=
  key_of (fw_slug fw) (fw_fileName fw).

(** The watcher numbered [w] is an active watch of [key]: it exists, it
    was created for [key], and it has not been closed. *)
Definition active_in (l : list fswatcher) (w : nat) (key : string) : Prop :=
  ∃ fw, l !! w = Some fw ∧ fw_closed fw = false ∧ fw_key fw = key.

Definition active (st : state) (w : nat) (key : string) : Prop :=
  active_in (fswatchers st) w key.

(** The table and the active watches are the same thing. *)
Definition table_inv (m : gmap string WatcherEntry) (l : list fswatcher) : Prop :=
  (∀ key e, m !! key = Some e → active_in l (watcher e) key) ∧
  (∀ w key, active_in l w key → ∃ e, m !! key = Some e ∧ watcher e = w).

Definition watch_inv (st : state) : Prop :=
  table_inv (watchers st) (fswatchers st).

(** What a string is made of, as a predicate on its characters. *)
Fixpoint all_chars (P : ascii → Prop) (s : string) : Prop :=
  match s with
  | "" => True
  | String a s' => P a ∧ all_chars P s'
  end.

Definition is_decimal (a : ascii) : Prop := Tracker.is_digit a = true.

(** A name that [git] takes for a commit and for nothing else. *)
Definition plain_hash (h : string) : Prop :=
  h ≠ Git.EMPTY_TREE_ID ∧ h ≠ Tracker.EMPTY_TREE ∧
  Git.strip_caret h = None ∧ Git.is_option h = false.

(** The commits are named as [Git.commit] names them. *)
Fixpoint numbered (cs : list Env.commit) : Prop :=
  match cs with
  | [] => True
  | c :: older => c_hash c = Git.mk_hash (length older) ∧ numbered older
  end.

(** A usable store: [git] runs, the directory of the store is there,
    and the repository in it is [r], which is not damaged. *)
Definition store (slug : string) (w : world) (r : repo) : Prop :=
  w_git_ok w = true ∧
  Fs.is_dir (getRepoPath (w_home w) slug) w = true ∧
  w_repos w !! getRepoPath (w_home w) slug = Some r ∧
  r_damaged r = false.

(** What the lemmas below need of the names. *)
Definition hashes_ok (cs : list Env.commit) : Prop :=
  NoDup (c_hash <$> cs) ∧ Forall plain_hash (c_hash <$> cs).

(** The text of [f] in the commit named [h]. *)
Definition content_at (cs : list Env.commit) (h f : string) : option string :=
  match Git.find_commit cs h with
  | Some (c, _) => c_tree c !! f
  | None => None
  end.

Definition entry_of (c : Env.commit) (parent : gmap string string) (f : string)
  : Git.log_entry :=
  Git.LogEntry (c_hash c) (c_date c) (c_message c) (c_body c)
    (Diff.stat [Diff.FileChange f (parent !! f) (c_tree c !! f)]).

End Props.

Import Props.

(** ** Concrete runs *)

Module Scenario.

Import Config Tracker Watcher.

Definition file : string := "/work/notes/a.md".
Definition text1 : string := "line 1" +:+ Diff.nl.
Definition text2 : string := "line 1" +:+ Diff.nl +:+ "line 2" +:+ Diff.nl.

Definition project : ProjectConfig :=
  Build_ProjectConfig "notes" "/work/notes" ["a.md"].

(** A machine with [git] and a runtime that defines [require], where
    [--follow] finds no copies, with the files [fs] in [/work/notes]. *)
Definition machine (fs : gmap string string) : world :=
  World "/home/u" 1000 fs ∅ ∅
        {[ "/"; "/home"; "/home/u"; "/work"; "/work/notes" ]} true true
        (λ _ _ _, None).

(** The file exists, nothing was recorded yet. *)
Definition world0 : world := machine {[ file := text1 ]}.

(** After a first [snapshot]. *)
Definition world1 : world := (snapshot "notes" file world0).2.

(** After an edit of the file and a second [snapshot]. *)
Definition world2 : world :=
  (snapshot "notes" file (set_fs (<[file := text2]> (w_fs world1)) world1)).2.

Definition repo_of (w : world) : repo :=
  default Git.empty_repo (w_repos w !! getRepoPath (w_home w) "notes").


(** The recorded text of the file is the sentinel of [getContent]. *)
Definition sentinel_world : world :=
  (snapshot "notes" file (machine {[ file := "(content not available)" ]})).2.

(** The runtime does not define [require]. *)
Definition node_world : world :=
  World (w_home world2) (w_now world2) (w_fs world2) (w_readonly world2)
        (w_repos world2) (w_dirs world2) (w_git_ok world2) false
        (w_copy_source world2).

(** [git] is not installed, and there is no file. *)
Definition no_git_world : world :=
  World "/home/u" 1000 ∅ ∅ ∅
        {[ "/"; "/home"; "/home/u"; "/work"; "/work/notes" ]} false true
        (λ _ _ _, None).

(** The file is watched, with a callback registered. *)
Definition watching : state :=
  run (init_state world0) [CallOnSnapshot 1; CallStartWatching project].

(** The file was edited, chokidar reported the change, and 100 ms went by:
    the debounce timer is armed and has 400 ms to go. *)
Definition armed : state :=
  run watching [FileWritten file text2; ChangeSeen 0; Elapse 100].

(** The file is untracked at that moment. *)
Definition stopped : state :=
  run armed [CallStopWatching "notes" (Some "a.md")].

End Scenario.

(** ** The vocabulary of the states that can be reached *)

Module Reach.

Import Config Watcher.

(** A project as the registry keeps it: it lists at least one file and
    lists no file twice. *)
Definition listed (p : ProjectConfig) : Prop :=
  p_files p ≠ [] ∧ NoDup (p_files p).

(** The handle that the ["change"] handler of the watcher [w] holds in
    its variable [debounceTimer]. *)
Definition handle (st : state) (w : nat) : option nat :=
  fswatchers st !! w ≫= fw_debounceTimer.

(** The armed timers and the handles that the handlers hold: the handles
    of the armed timers are distinct; every handle in use was handed out
    already; the handler that armed a timer holds its handle, and no
    other handler does. *)
Definition timers_inv (st : state) : Prop :=
  NoDup (t_id <$> timers st) ∧
  (∀ t, t ∈ timers st →
        (t_id t < next_timer st)%nat ∧ handle st (t_owner t) = Some (t_id t)) ∧
  (∀ w id, handle st w = Some id →
           (id < next_timer st)%nat ∧
           ∀ t, t ∈ timers st → t_id t = id → t_owner t = w).

(** The timers that the handler of the watcher [w] armed. *)
Definition timers_of (w : nat) (st : state) : list timer :=
  filter (λ t, t_owner t = w) (timers st).

Definition timers_of_others (w : nat) (st : state) : list timer :=
  filter (λ t, t_owner t ≠ w) (timers st).

(** A component of a path, and a component that [path.resolve] keeps. *)
Definition component (x : string) : Prop :=
  x ≠ "" ∧ all_chars (λ a, a ≠ "/"%char) x.

Definition plain (x : string) : Prop :=
  component x ∧ x ≠ "." ∧ x ≠ "..".

End Reach.

Import Reach.

(** ** The commands of [src/app.ts]

  What [startApp] and the handlers of [/watch] and [/unwatch] do to the
  registry and to the watcher.  The rendering of the screen is left
  out, and so is the registry file, as in [Config]: the registry that
  [refreshProjects] loads again is the one that was just saved. *)

Module App.

Import Utils Config Tracker Watcher.

Record app := Build_app {
  (** [state.config] *)
  a_config : AppConfig;
  (** the state of [src/watcher.ts] *)
  a_watcher : Watcher.state
}.

(** [startApp(initialFilePath)], with the registry that [loadConfig]
    returned and the callback that it registers by the name [cb]. *)
Definition startApp (cwd : string) (loaded : AppConfig)
    (initialFilePath : option string) (cb : nat) (w : world) : app :=
  let config :=
    match truthy initialFilePath with
    | Some f => addFileToConfig cwd loaded f
    | None => loaded
    end in
  Build_app config
    (foldl (λ st project, startWatching project st)
           (onSnapshot cb (init_state w)) (projects config)).

(** [case "watch"] of [handleCommand].  Where [snapshot] throws, the
    handler ends there. *)
Definition cmd_watch (cwd arg : string) (a : app) : app :=
  if decide (arg = "") then a
  else
    let config := addFileToConfig cwd (a_config a) arg in
    let watchAbsPath := Path.resolve cwd arg in
    let watchSlug := projectSlug cwd (Path.dirname watchAbsPath) in
    let '(res, w') := snapshot watchSlug watchAbsPath (env (a_watcher a)) in
    let st := set_env w' (a_watcher a) in
    match res with
    | Throw _ => Build_app config st
    | Ok _ =>
        match find_project watchSlug (projects config) with
        | Some watchProject => Build_app config (startWatching watchProject st)
        | None => Build_app config st
        end
    end.

(** [case "unwatch"] of [handleCommand]. *)
Definition cmd_unwatch (cwd arg : string) (a : app) : app :=
  if decide (arg = "") then a
  else
    let unwatchAbsPath := Path.resolve cwd arg in
    let unwatchSlug := projectSlug cwd (Path.dirname unwatchAbsPath) in
    let st :=
      stopWatching unwatchSlug (Some (Path.basename unwatchAbsPath)) (a_watcher a) in
    Build_app (removeFileFromConfig cwd (a_config a) arg) st.

(** What happens to a running application: a command is entered, or
    something happens outside of it. *)
Inductive app_event :=
| Watch (arg : string)
| Unwatch (arg : string)
| Written (path content : string)
| Removed (path : string)
| Changed (w : nat)
| Passed (d : N).

Definition app_step (cwd : string) (a : app) (e : app_event) : app :=
  match e with
  | Watch arg => cmd_watch cwd arg a
  | Unwatch arg => cmd_unwatch cwd arg a
  | Written path content =>
      Build_app (a_config a) (step (a_watcher a) (FileWritten path content))
  | Removed path => Build_app (a_config a) (step (a_watcher a) (FileRemoved path))
  | Changed w => Build_app (a_config a) (step (a_watcher a) (ChangeSeen w))
  | Passed d => Build_app (a_config a) (step (a_watcher a) (Elapse d))
  end.

Definition app_run (cwd : string) (a : app) (es : list app_event) : app :=
  foldl (app_step cwd) a es.

(** The entry [e] under the key [k] is a file of the registry. *)
Definition registered (config : AppConfig) (k : string) (e : WatcherEntry) : Prop :=
  ∃ p f, find_project (slug e) (projects config) = Some p ∧ f ∈ p_files p ∧
         k = key_of (slug e) f.

(** The slugs of a registry name its projects, and have no colon. *)
Definition slugs_ok (config : AppConfig) : Prop :=
  NoDup (p_slug <$> projects config) ∧
  Forall (all_chars (λ a, a ≠ ":"%char)) (p_slug <$> projects config).

Definition app_inv (a : app) : Prop :=
  slugs_ok (a_config a) ∧
  ∀ k e, watchers (a_watcher a) !! k = Some e → registered (a_config a) k e.

End App.

Ltac unfold_js :=
  unfold mbind, M_bind, bind, mret, M_ret, ret, throw, try_catch, get_home,
    Fs.existsSync, Fs.mkdirSync, Git.checkIsRepo.

Example projectSlug_ex1 :
  Utils.projectSlug "/home/u" "/work/my notes/" = "my_notes".
Proof. reflexivity. Qed.

Example projectSlug_ex2 :
  Utils.projectSlug "/home/u" "../x/./proj-1" = "proj-1".
Proof. reflexivity. Qed.

Example getRepoPath_ex :
  Config.getRepoPath "/home/u" "notes" = "/home/u/.diffden/repos/notes".
Proof. reflexivity. Qed.

Example join_ex :
  Path.join "/" "x.md" = "/x.md" ∧ Path.join "/a/b" "../c" = "/a/c" ∧
  Path.join "/a" "" = "/a" ∧ Path.join "a" ".." = "." ∧
  Path.join "/a/" "b/" = "/a/b/".
Proof. repeat split; reflexivity. Qed.

Example lossy_ex :
  Utf8.lossy (String "255" "a") = Utf8.replacement +:+ "a" ∧
  Utf8.lossy (String "195" (String "169" "")) = String "195" (String "169" "") ∧
  Utf8.lossy (String "237" (String "160" (String "128" "")))
  = Utf8.replacement +:+ Utf8.replacement +:+ Utf8.replacement ∧
  Utf8.lossy (String "240" (String "159" (String "146" "x")))
  = Utf8.replacement +:+ "x".
Proof. repeat split; reflexivity. Qed.

Example to_double_ex :
  Tracker.to_double 9007199254740993 = Tracker.Num 9007199254740992 ∧
  Tracker.to_double 9007199254740995 = Tracker.Num 9007199254740996 ∧
  Tracker.to_double 18014398509481985 = Tracker.Num 18014398509481984.
Proof. repeat split; vm_compute; reflexivity. Qed.

(** * Properties *)

(** ** Storage directories (C3) *)

Section RepoDirs.

Import Config.

Lemma getRepoPath_inj home : Inj (=) (=) (getRepoPath home).
Proof.
  intros s1 s2 H. unfold getRepoPath in H.
  apply (inj (String.app (Utils.REPOS_DIR home))) in H.
  by apply (inj (String.app "/")) in H.
Qed.

Lemma update_found_slugs slug f ps :
  (∀ p, p_slug (f p) = p_slug p) →
  p_slug <$> update_found slug f ps = p_slug <$> ps.
Proof.
  intros Hf. induction ps as [|p ps IH]; [done|].
  cbn [update_found]. case_decide; rewrite !fmap_cons; [by rewrite Hf | by rewrite IH].
Qed.

Lemma find_project_None slug ps :
  find_project slug ps = None → slug ∉ p_slug <$> ps.
Proof.
  unfold find_project. intros H.
  destruct (list_find _ ps) as [[i p]|] eqn:E; [done|].
  apply list_find_None in E. intros [p [-> Hp]]%list_elem_of_fmap.
  rewrite Forall_forall in E. by apply (E p).
Qed.

Lemma addFileToConfig_NoDup cwd config filePath :
  NoDup (p_slug <$> projects config) →
  NoDup (p_slug <$> projects (addFileToConfig cwd config filePath)).
Proof.
  intros Hnd. unfold addFileToConfig. cbn [projects].
  rewrite update_found_slugs.
  2:{ intros p. unfold push_file. by case_decide. }
  destruct (find_project _ (projects config)) eqn:E; [done|].
  apply find_project_None in E.
  rewrite fmap_app. apply NoDup_app. split; [done|]. split.
  - intros x Hx ->%list_elem_of_singleton. done.
  - apply NoDup_singleton.
Qed.

Lemma filter_slugs_NoDup (P : ProjectConfig → Prop) `{∀ p, Decision (P p)} ps :
  NoDup (p_slug <$> ps) → NoDup (p_slug <$> filter P ps).
Proof.
  induction ps as [|p ps IH]; [done|].
  rewrite fmap_cons. intros [Hp Hps]%NoDup_cons.
  rewrite filter_cons. case_decide; [|auto].
  rewrite fmap_cons. apply NoDup_cons. split; [|auto].
  intros [q [Hq Hin]]%list_elem_of_fmap. apply Hp.
  apply list_elem_of_fmap. exists q. split; [done|].
  by apply list_elem_of_filter in Hin as [_ ?].
Qed.

Lemma removeFileFromConfig_NoDup cwd config filePath :
  NoDup (p_slug <$> projects config) →
  NoDup (p_slug <$> projects (removeFileFromConfig cwd config filePath)).
Proof.
  intros Hnd. unfold removeFileFromConfig.
  destruct (find_project _ (projects config)); [|done].
  assert (NoDup (p_slug <$> update_found
            (Utils.projectSlug cwd (Utils.projectDirFromFile cwd (Path.resolve cwd filePath)))
            (drop_file (Path.basename (Path.resolve cwd filePath)))
            (projects config))) as Hnd'.
  { by rewrite update_found_slugs. }
  case_decide; cbn [projects]; [by apply filter_slugs_NoDup | done].
Qed.

Lemma registry_after_NoDup cwd ops :
  NoDup (p_slug <$> projects (registry_after cwd ops)).
Proof.
  unfold registry_after.
  induction ops as [|op ops IH] using rev_ind; [apply NoDup_nil_2|].
  rewrite foldl_app. cbn [foldl]. destruct op; cbn [apply_op].
  - by apply addFileToConfig_NoDup.
  - by apply removeFileFromConfig_NoDup.
Qed.

(** C3, as the code has it: the projects of the registry are told apart
    by their slugs, so whatever files are added and removed, no two
    project entries of the registry have the same storage directory. *)
Theorem registry_repo_dirs_distinct home cwd (ops : list registry_op) :
  NoDup (repo_dirs home (registry_after cwd ops)).
Proof.
  unfold repo_dirs.
  pose proof (registry_after_NoDup cwd ops) as Hnd.
  rewrite (list_fmap_compose p_slug (getRepoPath home)).
  apply (NoDup_fmap_2 _). done.
Qed.

(** C3 as stated fails: two different directories with the same last
    component get the same slug, hence the same storage directory, and
    the second directory's file joins the first one's project. *)
Lemma same_basename_same_repo_dir :
  Path.resolve "/" "/a/notes" ≠ Path.resolve "/" "/b/notes" ∧
  getRepoPath "/home/u" (Utils.projectSlug "/" "/a/notes")
  = getRepoPath "/home/u" (Utils.projectSlug "/" "/b/notes") ∧
  registry_after "/" [AddFile "/a/notes/x.md"; AddFile "/b/notes/y.md"]
  = Build_AppConfig [Build_ProjectConfig "notes" "/a/notes" ["x.md"; "y.md"]] None.
Proof. split; [|split]; vm_compute; congruence. Qed.

End RepoDirs.

(** ** The snapshot store *)

Section Store.

Import Config Tracker.

Lemma with_dir_fields dir w :
  w_home (with_dir dir w) = w_home w ∧ w_fs (with_dir dir w) = w_fs w ∧
  w_now (with_dir dir w) = w_now w ∧ w_readonly (with_dir dir w) = w_readonly w ∧
  w_repos (with_dir dir w) = w_repos w ∧ w_git_ok (with_dir dir w) = w_git_ok w ∧
  w_require (with_dir dir w) = w_require w ∧
  w_copy_source (with_dir dir w) = w_copy_source w.
Proof. unfold with_dir. by destruct (Fs.is_dir dir w). Qed.

Lemma with_dir_is_dir dir w : Fs.is_dir dir (with_dir dir w) = true.
Proof.
  unfold with_dir. destruct (Fs.is_dir dir w) eqn:E; [done|].
  unfold Fs.is_dir. cbn [set_dirs w_dirs]. apply bool_decide_eq_true. set_solver.
Qed.

Lemma with_dir_id dir w : Fs.is_dir dir w = true → with_dir dir w = w.
Proof. unfold with_dir. by intros ->. Qed.

(** [mkdirSync], where the directory is ready. *)
Lemma mkdirSync_ready slug w :
  dir_ready slug w = true →
  Fs.mkdirSync (getRepoPath (w_home w) slug) w
  = (Ok tt, with_dir (getRepoPath (w_home w) slug) w).
Proof.
  unfold dir_ready, Fs.mkdirSync, with_dir. cbn zeta.
  destruct (Fs.is_dir _ w); [done|]. cbn [orb].
  destruct (Fs.is_file _ w); [done|]. cbn [negb andb].
  case_decide; [by rewrite bool_decide_eq_true_2|done].
Qed.

Lemma mkdirSync_not_ready slug w :
  dir_ready slug w = false →
  ∃ e, Fs.mkdirSync (getRepoPath (w_home w) slug) w = (Throw e, w).
Proof.
  unfold dir_ready, Fs.mkdirSync. cbn zeta.
  destruct (Fs.is_dir _ w); [done|]. cbn [orb].
  destruct (Fs.is_file _ w); [eauto|]. cbn [negb andb].
  case_decide; [eauto|]. by rewrite bool_decide_eq_false_2.
Qed.

(** [getGit], where it can open the store. *)
Lemma getGit_eq slug w :
  opens slug w = true →
  getGit slug w = (Ok (getRepoPath (w_home w) slug), with_git slug w).
Proof.
  intros [Hdir Hgit]%andb_true_iff.
  unfold getGit, ensureRepoDir, with_git, mbind, M_bind, bind, mret, M_ret, ret, get_home.
  cbn zeta. rewrite (mkdirSync_ready slug w Hdir).
  destruct (with_dir_fields (getRepoPath (w_home w) slug) w)
    as (_ & _ & _ & _ & Hrepos & Hok & _ & _).
  set (w1 := with_dir _ w) in *.
  unfold Git.checkIsRepo. rewrite Hok, Hgit, Hrepos. cbn [negb].
  destruct (w_repos w !! getRepoPath (w_home w) slug) as [r|] eqn:E.
  - rewrite bool_decide_eq_true_2 by eauto. done.
  - rewrite bool_decide_eq_false_2 by (by intros [? ?]). cbn [negb].
    unfold Git.init, Git.addConfig, Git.on_repo. rewrite Hok, Hgit, Hrepos, E.
    cbn [negb set_repos w_git_ok w_repos]. rewrite Hok, Hgit. cbn [negb].
    rewrite !lookup_insert_eq. cbn [Git.empty_repo r_damaged set_repos w_git_ok w_repos].
    rewrite Hok, Hgit. cbn [negb].
    rewrite !lookup_insert_eq. cbn. rewrite !insert_insert_eq. done.
Qed.

(** [getGit], where it cannot: it throws, and no repository and no file
    has changed. *)
Lemma getGit_fails slug w :
  opens slug w = false →
  ∃ e w', getGit slug w = (Throw e, w') ∧
          w_repos w' = w_repos w ∧ w_fs w' = w_fs w ∧ w_home w' = w_home w.
Proof.
  intros Hopen.
  unfold getGit, ensureRepoDir, mbind, M_bind, bind, mret, M_ret, ret, get_home.
  cbn zeta. destruct (dir_ready slug w) eqn:Hdir.
  - rewrite (mkdirSync_ready slug w Hdir).
    destruct (with_dir_fields (getRepoPath (w_home w) slug) w)
      as (Hh & Hf & _ & _ & Hrepos & Hok & _ & _).
    unfold opens in Hopen. rewrite Hdir in Hopen. cbn [andb] in Hopen.
    unfold Git.checkIsRepo. rewrite Hok, Hopen. cbn [negb]. eauto 10.
  - destruct (mkdirSync_not_ready slug w Hdir) as [e ->]. eauto 10.
Qed.

Lemma getGit_inv slug w g w1 :
  getGit slug w = (Ok g, w1) →
  opens slug w = true ∧ g = getRepoPath (w_home w) slug ∧ w1 = with_git slug w.
Proof.
  intros Hg. destruct (opens slug w) eqn:Hopen.
  - rewrite getGit_eq in Hg by done. by injection Hg as <- <-.
  - destruct (getGit_fails slug w Hopen) as (e & w' & He & _). congruence.
Qed.

Lemma with_git_home slug w : w_home (with_git slug w) = w_home w.
Proof.
  unfold with_git. cbn zeta.
  destruct (with_dir_fields (getRepoPath (w_home w) slug) w) as (H & _).
  by destruct (_ !! _).
Qed.

Lemma with_git_fs slug w : w_fs (with_git slug w) = w_fs w.
Proof.
  unfold with_git. cbn zeta.
  destruct (with_dir_fields (getRepoPath (w_home w) slug) w) as (_ & H & _).
  by destruct (_ !! _).
Qed.

Lemma with_git_now slug w : w_now (with_git slug w) = w_now w.
Proof.
  unfold with_git. cbn zeta.
  destruct (with_dir_fields (getRepoPath (w_home w) slug) w) as (_ & _ & H & _).
  by destruct (_ !! _).
Qed.

Lemma with_git_readonly slug w : w_readonly (with_git slug w) = w_readonly w.
Proof.
  unfold with_git. cbn zeta.
  destruct (with_dir_fields (getRepoPath (w_home w) slug) w) as (_ & _ & _ & H & _).
  by destruct (_ !! _).
Qed.

Lemma with_git_flags slug w :
  w_git_ok (with_git slug w) = w_git_ok w ∧
  w_require (with_git slug w) = w_require w ∧
  w_copy_source (with_git slug w) = w_copy_source w.
Proof.
  unfold with_git. cbn zeta.
  destruct (with_dir_fields (getRepoPath (w_home w) slug) w)
    as (_ & _ & _ & _ & _ & H1 & H2 & H3).
  by destruct (_ !! _).
Qed.

Lemma with_git_dirs slug w p :
  Fs.is_dir p (with_git slug w) = Fs.is_dir p (with_dir (getRepoPath (w_home w) slug) w).
Proof. unfold with_git. cbn zeta. by destruct (_ !! _). Qed.

Lemma with_git_history slug w :
  Watcher.history slug (with_git slug w) = Watcher.history slug w.
Proof.
  unfold Watcher.history. rewrite with_git_home. unfold with_git. cbn zeta.
  destruct (with_dir_fields (getRepoPath (w_home w) slug) w)
    as (_ & _ & _ & _ & Hrepos & _).
  destruct (w_repos w !! getRepoPath (w_home w) slug) eqn:E; [by rewrite Hrepos, E|].
  cbn [set_repos w_repos]. by rewrite lookup_insert_eq.
Qed.

Lemma with_git_is_repo slug w :
  is_Some (w_repos (with_git slug w) !! getRepoPath (w_home w) slug).
Proof.
  unfold with_git. cbn zeta.
  destruct (with_dir_fields (getRepoPath (w_home w) slug) w)
    as (_ & _ & _ & _ & Hrepos & _).
  destruct (w_repos w !! getRepoPath (w_home w) slug) eqn:E; [by rewrite Hrepos, E|].
  cbn [set_repos w_repos]. rewrite lookup_insert_eq. eauto.
Qed.

(** After [getGit] the store can be opened again. *)
Lemma with_git_opens slug w :
  opens slug w = true → opens slug (with_git slug w) = true.
Proof.
  intros [Hdir Hgit]%andb_true_iff. unfold opens, dir_ready. cbn zeta.
  rewrite with_git_home, with_git_dirs, with_dir_is_dir.
  by destruct (with_git_flags slug w) as (-> & _).
Qed.

(** *** [restore] (C7, C10) *)


(** C10: a revision whose stored text is the sentinel of [getContent]
    cannot be restored: [git show] succeeds, and yet [restore] answers
    [false] and writes nothing. *)
Theorem restore_sentinel_content slug hash fileName destPath w g w1 :
  getGit slug w = (Ok g, w1) →
  Git.show g [hash +:+ ":" +:+ fileName] w1 = (Ok "(content not available)", w1) →
  restore slug hash fileName destPath w = (Ok false, w1) ∧
  w_fs w1 = w_fs w.
Proof.
  intros Hg Hshow. split.
  - unfold restore, getContent. unfold_js. rewrite Hg, Hshow. done.
  - apply getGit_inv in Hg as (_ & _ & ->). apply with_git_fs.
Qed.

(** *** [getLog] (C8) *)

(** [git log] reads only. *)
Lemma log_world dir args w : (Git.log dir args w).2 = w.
Proof.
  unfold Git.log, Git.read_repo. destruct (w_git_ok w); [|done]. cbn [negb].
  destruct (w_repos w !! dir) as [r|]; [|done]. by destruct (r_damaged r).
Qed.


(** [git log] fails where [git] cannot be run, without a repository, on
    a repository without commits and on a damaged one. *)
Lemma log_fails_iff dir args w :
  (∃ e, (Git.log dir args w).1 = Throw e) ↔
  w_git_ok w = false ∨
  match w_repos w !! dir with
  | None => True
  | Some r => r_damaged r = true ∨ r_commits r = []
  end.
Proof.
  unfold Git.log, Git.read_repo.
  destruct (w_git_ok w); cbn; [|by split; eauto].
  destruct (w_repos w !! dir) as [r|]; cbn; [|by split; eauto].
  destruct (r_damaged r); cbn; [by split; eauto|].
  destruct (r_commits r); cbn; [by split; eauto|].
  split; [intros [e He] | intros [?|[?|?]]]; try done.
  by repeat case_match.
Qed.

(** *** [snapshot] (C2, C6) *)

(** Where the store cannot be opened [snapshot] throws, and no
    repository and no file has changed. *)
Lemma snapshot_fails slug sourceFilePath w :
  opens slug w = false →
  ∃ e w', snapshot slug sourceFilePath w = (Throw e, w') ∧
          w_repos w' = w_repos w ∧ w_fs w' = w_fs w ∧ w_home w' = w_home w.
Proof.
  intros Hopen. destruct (getGit_fails slug w Hopen) as (e & w' & Hg & H).
  exists e, w'. split; [|done]. unfold snapshot. unfold_js. by rewrite Hg.
Qed.

Lemma snapshot_absent slug sourceFilePath w :
  opens slug w = true →
  w_fs w !! sourceFilePath = None →
  Fs.is_dir sourceFilePath (with_git slug w) = false →
  snapshot slug sourceFilePath w = (Ok None, with_git slug w).
Proof.
  intros Hopen Hsrc Hdir. unfold snapshot.
  unfold mbind, M_bind, bind, mret, M_ret, ret, get_home.
  rewrite getGit_eq by done. unfold Fs.existsSync, Fs.is_file.
  rewrite with_git_fs, Hsrc, Hdir.
  rewrite bool_decide_eq_false_2 by (by intros [? ?]). done.
Qed.

(** C6: when [getGit] can open the store and there is nothing at the
    source path, no file and no directory, [snapshot] returns [null]
    without throwing, and the history is what it was. *)
Theorem snapshot_missing_source slug sourceFilePath w :
  opens slug w = true →
  w_fs w !! sourceFilePath = None →
  Fs.is_dir sourceFilePath (with_git slug w) = false →
  ∃ w', snapshot slug sourceFilePath w = (Ok None, w') ∧
        Watcher.history slug w' = Watcher.history slug w ∧
        w_fs w' = w_fs w.
Proof.
  intros Hopen Hsrc Hdir. exists (with_git slug w).
  split; [by apply snapshot_absent|].
  split; [apply with_git_history | apply with_git_fs].
Qed.

(** *** The staged paths *)

Lemma omap_nil_iff {A B} (f : A → option B) (l : list A) :
  omap f l = [] ↔ ∀ x, x ∈ l → f x = None.
Proof.
  induction l as [|a l IH]; cbn.
  - split; [by intros _ x ?%not_elem_of_nil | done].
  - destruct (f a) eqn:E.
    + split; [done|]. intros H. specialize (H a (proj2 (elem_of_cons l a a) (or_introl eq_refl))).
      congruence.
    + rewrite IH. split.
      * intros H x [->|?]%elem_of_cons; auto.
      * intros H x ?. apply H. apply elem_of_cons. by right.
Qed.

Lemma diff_trees_nil_iff (t1 t2 : gmap string string) :
  Diff.diff_trees t1 t2 None = [] ↔ t1 = t2.
Proof.
  unfold Diff.diff_trees. rewrite omap_nil_iff. split.
  - intros H. apply map_eq. intros f.
    destruct (decide (f ∈ dom t1 ∪ dom t2)) as [Hin|Hout].
    + specialize (H f). rewrite merge_sort_Permutation, elem_of_elements in H.
      specialize (H Hin). by case_decide.
    + apply not_elem_of_union in Hout as [H1 H2].
      apply not_elem_of_dom in H1, H2. congruence.
  - intros -> f _. by rewrite decide_True.
Qed.

Lemma staged_nil_iff r :
  Git.staged r = [] ↔ Git.head_tree (r_commits r) = r_index r.
Proof.
  unfold Git.staged. rewrite <- diff_trees_nil_iff.
  split; [apply fmap_nil_inv | by intros ->].
Qed.

Lemma mk_hash_nonempty n : Git.mk_hash n ≠ "".
Proof. done. Qed.

(** [snapshot], case by case, where the store can be opened. *)
Lemma snapshot_cases slug sourceFilePath w :
  opens slug w = true →
  let dir := getRepoPath (w_home w) slug in
  let fileName := Path.basename sourceFilePath in
  let destPath := Path.join dir fileName in
  let w1 := with_git slug w in
  if Fs.is_dir sourceFilePath w1
  then snapshot slug sourceFilePath w = (Throw "EISDIR", w1)
  else
  match w_fs w !! sourceFilePath with
  | None => snapshot slug sourceFilePath w = (Ok None, w1)
  | Some c =>
      if Fs.is_dir destPath w1
      then snapshot slug sourceFilePath w = (Throw "EISDIR", w1)
      else if decide (destPath ∈ w_readonly w)
      then snapshot slug sourceFilePath w = (Throw "EACCES", w1)
      else
        let w2 := set_fs (<[destPath := c]> (w_fs w)) w1 in
        match w_repos w1 !! dir with
        | None => False
        | Some r =>
            if r_damaged r
            then snapshot slug sourceFilePath w = (Throw "object store unreadable", w2)
            else if Git.is_option fileName
            then snapshot slug sourceFilePath w
                 = (Throw "unknown option", set_repos (<[dir := r]> (w_repos w1)) w2)
            else
              let r1 := Git.set_index (<[fileName := c]> (r_index r)) r in
              if decide (Git.staged r1 = [])
              then snapshot slug sourceFilePath w
                   = (Ok None, set_repos (<[dir := r1]> (w_repos w1)) w2)
              else snapshot slug sourceFilePath w
                   = (Ok (Some (Git.mk_hash (length (r_commits r)))),
                      set_repos
                        (<[dir := Git.set_commits
                                    (snapshot_commit w fileName r1 :: r_commits r) r1]>
                           (w_repos w1)) w2)
        end
  end.
Proof.
  intros Hopen dir fileName destPath w1.
  destruct (with_git_flags slug w) as (Hok & _). fold w1 in Hok.
  apply andb_true_iff in Hopen as Hopen'. destruct Hopen' as [_ Hgit].
  rewrite Hgit in Hok.
  unfold snapshot. unfold mbind, M_bind, bind, mret, M_ret, ret, get_home.
  rewrite getGit_eq by done. fold w1.
  unfold Fs.existsSync, Fs.copyFileSync, Fs.writeFileSync, Fs.is_file.
  rewrite (with_git_fs slug w : w_fs w1 = w_fs w).
  rewrite (with_git_home slug w : w_home w1 = w_home w).
  fold dir fileName destPath.
  destruct (Fs.is_dir sourceFilePath w1) eqn:Hsd.
  { rewrite orb_true_r. cbn [negb]. by rewrite Hsd. }
  destruct (w_fs w !! sourceFilePath) as [c|] eqn:Hsrc.
  2:{ rewrite bool_decide_eq_false_2 by (by intros [? ?]). done. }
  rewrite bool_decide_eq_true_2 by eauto. cbn [negb orb]. rewrite Hsd.
  rewrite ?(with_git_fs slug w : w_fs w1 = w_fs w), Hsrc.
  destruct (Fs.is_dir destPath w1) eqn:Hdd; [done|].
  rewrite (with_git_readonly slug w : w_readonly w1 = w_readonly w).
  destruct (decide (destPath ∈ w_readonly w)); [done|].
  destruct (with_git_is_repo slug w) as [r Hr]. fold dir w1 in Hr. rewrite Hr.
  unfold Git.add, Git.on_repo. cbn [set_fs w_repos w_fs w_git_ok].
  rewrite Hok, Hr. cbn [negb].
  destruct (r_damaged r) eqn:Hd; [done|].
  destruct (Git.is_option fileName) eqn:Hopt; [done|].
  fold destPath. rewrite lookup_insert_eq.
  unfold Git.status, Git.read_repo. cbn [set_repos set_fs w_repos w_git_ok].
  rewrite Hok. cbn [negb].
  rewrite lookup_insert_eq. cbn [Git.set_index r_damaged]. rewrite Hd.
  set (r1 := Git.set_index (<[fileName:=c]> (r_index r)) r).
  destruct (decide (Git.staged r1 = [])) as [Hs|Hs].
  - subst r1. cbn [Git.set_index] in *. rewrite Hs. done.
  - rewrite decide_False.
    2:{ intros Hl. apply Hs. subst r1. cbn [Git.set_index] in *.
        by apply nil_length_inv. }
    unfold Git.commit, Git.on_repo. cbn [set_repos set_fs w_repos w_git_ok].
    rewrite Hok. cbn [negb].
    rewrite lookup_insert_eq. subst r1. cbn [Git.set_index r_damaged] in *.
    rewrite Hd.
    destruct (Git.staged _) eqn:Hst; [done|].
    rewrite insert_insert_eq.
    cbn [c_hash Git.set_index r_commits r_index].
    rewrite decide_False by apply mk_hash_nonempty.
    unfold snapshot_commit.
    cbn [set_repos set_fs w_now Git.set_index r_commits r_index].
    by rewrite (with_git_now slug w : w_now w1 = w_now w).
Qed.

Lemma history_lookup slug w r :
  w_repos w !! getRepoPath (w_home w) slug = Some r →
  Watcher.history slug w = r_commits r.
Proof. unfold Watcher.history. by intros ->. Qed.

Lemma with_git_id slug w r :
  Fs.is_dir (getRepoPath (w_home w) slug) w = true →
  w_repos w !! getRepoPath (w_home w) slug = Some r → with_git slug w = w.
Proof. unfold with_git. intros Hd ->. by apply with_dir_id. Qed.

(** A store whose directory is there can be opened where [git] runs. *)
Lemma is_dir_opens slug w :
  w_git_ok w = true → Fs.is_dir (getRepoPath (w_home w) slug) w = true →
  opens slug w = true.
Proof. unfold opens, dir_ready. cbn zeta. by intros -> ->. Qed.

(** A [snapshot] that returned had a store that can be opened. *)
Lemma snapshot_ok_opens slug sourceFilePath w res w1 :
  snapshot slug sourceFilePath w = (Ok res, w1) → opens slug w = true.
Proof.
  intros Hsnap. destruct (opens slug w) eqn:Hopen; [done|].
  destruct (snapshot_fails slug sourceFilePath w Hopen) as (e & w' & He & _).
  congruence.
Qed.

(** After a [snapshot] that did not throw, the store is clean. *)
Lemma snapshot_ok_clean slug sourceFilePath w c res w1 :
  w_fs w !! sourceFilePath = Some c →
  snapshot slug sourceFilePath w = (Ok res, w1) →
  clean slug sourceFilePath c w1 ∧ w_home w1 = w_home w.
Proof.
  intros Hsrc Hsnap. pose proof (snapshot_ok_opens _ _ _ _ _ Hsnap) as Hopen.
  pose proof (snapshot_cases slug sourceFilePath w Hopen) as H.
  pose proof (with_git_opens slug w Hopen) as [Hdir Hok]%andb_true_iff.
  unfold dir_ready in Hdir. cbn zeta in Hdir. rewrite with_git_home in Hdir.
  assert (Fs.is_dir (getRepoPath (w_home w) slug) (with_git slug w) = true) as Hdir'.
  { by rewrite with_git_dirs, with_dir_is_dir. }
  clear Hdir.
  cbn zeta in H.
  destruct (Fs.is_dir sourceFilePath _) eqn:Hsd; [congruence|].
  rewrite Hsrc in H.
  destruct (Fs.is_dir (Path.join _ _) _) eqn:Hdd; [congruence|].
  destruct (decide (_ ∈ w_readonly w)) as [|Hro]; [congruence|].
  destruct (w_repos (with_git slug w) !! _) as [r|] eqn:Hr; [|done].
  destruct (r_damaged r) eqn:Hd; [congruence|].
  destruct (Git.is_option _) eqn:Hopt; [congruence|].
  destruct (decide (Git.staged _ = [])) as [Hs|Hs];
    rewrite Hsnap in H; injection H as -> ->; unfold clean;
    cbn [set_repos set_fs w_home w_readonly w_repos w_git_ok];
    rewrite with_git_home, with_git_readonly, lookup_insert_eq;
    (split; [|done]); do 6 (split; [done|]); eexists; (split; [done|]).
  - apply staged_nil_iff in Hs. cbn [Git.set_index r_damaged r_commits r_index] in *.
    split; [done|]. split; [done|]. by rewrite lookup_insert_eq.
  - cbn [Git.set_commits Git.set_index r_damaged r_commits r_index
           Git.head_tree snapshot_commit c_tree].
    split; [done|]. split; [done|]. by rewrite lookup_insert_eq.
Qed.

(** On a clean store, [snapshot] of the same text records nothing. *)
Lemma snapshot_clean_null slug sourceFilePath w c :
  w_fs w !! sourceFilePath = Some c →
  clean slug sourceFilePath c w →
  ∃ w', snapshot slug sourceFilePath w = (Ok None, w') ∧
        Watcher.history slug w' = Watcher.history slug w ∧
        w_repos w' = w_repos w.
Proof.
  intros Hsrc (Hok & Hdir & Hsd & Hdd & Hopt & Hro & r & Hr & Hd & Hhead & Hidx).
  pose proof (snapshot_cases slug sourceFilePath w (is_dir_opens slug w Hok Hdir)) as H.
  cbn zeta in H.
  rewrite (with_git_id slug w r Hdir Hr), Hsd, Hsrc, Hdd in H.
  rewrite decide_False in H by done.
  rewrite Hr, Hd, Hopt in H.
  assert (Git.set_index (<[Path.basename sourceFilePath:=c]> (r_index r)) r = r) as Hr1.
  { rewrite insert_id by done. by destruct r. }
  rewrite Hr1 in H. rewrite decide_True in H by by apply staged_nil_iff.
  eexists. split; [exact H|].
  rewrite insert_id by done. split; [|done].
  unfold Watcher.history. done.
Qed.

(** One [snapshot] leaves the history as it was or puts one new commit
    in front of it. *)
Lemma snapshot_history_step slug sourceFilePath w :
  Watcher.history slug (snapshot slug sourceFilePath w).2 = Watcher.history slug w ∨
  ∃ c, Watcher.history slug (snapshot slug sourceFilePath w).2
       = c :: Watcher.history slug w.
Proof.
  destruct (opens slug w) eqn:Hopen.
  2:{ destruct (snapshot_fails slug sourceFilePath w Hopen) as (e & w' & -> & Hr & _ & Hh).
      left. unfold Watcher.history. cbn [snd]. by rewrite Hh, Hr. }
  pose proof (snapshot_cases slug sourceFilePath w Hopen) as H. cbn zeta in H.
  pose proof (with_git_history slug w) as Hh.
  destruct (Fs.is_dir sourceFilePath _); [rewrite H; by left|].
  destruct (w_fs w !! sourceFilePath) as [c|]; [|rewrite H; by left].
  destruct (Fs.is_dir (Path.join _ _) _); [rewrite H; by left|].
  destruct (decide (_ ∈ w_readonly w)); [rewrite H; by left|].
  destruct (w_repos (with_git slug w) !! _) as [r|] eqn:Hr; [|done].
  assert (Watcher.history slug w = r_commits r) as Hhr.
  { rewrite <- Hh. apply history_lookup. by rewrite with_git_home. }
  destruct (r_damaged r); [rewrite H; by left|].
  destruct (Git.is_option _).
  { rewrite H, Hhr. left. unfold Watcher.history.
    cbn [snd set_repos set_fs w_home w_repos].
    by rewrite with_git_home, lookup_insert_eq. }
  destruct (decide (Git.staged _ = [])); rewrite H, Hhr; [left|right; eexists];
    unfold Watcher.history; cbn [snd set_repos set_fs w_home w_repos];
    by rewrite with_git_home, lookup_insert_eq.
Qed.

(** C2: a [snapshot] of an existing file that did not throw, followed by
    a [snapshot] of the same file with the same bytes (whatever else
    happened to the files in between, the store, the directories and
    [git] left alone), returns [null] the second time and leaves the
    history as the first call left it; and any one call leaves the
    history as it was or puts one new commit in front of it. *)
Theorem snapshot_twice_unchanged slug sourceFilePath w :
  (Watcher.history slug (snapshot slug sourceFilePath w).2 = Watcher.history slug w ∨
   ∃ c, Watcher.history slug (snapshot slug sourceFilePath w).2
        = c :: Watcher.history slug w) ∧
  (∀ bytes res w1 w2,
     w_fs w !! sourceFilePath = Some bytes →
     snapshot slug sourceFilePath w = (Ok res, w1) →
     w_home w2 = w_home w1 → w_readonly w2 = w_readonly w1 →
     w_repos w2 = w_repos w1 →
     w_dirs w2 = w_dirs w1 → w_git_ok w2 = w_git_ok w1 →
     w_fs w2 !! sourceFilePath = Some bytes →
     ∃ w3, snapshot slug sourceFilePath w2 = (Ok None, w3) ∧
           Watcher.history slug w3 = Watcher.history slug w1).
Proof.
  split; [apply snapshot_history_step|].
  intros bytes res w1 w2 Hsrc Hsnap Hhome Hro Hrepos Hdirs Hgit Hsrc2.
  destruct (snapshot_ok_clean _ _ _ _ _ _ Hsrc Hsnap) as [Hclean _].
  assert (clean slug sourceFilePath bytes w2) as Hclean2.
  { unfold clean, Fs.is_dir in *. by rewrite Hhome, Hro, Hrepos, Hdirs, Hgit. }
  destruct (snapshot_clean_null _ _ _ _ Hsrc2 Hclean2) as (w3 & H3 & Hh3 & _).
  exists w3. split; [done|]. rewrite Hh3.
  unfold Watcher.history. by rewrite Hhome, Hrepos.
Qed.

End Store.

(** ** The change watcher *)

Section Watch.

Import Config Tracker Watcher.

Lemma snapshot_hash_nonempty slug sourceFilePath w h w' :
  snapshot slug sourceFilePath w = (Ok (Some h), w') → h ≠ "".
Proof.
  intros Hsnap.
  pose proof (snapshot_cases slug sourceFilePath w (snapshot_ok_opens _ _ _ _ _ Hsnap)) as H.
  cbn zeta in H. rewrite Hsnap in H.
  destruct (Fs.is_dir sourceFilePath _); [congruence|].
  destruct (w_fs w !! sourceFilePath); [|congruence].
  destruct (Fs.is_dir (Path.join _ _) _); [congruence|].
  destruct (decide (_ ∈ w_readonly w)); [congruence|].
  destruct (w_repos (with_git slug w) !! _) as [r|]; [|done].
  destruct (r_damaged r); [congruence|].
  destruct (Git.is_option _); [congruence|].
  destruct (decide (Git.staged _ = [])); [congruence|].
  injection H as -> _. apply mk_hash_nonempty.
Qed.

(** C5: when the debounce timer of a watcher settles and a callback is
    registered, the callback is called, with the slug and the file name
    of the watcher, exactly when [snapshot] returned a revision; when
    it returned [null] (or threw) nothing is called. *)
Theorem settle_notifies_iff_commit w st fw cb :
  fswatchers st !! w = Some fw →
  onSnapshotCallback st = Some cb →
  let out := snapshot (fw_slug fw) (fw_filePath fw) (env st) in
  env (on_settle w st) = out.2 ∧
  ((∃ h, out.1 = Ok (Some h)) ∧
   notified (on_settle w st) = notified st ++ [(cb, fw_slug fw, fw_fileName fw)]
   ∨
   (∀ h, out.1 ≠ Ok (Some h)) ∧ notified (on_settle w st) = notified st).
Proof.
  intros Hfw Hcb out. unfold on_settle. rewrite Hfw. subst out.
  destruct (snapshot _ _ _) as [o w'] eqn:Hsnap. cbn [fst snd].
  cbn [set_env onSnapshotCallback]. rewrite Hcb.
  destruct o as [[h|]|e]; cbn.
  - rewrite decide_False by by eapply snapshot_hash_nonempty.
    split; [done|]. left. eauto.
  - split; [done|]. by right.
  - split; [done|]. by right.
Qed.

(** Without a registered callback nothing is called. *)
Lemma settle_without_callback w st :
  onSnapshotCallback st = None →
  notified (on_settle w st) = notified st.
Proof.
  intros Hcb. unfold on_settle. destruct (fswatchers st !! w); [|done].
  destruct (snapshot _ _ _) as [o w']. cbn [set_env onSnapshotCallback].
  rewrite Hcb. by destruct o as [[?|]|?].
Qed.

(** *** One watch per key (C9) *)

Lemma watch_inv_init w0 : watch_inv (init_state w0).
Proof.
  unfold watch_inv, init_state. cbn [watchers fswatchers]. split.
  - intros key e H. by rewrite lookup_empty in H.
  - intros w key (fw & H & _). by rewrite lookup_nil in H.
Qed.

Lemma start_one_inv slug dir st fileName :
  watch_inv st → watch_inv (start_one slug dir st fileName).
Proof.
  intros [H1 H2]. unfold start_one. case_decide as Hk; [by split|].
  assert (watchers st !! key_of slug fileName = None) as Hnone.
  { destruct (watchers st !! key_of slug fileName) eqn:E; [|done].
    exfalso. apply Hk. eauto. }
  unfold watch_inv. cbn [set_watchers set_fswatchers watchers fswatchers].
  split.
  - intros key e. rewrite lookup_insert. case_decide as Hkey.
    + intros [= <-]. subst key. cbn [watcher].
      eexists. split; [apply list_lookup_middle; done|]. done.
    + intros He. destruct (H1 key e He) as (fw & Hfw & Hc & Hkw).
      exists fw. split; [|done]. by apply lookup_app_l_Some.
  - intros w key (fw & Hfw & Hc & Hkw).
    apply lookup_app_Some in Hfw as [Hfw|[Hlen Hfw]].
    + destruct (H2 w key) as (e & He & Hw); [by exists fw|].
      exists e. split; [|done]. rewrite lookup_insert_ne; [done|].
      intros <-. congruence.
    + apply list_lookup_singleton_Some in Hfw as [Hz <-].
      unfold fw_key in Hkw. cbn in Hkw. subst key.
      eexists. split; [apply lookup_insert_eq|]. cbn [watcher]. lia.
Qed.

Lemma startWatching_inv project st :
  watch_inv st → watch_inv (startWatching project st).
Proof.
  unfold startWatching. revert st.
  induction (p_files project) as [|f fs IH]; intros st Hinv; [done|].
  cbn [foldl]. apply IH. by apply start_one_inv.
Qed.

(** Replacing a watcher by one that differs in its timer only. *)
Lemma active_in_retimed l w fw t w' key :
  l !! w = Some fw →
  active_in (<[w := FSWatcher (fw_slug fw) (fw_fileName fw) (fw_filePath fw)
                             t (fw_closed fw)]> l) w' key
  ↔ active_in l w' key.
Proof.
  intros Hfw. unfold active_in.
  destruct (decide (w = w')) as [<-|Hne].
  - rewrite list_lookup_insert_eq by by eapply lookup_lt_Some.
    split.
    + intros (fw' & [= <-] & Hc & Hk). by exists fw.
    + intros (fw' & Hfw' & Hc & Hk). rewrite Hfw in Hfw'. injection Hfw' as <-.
      eexists. split; [done|]. done.
  - by rewrite list_lookup_insert_ne.
Qed.

Lemma table_inv_retimed m l w fw t :
  l !! w = Some fw →
  table_inv m l →
  table_inv m (<[w := FSWatcher (fw_slug fw) (fw_fileName fw) (fw_filePath fw)
                               t (fw_closed fw)]> l).
Proof.
  intros Hfw [H1 H2]. split.
  - intros key e He. rewrite active_in_retimed by done. by apply H1.
  - intros w' key. rewrite active_in_retimed by done. apply H2.
Qed.

Lemma on_change_inv w st : watch_inv st → watch_inv (on_change w st).
Proof.
  intros Hinv. unfold on_change.
  destruct (fswatchers st !! w) as [fw|] eqn:Hfw; [|done].
  unfold watch_inv. cbn [set_fswatchers set_timers watchers fswatchers].
  assert (∀ st', watchers st' = watchers st → fswatchers st' = fswatchers st →
                 table_inv (watchers st')
                   (<[w := FSWatcher (fw_slug fw) (fw_fileName fw) (fw_filePath fw)
                                     (Some (next_timer st')) (fw_closed fw)]>
                      (fswatchers st'))) as Hgen.
  { intros st' -> ->. by apply table_inv_retimed. }
  destruct (fw_debounceTimer fw); by apply Hgen.
Qed.

Lemma on_settle_tables w st :
  watchers (on_settle w st) = watchers st ∧
  fswatchers (on_settle w st) = fswatchers st ∧
  timers (on_settle w st) = timers st.
Proof.
  unfold on_settle. destruct (fswatchers st !! w) as [fw|]; [|done].
  destruct (snapshot _ _ _) as [o w'].
  destruct o as [[h|]|e]; cbn [set_env onSnapshotCallback]; [|done..].
  destruct (onSnapshotCallback st); [|done]. by case_decide.
Qed.

Lemma fire_tables t st :
  watchers (fire t st) = watchers st ∧
  fswatchers (fire t st) = fswatchers st.
Proof.
  unfold fire. case_decide; [|done].
  destruct (on_settle_tables (t_owner t)
    (set_env (set_now (N.max (w_now (env (clearTimeout (t_id t) st))) (t_due t))
                      (env (clearTimeout (t_id t) st)))
             (clearTimeout (t_id t) st))) as (-> & -> & _).
  done.
Qed.

Lemma elapse_tables d st :
  watchers (elapse d st) = watchers st ∧
  fswatchers (elapse d st) = fswatchers st.
Proof.
  unfold elapse. cbn [set_env watchers fswatchers].
  generalize (filter (λ t, (t_due t ≤ w_now (env st) + d)%N) (timers st)).
  intros due. revert st.
  induction due as [|t due IH]; intros st; [done|].
  cbn [foldl]. destruct (IH (fire t st)) as [-> ->]. apply fire_tables.
Qed.

Lemma close_tables w st :
  watchers (close w st) = watchers st.
Proof. unfold close. by destruct (fswatchers st !! w). Qed.

Lemma close_active w st w' key :
  active (close w st) w' key ↔ active st w' key ∧ w' ≠ w.
Proof.
  unfold active, active_in, close.
  destruct (fswatchers st !! w) as [fw|] eqn:Hfw.
  - cbn [set_fswatchers fswatchers].
    destruct (decide (w' = w)) as [->|Hne].
    + rewrite list_lookup_insert_eq by by eapply lookup_lt_Some.
      split; [|by intros [_ ?]]. by intros (fw' & [= <-] & Hc & _).
    + rewrite list_lookup_insert_ne by done. split; [by intros ?|by intros [? _]].
  - split; [|by intros [? _]]. intros (fw' & Hfw' & Hc). split; [by exists fw'|].
    intros ->. congruence.
Qed.

Lemma active_in_key l w key1 key2 :
  active_in l w key1 → active_in l w key2 → key1 = key2.
Proof. intros (fw1 & H1 & _ & <-) (fw2 & H2 & _ & <-). congruence. Qed.

Lemma stop_one_inv slug fileName st k e :
  watch_inv st → watchers st !! k = Some e →
  watch_inv (stop_one slug fileName st (k, e)).
Proof.
  intros [H1 H2] Hk. unfold stop_one. cbn [fst snd].
  destruct (stop_matches slug fileName k e); [|by split].
  unfold watch_inv. cbn [set_watchers watchers fswatchers].
  rewrite close_tables. split.
  - intros key e' [Hne He']%lookup_delete_Some.
    apply close_active. split; [by apply H1|].
    intros Heq. apply Hne.
    eapply active_in_key; [by apply H1|]. rewrite <- Heq. by apply H1.
  - intros w key [Hact Hne]%close_active.
    destruct (H2 w key Hact) as (e' & He' & Hw).
    exists e'. split; [|done]. apply lookup_delete_Some. split; [|done].
    intros <-. congruence.
Qed.

Lemma stop_one_watchers slug fileName st k e k' :
  k' ≠ k →
  watchers (stop_one slug fileName st (k, e)) !! k' = watchers st !! k'.
Proof.
  intros Hne. unfold stop_one. cbn [fst snd].
  destruct (stop_matches slug fileName k e); [|done].
  cbn [set_watchers watchers]. rewrite close_tables. by apply lookup_delete_ne.
Qed.

Lemma stop_loop_inv slug fileName (l : list (string * WatcherEntry)) st :
  NoDup l.*1 →
  (∀ k e, (k, e) ∈ l → watchers st !! k = Some e) →
  watch_inv st →
  watch_inv (foldl (stop_one slug fileName) st l).
Proof.
  revert st. induction l as [|[k e] l IH]; intros st Hnd Hl Hinv; [done|].
  rewrite fmap_cons in Hnd. apply NoDup_cons in Hnd as [Hk Hnd].
  cbn [foldl]. apply IH; [done| |].
  - intros k' e' Hin. rewrite stop_one_watchers.
    + apply Hl. apply elem_of_cons. by right.
    + intros ->. apply Hk. apply list_elem_of_fmap. by exists (k, e').
  - apply stop_one_inv; [done|]. apply Hl. apply elem_of_cons. by left.
Qed.

Lemma stopWatching_inv slug fileName st :
  watch_inv st → watch_inv (stopWatching slug fileName st).
Proof.
  intros Hinv. unfold stopWatching. apply stop_loop_inv; [|by intros k e ?%elem_of_map_to_list|done].
  apply NoDup_fst_map_to_list.
Qed.

Lemma close_loop_tables (l : list (string * WatcherEntry)) st :
  watchers (foldl (λ st ke, close (watcher ke.2) st) st l) = watchers st.
Proof.
  revert st. induction l as [|ke l IH]; intros st; [done|].
  cbn [foldl]. rewrite IH. apply close_tables.
Qed.

Lemma close_loop_active (l : list (string * WatcherEntry)) st w key :
  active (foldl (λ st ke, close (watcher ke.2) st) st l) w key ↔
  active st w key ∧ ∀ ke, ke ∈ l → w ≠ watcher ke.2.
Proof.
  revert st. induction l as [|ke l IH]; intros st; cbn [foldl].
  - split; [|by intros [? _]]. intros H. split; [done|]. by intros ke ?%elem_of_nil.
  - rewrite IH, close_active. split.
    + intros [[Hact Hne] Hl]. split; [done|].
      intros ke' [->|?]%elem_of_cons; auto.
    + intros [Hact Hl]. split; [split; [done|]|].
      * apply Hl. apply elem_of_cons. by left.
      * intros ke' ?. apply Hl. apply elem_of_cons. by right.
Qed.

Lemma stopAll_inv st : watch_inv st → watch_inv (stopAll st).
Proof.
  intros [H1 H2]. unfold stopAll, watch_inv.
  cbn [set_watchers watchers fswatchers]. split.
  - intros key e H. by rewrite lookup_empty in H.
  - intros w key [Hact Hl]%close_loop_active. exfalso.
    destruct (H2 w key Hact) as (e & He & Hw).
    apply (Hl (key, e)); [by apply elem_of_map_to_list | done].
Qed.

Lemma step_inv st e : watch_inv st → watch_inv (step st e).
Proof.
  intros Hinv. destruct e; cbn [step]; try done.
  - destruct (fswatchers st !! w) as [fw|]; [|done].
    destruct (fw_closed fw); [done|]. by apply on_change_inv.
  - unfold watch_inv. by destruct (elapse_tables d st) as [-> ->].
  - by apply startWatching_inv.
  - by apply stopWatching_inv.
  - by apply stopAll_inv.
Qed.

Lemma run_inv st es : watch_inv st → watch_inv (run st es).
Proof.
  unfold run. revert st. induction es as [|e es IH]; intros st Hinv; [done|].
  cbn [foldl]. apply IH. by apply step_inv.
Qed.

Lemma start_one_present slug dir st fileName :
  is_Some (watchers st !! key_of slug fileName) →
  start_one slug dir st fileName = st.
Proof. intros H. unfold start_one. by rewrite decide_True. Qed.

Lemma start_one_keeps slug dir st fileName key e :
  watchers st !! key = Some e →
  watchers (start_one slug dir st fileName) !! key = Some e.
Proof.
  intros He. unfold start_one. case_decide as Hk; [done|].
  cbn [set_watchers set_fswatchers watchers]. rewrite lookup_insert_ne; [done|].
  intros <-. apply Hk. eauto.
Qed.

Lemma startWatching_keeps project st key e :
  watchers st !! key = Some e →
  watchers (startWatching project st) !! key = Some e.
Proof.
  unfold startWatching. revert st.
  induction (p_files project) as [|f fs IH]; intros st He; [done|].
  cbn [foldl]. apply IH. by apply start_one_keeps.
Qed.

(** C9: in every state that the watcher can reach, a key has at most
    one active watch; [startWatching] for keys that are all in the table
    changes nothing, it never replaces an entry of the table, and the
    active watch of a key that is in the table is the same one after
    it. *)
Theorem one_watch_per_key w0 (es : list event) :
  let st := run (init_state w0) es in
  (∀ key w1 w2, active st w1 key → active st w2 key → w1 = w2) ∧
  (∀ project,
     (∀ f, f ∈ p_files project → is_Some (watchers st !! key_of (p_slug project) f)) →
     startWatching project st = st) ∧
  (∀ project key e,
     watchers st !! key = Some e →
     watchers (startWatching project st) !! key = Some e) ∧
  (∀ project key w,
     is_Some (watchers st !! key) →
     active (startWatching project st) w key ↔ active st w key).
Proof.
  intros st.
  assert (watch_inv st) as Hinv by apply run_inv, watch_inv_init.
  pose proof Hinv as [H1 H2].
  split; [|split; [|split]].
  - intros key w1 w2 Ha1 Ha2.
    destruct (H2 w1 key Ha1) as (e1 & He1 & <-).
    destruct (H2 w2 key Ha2) as (e2 & He2 & <-). congruence.
  - intros project. unfold startWatching. generalize st.
    induction (p_files project) as [|f fs IH]; intros st' Hall; [done|].
    cbn [foldl]. rewrite start_one_present.
    + apply IH. intros f' Hf'. apply Hall. apply elem_of_cons. by right.
    + apply Hall. apply elem_of_cons. by left.
  - intros project key e. apply startWatching_keeps.
  - intros project key w [e He].
    pose proof (startWatching_keeps project st key e He) as He'.
    destruct (startWatching_inv project st Hinv) as [H1' H2'].
    split.
    + intros Ha. destruct (H2' w key Ha) as (e' & He'' & <-).
      rewrite He' in He''. injection He'' as <-. by apply H1.
    + intros Ha. destruct (H2 w key Ha) as (e' & He'' & <-).
      rewrite He in He''. injection He'' as <-. by apply H1'.
Qed.

(** *** Stopping a watch with its timer armed (C1) *)

(** [stopWatching] and [stopAll] do not touch the armed timers. *)
Lemma close_timers w st : timers (close w st) = timers st.
Proof. unfold close. by destruct (fswatchers st !! w). Qed.

Lemma stopWatching_timers slug fileName st :
  timers (stopWatching slug fileName st) = timers st.
Proof.
  unfold stopWatching. generalize (map_to_list (watchers st)). intros l.
  revert st. induction l as [|[k e] l IH]; intros st; [done|].
  cbn [foldl]. rewrite IH. unfold stop_one. cbn [fst snd].
  destruct (stop_matches slug fileName k e); [|done].
  cbn [set_watchers timers]. apply close_timers.
Qed.

End Watch.

(** ** Differences between revisions (C4) *)

Section History.

Import Config Tracker.

(** *** Strings *)

Lemma app_cons a (s t : string) : String a s +:+ t = String a (s +:+ t).
Proof. done. Qed.

Lemma rev_app_app (s1 s2 acc : string) :
  String.rev_app (s1 +:+ s2) acc = String.rev_app s2 (String.rev_app s1 acc).
Proof.
  revert acc. induction s1 as [|a s1 IH]; intros acc; [done|].
  rewrite app_cons. cbn [String.rev_app]. apply IH.
Qed.

Lemma all_chars_rev_app P (s acc : string) :
  all_chars P s → all_chars P acc → all_chars P (String.rev_app s acc).
Proof.
  revert acc. induction s as [|a s IH]; intros acc Hs Hacc; [done|].
  destruct Hs as [Ha Hs]. cbn [String.rev_app]. apply IH; [done|]. by split.
Qed.

Lemma all_chars_app P (s t : string) :
  all_chars P s → all_chars P t → all_chars P (s +:+ t).
Proof.
  induction s as [|a s IH]; intros Hs Ht; [done|].
  destruct Hs as [Ha Hs]. rewrite app_cons. split; [done|]. by apply IH.
Qed.

Lemma rev_app_rev_app (s acc acc' : string) :
  String.rev_app (String.rev_app s acc) acc' = String.rev_app acc (s +:+ acc').
Proof.
  revert acc acc'. induction s as [|a s IH]; intros acc acc'; [done|].
  cbn [String.rev_app]. by rewrite IH.
Qed.

Lemma app_empty_r (s : string) : s +:+ "" = s.
Proof. induction s as [|a s IH]; [done|]. rewrite app_cons. by f_equal. Qed.

Lemma strip_caret_snoc (h : string) : Git.strip_caret (h +:+ "^") = Some h.
Proof.
  unfold Git.strip_caret, String.rev. rewrite rev_app_app. cbn [String.rev_app].
  rewrite rev_app_rev_app. cbn [String.rev_app]. by rewrite app_empty_r.
Qed.

Lemma strip_caret_none (s : string) :
  all_chars (λ a, a ≠ "^"%char) s → Git.strip_caret s = None.
Proof.
  intros Hs. unfold Git.strip_caret, String.rev.
  pose proof (all_chars_rev_app _ s "" Hs I) as H.
  destruct (String.rev_app s "") as [|a r]; [done|].
  destruct H as [Ha _]. destruct (decide (a = "^"%char)); [done|].
  destruct a as [[] [] [] [] [] [] [] []]; done.
Qed.

(** *** The names of commits *)

Lemma pretty_N_char_decimal x : is_decimal (pretty_N_char x).
Proof. unfold pretty_N_char. by repeat case_match. Qed.

Lemma pretty_N_go_decimal x s :
  all_chars is_decimal s → all_chars is_decimal (pretty_N_go x s).
Proof.
  revert s. induction (N.lt_wf_0 x) as [x _ IH]; intros s Hs.
  destruct (decide (x = 0)%N) as [->|Hx].
  - by rewrite pretty_N_go_0.
  - rewrite pretty_N_go_step by lia. apply IH.
    + apply N.div_lt; lia.
    + split; [apply pretty_N_char_decimal | done].
Qed.

Lemma pretty_N_decimal (x : N) : all_chars is_decimal (pretty x).
Proof.
  unfold pretty, pretty_N. case_decide; [by split|].
  by apply pretty_N_go_decimal.
Qed.

Lemma all_chars_impl (P Q : ascii → Prop) s :
  (∀ a, P a → Q a) → all_chars P s → all_chars Q s.
Proof. intros HPQ. induction s as [|a s IH]; [done|]. intros [? ?]. split; auto. Qed.

Lemma mk_hash_plain n : plain_hash (Git.mk_hash n).
Proof.
  split; [done|]. split; [done|]. split; [|done].
  apply strip_caret_none. split; [done|].
  eapply all_chars_impl; [|apply pretty_N_decimal].
  intros a Ha ->. done.
Qed.

Lemma mk_hash_inj : Inj (=) (=) Git.mk_hash.
Proof.
  intros a b H. unfold Git.mk_hash in H.
  apply (inj (String.app "c")) in H. apply (inj pretty) in H. lia.
Qed.

Lemma numbered_bound cs h :
  numbered cs → h ∈ c_hash <$> cs → ∃ n, (n < length cs)%nat ∧ h = Git.mk_hash n.
Proof.
  induction cs as [|c cs IH]; [by intros _ ?%elem_of_nil|].
  intros [Hc Hcs]. rewrite fmap_cons. intros [->|Hin]%elem_of_cons.
  - exists (length cs). split; [cbn; lia | done].
  - destruct (IH Hcs Hin) as (n & Hn & ->). exists n. split; [cbn; lia | done].
Qed.

Lemma numbered_hashes_ok cs : numbered cs → hashes_ok cs.
Proof.
  induction cs as [|c cs IH]; [intros _; split; [apply NoDup_nil_2 | apply Forall_nil_2]|].
  intros [Hc Hcs]. destruct (IH Hcs) as [Hnd Hpl].
  split; rewrite fmap_cons.
  - apply NoDup_cons. split; [|done]. intros Hin.
    destruct (numbered_bound cs _ Hcs Hin) as (n & Hn & Heq).
    rewrite Hc in Heq. apply mk_hash_inj in Heq. lia.
  - apply Forall_cons. split; [|done]. rewrite Hc. apply mk_hash_plain.
Qed.

(** *** Commits and the history of a file *)

Lemma find_commit_split newer c older :
  NoDup (c_hash <$> newer ++ c :: older) →
  Git.find_commit (newer ++ c :: older) (c_hash c) = Some (c, older).
Proof.
  induction newer as [|n newer IH]; intros Hnd.
  - cbn. by rewrite decide_True.
  - rewrite <- app_comm_cons, fmap_cons in Hnd.
    apply NoDup_cons in Hnd as [Hn Hnd].
    rewrite <- app_comm_cons. cbn [Git.find_commit].
    rewrite decide_False; [by apply IH|].
    intros Heq. apply Hn. rewrite Heq. apply list_elem_of_fmap_2.
    apply elem_of_app. right. apply elem_of_cons. by left.
Qed.

Lemma diff_trees_path (t1 t2 : gmap string string) f :
  Diff.diff_trees t1 t2 (Some f) =
  if decide (t1 !! f = t2 !! f) then []
  else [Diff.FileChange f (t1 !! f) (t2 !! f)].
Proof. unfold Diff.diff_trees. cbn. by case_decide. Qed.

Lemma log_entries_cons c older f :
  Git.log_entries (c :: older) (Some f) =
  if decide (Git.head_tree older !! f = c_tree c !! f)
  then Git.log_entries older (Some f)
  else entry_of c (Git.head_tree older) f :: Git.log_entries older (Some f).
Proof. cbn [Git.log_entries]. rewrite diff_trees_path. by case_decide. Qed.

(** *** The arguments of [git diff] *)

Lemma caret_not_dashes (h : string) : Git.is_option h = false → h +:+ "^" ≠ "--".
Proof.
  destruct h as [|a [|b h]]; [done| |].
  - intros Ho. by intros [= ->].
  - intros _. rewrite !app_cons. intros [= _ _ H]. by destruct h.
Qed.

Lemma is_option_caret (h : string) :
  Git.is_option h = false → Git.is_option (h +:+ "^") = false.
Proof. by destruct h. Qed.

Lemma not_option_not_dashes (h : string) : Git.is_option h = false → h ≠ "--".
Proof. by intros Ho ->. Qed.

Lemma diff_args_revs h fo :
  plain_hash h → Git.rev_args (diff_args h fo) = [h +:+ "^"; h].
Proof.
  intros (_ & _ & _ & Ho).
  pose proof (not_option_not_dashes h Ho) as Hh.
  pose proof (caret_not_dashes h Ho) as Hc.
  unfold diff_args. cbn [app Git.rev_args].
  rewrite is_option_caret, Ho by done.
  rewrite !decide_False by done.
  by destruct (truthy fo).
Qed.

Lemma diff_args_parse h f :
  plain_hash h → f ≠ "" →
  Git.rev_args (diff_args h (Some f)) = [h +:+ "^"; h] ∧
  Git.path_arg (diff_args h (Some f)) = Some f.
Proof.
  intros Hplain Hf. split; [by apply diff_args_revs|].
  destruct Hplain as (_ & _ & _ & Ho).
  pose proof (not_option_not_dashes h Ho) as Hh.
  pose proof (caret_not_dashes h Ho) as Hc.
  unfold diff_args, truthy. destruct f as [|a f]; [done|].
  cbn [app Git.path_arg]. by rewrite !decide_False, decide_True by done.
Qed.

Lemma rev_tree_hash cs h :
  plain_hash h →
  Git.rev_tree cs h =
  match Git.find_commit cs h with Some (c, _) => Some (c_tree c) | None => None end.
Proof.
  intros (He & _ & Hs & _). unfold Git.rev_tree.
  rewrite decide_False by done. by rewrite Hs.
Qed.

Lemma rev_tree_parent cs h :
  Git.rev_tree cs (h +:+ "^") =
  match Git.find_commit cs h with
  | Some (_, p :: _) => Some (c_tree p)
  | _ => None
  end.
Proof.
  unfold Git.rev_tree. rewrite decide_False.
  - by rewrite strip_caret_snoc.
  - intros Heq. pose proof (strip_caret_snoc h) as Hs. rewrite Heq in Hs. done.
Qed.

Lemma find_commit_hash cs h c older :
  Git.find_commit cs h = Some (c, older) → c_hash c = h ∧ c ∈ cs.
Proof.
  induction cs as [|x cs IH]; [done|]. cbn [Git.find_commit].
  case_decide as Hx.
  - intros [= -> _]. split; [done|]. apply elem_of_cons. by left.
  - intros [? ?]%IH. split; [done|]. apply elem_of_cons. by right.
Qed.

(** The constant that [getDiff] has for the empty tree names nothing in
    a repository whose commits have proper names. *)
Lemma rev_tree_constant cs :
  hashes_ok cs → Git.rev_tree cs EMPTY_TREE = None.
Proof.
  intros [_ Hpl]. unfold Git.rev_tree.
  rewrite decide_False by done.
  replace (Git.strip_caret EMPTY_TREE) with (@None string) by done.
  destruct (Git.find_commit cs EMPTY_TREE) as [[c older]|] eqn:E; [|done].
  apply find_commit_hash in E as [Hh Hin].
  rewrite Forall_forall in Hpl.
  destruct (Hpl (c_hash c)) as (_ & Hne & _); [by apply list_elem_of_fmap_2|].
  done.
Qed.

(** *** [getLog] and [getDiff] on a usable repository *)

(** Where [git] finds no copies, [--follow] changes nothing. *)
Lemma log_follow_no_copies source cs f :
  (∀ t1 t2 p, source t1 t2 p = None) →
  Git.log_follow source cs f = Git.log_entries cs (Some f).
Proof.
  intros Hsrc. induction cs as [|c cs IH]; [done|].
  rewrite log_entries_cons. cbn [Git.log_follow]. rewrite Hsrc.
  case_decide; [done|]. rewrite IH. unfold entry_of. by destruct (_ !! _).
Qed.

Lemma getDiff_eval slug h fo w r :
  store slug w r →
  getDiff slug h fo w =
  (Ok match Git.diff_of (r_commits r) (diff_args h fo) with
      | Ok d => if decide (d = "") then "(no diff available)" else d
      | Throw _ =>
          match Git.diff_of (r_commits r) [EMPTY_TREE; h] with
          | Ok d => if decide (d = "") then "(initial snapshot)" else d
          | Throw _ => "(no diff available)"
          end
      end, w).
Proof.
  intros (Hok & Hdir & Hr & Hd).
  unfold getDiff, mbind, M_bind, bind, try_catch, mret, M_ret, ret.
  rewrite getGit_eq, (with_git_id slug w r Hdir Hr) by by apply is_dir_opens.
  unfold Git.diff, Git.read_repo. rewrite Hok, Hr, Hd. cbn [negb].
  destruct (Git.diff_of (r_commits r) (diff_args h fo)); [done|].
  rewrite Hok, Hr, Hd. cbn [negb].
  by destruct (Git.diff_of (r_commits r) [EMPTY_TREE; h]).
Qed.

Lemma hashes_ok_plain cs newer c older :
  hashes_ok cs → cs = newer ++ c :: older → plain_hash (c_hash c).
Proof.
  intros [_ Hpl] ->. rewrite Forall_forall in Hpl. apply Hpl.
  apply list_elem_of_fmap_2, elem_of_app. right. apply elem_of_cons. by left.
Qed.

(** With the identifier of the empty tree on the left [git diff]
    succeeds. *)
Lemma diff_of_empty_tree cs newer c older :
  hashes_ok cs → cs = newer ++ c :: older →
  ∃ d, Git.diff_of cs [Git.EMPTY_TREE_ID; c_hash c] = Ok d.
Proof.
  intros Hok Hcs. eexists.
  pose proof (hashes_ok_plain _ _ _ _ Hok Hcs) as Hplain.
  pose proof Hplain as (_ & _ & _ & Ho).
  pose proof (not_option_not_dashes _ Ho) as Hh.
  unfold Git.diff_of. cbn [Git.rev_args Git.path_arg]. rewrite Ho.
  replace (Git.is_option Git.EMPTY_TREE_ID) with false by done.
  rewrite (decide_False (P := Git.EMPTY_TREE_ID = "--")) by done.
  rewrite !(decide_False (P := c_hash c = "--")) by done.
  rewrite (rev_tree_hash _ (c_hash c)) by done.
  rewrite Hcs, find_commit_split by (rewrite <- Hcs; apply Hok).
  unfold Git.rev_tree. by rewrite decide_True.
Qed.

(** C4: [getDiff] on the first commit of a repository, with or without a
    file name.  The commit has no parent, so [git diff hash^ hash] fails.
    The constant that [getDiff] then takes for the empty tree is not the
    identifier that [git] has for it and names nothing in the
    repository, so the second [git diff] fails too, and the answer is
    "(no diff available)": the text of the file is not shown as
    additions.  With the identifier of the empty tree the second
    [git diff] succeeds. *)
Theorem getDiff_root_commit slug fo w r newer c :
  store slug w r →
  hashes_ok (r_commits r) →
  r_commits r = newer ++ [c] →
  getDiff slug (c_hash c) fo w = (Ok "(no diff available)", w) ∧
  EMPTY_TREE ≠ Git.EMPTY_TREE_ID ∧
  Git.diff_of (r_commits r) [EMPTY_TREE; c_hash c] = Throw "bad revision" ∧
  ∃ d, Git.diff_of (r_commits r) [Git.EMPTY_TREE_ID; c_hash c] = Ok d.
Proof.
  intros Hst Hok Hcs.
  pose proof (hashes_ok_plain _ _ _ _ Hok Hcs) as Hplain.
  pose proof Hplain as (_ & _ & _ & Ho).
  pose proof (not_option_not_dashes _ Ho) as Hh.
  assert (Git.find_commit (r_commits r) (c_hash c) = Some (c, [])) as Hfind.
  { rewrite Hcs. apply find_commit_split. rewrite <- Hcs. apply Hok. }
  assert (Git.diff_of (r_commits r) [EMPTY_TREE; c_hash c] = Throw "bad revision")
    as Hconst.
  { unfold Git.diff_of. cbn [Git.rev_args Git.path_arg]. rewrite Ho.
    replace (Git.is_option EMPTY_TREE) with false by done.
    rewrite (decide_False (P := EMPTY_TREE = "--")) by done.
    rewrite !(decide_False (P := c_hash c = "--")) by done.
    by rewrite rev_tree_constant. }
  split; [|split; [done|split; [done|by eapply diff_of_empty_tree]]].
  rewrite (getDiff_eval slug _ _ w r Hst), Hconst.
  unfold Git.diff_of. rewrite diff_args_revs by done.
  by rewrite rev_tree_parent, Hfind.
Qed.

(** *** The repositories that [snapshot] makes *)

Lemma snapshot_numbered slug sourceFilePath w :
  numbered (Watcher.history slug w) →
  numbered (Watcher.history slug (snapshot slug sourceFilePath w).2).
Proof.
  intros Hnum.
  destruct (snapshot_history_step slug sourceFilePath w) as [->|[c Hc]]; [done|].
  rewrite Hc. split; [|done].
  destruct (opens slug w) eqn:Hopen.
  2:{ destruct (snapshot_fails slug sourceFilePath w Hopen) as (e & w' & He & Hr & _ & Hh).
      rewrite He in Hc. unfold Watcher.history in Hc. cbn [snd] in Hc.
      rewrite Hh, Hr in Hc. apply (f_equal length) in Hc. cbn in Hc. lia. }
  pose proof (snapshot_cases slug sourceFilePath w Hopen) as H. cbn zeta in H.
  pose proof (with_git_history slug w) as Hh.
  assert (∀ o w', snapshot slug sourceFilePath w = (o, w') →
                  Watcher.history slug w' = Watcher.history slug w → False) as Hno.
  { intros o w' Ho Hw'. rewrite Ho in Hc. cbn [snd] in Hc. rewrite Hw' in Hc.
    apply (f_equal length) in Hc. cbn in Hc. lia. }
  destruct (Fs.is_dir sourceFilePath _); [by destruct (Hno _ _ H)|].
  destruct (w_fs w !! sourceFilePath) as [c0|]; [|by destruct (Hno _ _ H)].
  destruct (Fs.is_dir (Path.join _ _) _); [by destruct (Hno _ _ H)|].
  destruct (decide (_ ∈ w_readonly w)); [by destruct (Hno _ _ H)|].
  destruct (w_repos (with_git slug w) !! _) as [r|] eqn:Hr; [|done].
  assert (Watcher.history slug w = r_commits r) as Hhr.
  { rewrite <- Hh. apply history_lookup. by rewrite with_git_home. }
  assert (∀ x, Watcher.history slug
                 (set_repos (<[getRepoPath (w_home w) slug := x]> (w_repos (with_git slug w)))
                    (set_fs (<[Path.join (getRepoPath (w_home w) slug)
                                 (Path.basename sourceFilePath) := c0]> (w_fs w))
                       (with_git slug w))) = r_commits x) as Hset.
  { intros x. unfold Watcher.history. cbn [set_repos set_fs w_home w_repos].
    by rewrite with_git_home, lookup_insert_eq. }
  destruct (r_damaged r).
  { destruct (Hno _ _ H). unfold Watcher.history. cbn [set_fs w_home w_repos].
    by rewrite with_git_home, Hr. }
  destruct (Git.is_option _); [destruct (Hno _ _ H); by rewrite Hset|].
  destruct (decide (Git.staged _ = [])); [destruct (Hno _ _ H); by rewrite Hset|].
  rewrite H in Hc. cbn [snd] in Hc. rewrite Hset in Hc.
  cbn [Git.set_commits Git.set_index r_commits snapshot_commit] in Hc.
  injection Hc as <- _. by rewrite Hhr.
Qed.

End History.


(** ** The properties on concrete runs *)

Section Runs.

Import Config Tracker Watcher Scenario.

(** C1 fails on the code: [stopWatching] closes the watcher and drops the
    key, but the armed debounce timer stays armed; when its window has
    elapsed it fires, [snapshot] commits, and the callback is called, for
    a file that is no longer watched. *)
Theorem stop_mid_debounce_still_commits :
  isWatching "notes" "a.md" armed = true ∧
  t_due <$> timers armed = [1500%N] ∧
  isWatching "notes" "a.md" stopped = false ∧
  timers stopped = timers armed ∧
  history "notes" (env stopped) = [] ∧
  c_tree <$> history "notes" (env (run stopped [Elapse 400]))
  = [{[ "a.md" := text2 ]}] ∧
  notified (run stopped [Elapse 400]) = [(1%nat, "notes", "a.md")].
Proof. vm_compute. repeat split; reflexivity. Qed.

Lemma snapshot_twice_unchanged_witness :
  w_fs world0 !! file = Some text1 ∧
  ∃ w3, snapshot "notes" file world1 = (Ok None, w3) ∧
        history "notes" w3 = history "notes" world1.
Proof.
  split; [reflexivity|].
  apply (proj2 (snapshot_twice_unchanged "notes" file world0)
               text1 (Some "c0") world1 world1); vm_compute; reflexivity.
Defined.

Lemma snapshot_missing_source_witness :
  w_fs world1 !! "/work/notes/gone.md" = None ∧
  ∃ w', snapshot "notes" "/work/notes/gone.md" world1 = (Ok None, w') ∧
        history "notes" w' = history "notes" world1 ∧
        w_fs w' = w_fs world1.
Proof.
  split; [reflexivity|].
  apply (snapshot_missing_source "notes" "/work/notes/gone.md" world1);
    vm_compute; reflexivity.
Defined.

(** C6 as stated fails in two ways.  Where [git] cannot be run
    [getGit], which is called before the file is looked for, throws; and
    where the source path is a directory there is no file to copy, yet
    [existsSync] answers [true] and [copyFileSync] throws. *)
Lemma snapshot_missing_source_throws :
  (w_fs no_git_world !! "/work/notes/gone.md" = None ∧
   Fs.is_dir "/work/notes/gone.md" no_git_world = false ∧
   (snapshot "notes" "/work/notes/gone.md" no_git_world).1
   = Throw "spawn git ENOENT") ∧
  (w_fs world0 !! "/work/notes" = None ∧
   (snapshot "notes" "/work/notes" world0).1 = Throw "EISDIR").
Proof. vm_compute. repeat split; reflexivity. Qed.


Lemma restore_sentinel_content_witness :
  content_at (history "notes" sentinel_world) "c0" "a.md"
  = Some "(content not available)" ∧
  restore "notes" "c0" "a.md" file sentinel_world = (Ok false, sentinel_world) ∧
  w_fs sentinel_world = w_fs sentinel_world.
Proof.
  split; [reflexivity|].
  apply (restore_sentinel_content "notes" "c0" "a.md" file sentinel_world
           (getRepoPath "/home/u" "notes") sentinel_world);
    vm_compute; reflexivity.
Defined.



Lemma settle_notifies_iff_commit_witness :
  let out := snapshot "notes" file (env armed) in
  env (on_settle 0 armed) = out.2 ∧
  ((∃ h, out.1 = Ok (Some h)) ∧
   notified (on_settle 0 armed) = notified armed ++ [(1%nat, "notes", "a.md")]
   ∨ (∀ h, out.1 ≠ Ok (Some h)) ∧ notified (on_settle 0 armed) = notified armed).
Proof.
  apply (settle_notifies_iff_commit 0 armed
           (FSWatcher "notes" "a.md" file (Some 0%nat) false) 1%nat);
    vm_compute; reflexivity.
Defined.

Lemma one_watch_per_key_witness :
  startWatching project watching = watching.
Proof.
  apply (proj1 (proj2 (one_watch_per_key world0
                         [CallOnSnapshot 1; CallStartWatching project])) project).
  intros f ->%list_elem_of_singleton. vm_compute. eauto.
Defined.

Lemma getDiff_root_commit_witness :
  (getLog "notes" (Some "a.md") world1).1
  = Ok [Build_SnapshotInfo "c0" 1000 "[a.md] auto-snapshot" (Num 1) (Num 0)] ∧
  content_at (history "notes" world1) "c0" "a.md" = Some text1 ∧
  getDiff "notes" "c0" (Some "a.md") world1 = (Ok "(no diff available)", world1).
Proof.
  split; [reflexivity|]. split; [reflexivity|].
  assert (hashes_ok (r_commits (repo_of world1))) as Hok.
  { apply numbered_hashes_ok. vm_compute. repeat split; reflexivity. }
  apply (getDiff_root_commit "notes" (Some "a.md") world1 (repo_of world1) []
           (Commit "c0" {[ "a.md" := text1 ]} "[a.md] auto-snapshot" "" 1000)
           ltac:(vm_compute; repeat split; reflexivity) Hok
           ltac:(vm_compute; reflexivity)).
Defined.

End Runs.

(** ** Text helpers of [src/utils.ts] *)

Section Text.

Import Utils.

Lemma string_length_app (s t : string) :
  String.length (s +:+ t) = (String.length s + String.length t)%nat.
Proof.
  induction s as [|a s IH]; [done|].
  rewrite app_cons. cbn [String.length]. by rewrite IH.
Qed.

Lemma length_substring_0 (m : nat) (s : string) :
  String.length (substring 0 m s) = (m `min` String.length s)%nat.
Proof.
  revert s. induction m as [|m IH]; intros s; [by destruct s|].
  destruct s as [|a s]; [done|]. cbn. by rewrite IH.
Qed.

Lemma substring_0_prefix (m : nat) (s : string) :
  ∃ rest, s = substring 0 m s +:+ rest.
Proof.
  revert s. induction m as [|m IH]; intros s.
  - exists s. by destruct s.
  - destruct s as [|a s]; [by exists ""|].
    destruct (IH s) as [rest Hrest]. exists rest. cbn.
    change (String a (substring 0 m s) +:+ rest)
      with (String a (substring 0 m s +:+ rest)). by rewrite <- Hrest.
Qed.

Lemma substring_0_all (s : string) : substring 0 (String.length s) s = s.
Proof. induction s as [|a s IH]; [done|]. cbn. by rewrite IH. Qed.

Lemma slice_0 (s : string) (x : Z) :
  slice s 0 x =
  substring 0 (Z.to_nat (slice_index (Z.of_nat (String.length s)) x)) s.
Proof.
  unfold slice. 
  assert (slice_index (Z.of_nat (String.length s)) 0 = 0%Z) as ->.
  { unfold slice_index. cbn. lia. }
  cbn [Z.to_nat]. f_equal.
  unfold slice_index. case_match; lia.
Qed.

Lemma length_repeat_nat (s : string) (n : nat) :
  String.length (repeat_nat s n) = (n * String.length s)%nat.
Proof. induction n as [|n IH]; [done|]. cbn [repeat_nat]. rewrite string_length_app, IH. lia. Qed.

(** X1: [truncate]: a string that fits is returned as it is; one that does
    not is cut to exactly [maxLen] characters, the last two of them dots,
    when [maxLen] is at least 2, and comes out longer than [maxLen] when
    [maxLen] is smaller than 2. *)
Theorem truncate_length (str : string) (maxLen : Z) :
  let len := Z.of_nat (String.length str) in
  ((len ≤ maxLen)%Z → truncate str maxLen = str) ∧
  ((maxLen < len)%Z → (2 ≤ maxLen)%Z →
     Z.of_nat (String.length (truncate str maxLen)) = maxLen ∧
     ∃ kept rest, truncate str maxLen = kept +:+ ".." ∧ str = kept +:+ rest) ∧
  ((maxLen < len)%Z → (maxLen < 2)%Z →
     Z.of_nat (String.length (truncate str maxLen))
     = (Z.max (len + maxLen - 2) 0 + 2)%Z).
Proof.
  intros len. unfold truncate. fold len. split; [|split].
  - intros H. by rewrite (proj2 (Z.leb_le _ _) H).
  - intros Hlt H2. rewrite (proj2 (Z.leb_gt _ _) Hlt). rewrite slice_0. fold len.
    split.
    + rewrite string_length_app, length_substring_0. unfold slice_index.
      rewrite (proj2 (Z.ltb_ge _ _)) by lia. cbn. lia.
    + destruct (substring_0_prefix
                  (Z.to_nat (slice_index len (maxLen - 2))) str) as [rest Hrest].
      eauto.
  - intros Hlt H2. rewrite (proj2 (Z.leb_gt _ _) Hlt). rewrite slice_0. fold len.
    rewrite string_length_app, length_substring_0. unfold slice_index.
    rewrite (proj2 (Z.ltb_lt _ _)) by lia. cbn. lia.
Qed.

Lemma truncate_length_witness :
  Z.of_nat (String.length (Utils.truncate "snapshot-list" 8)) = 8%Z ∧
  Z.of_nat (String.length (Utils.truncate "abcdef" 1)) = 7%Z.
Proof.
  split.
  - apply (proj1 (proj2 (truncate_length "snapshot-list" 8))); cbn; lia.
  - apply (proj2 (proj2 (truncate_length "abcdef" 1))); cbn; lia.
Defined.

(** X2: [padRight] and [padLeft]: for a width that is not negative the result
    has exactly that width; a shorter string is kept whole, with spaces
    after it (before it, for [padLeft]); a longer one is cut to its first
    [len] characters, by both. *)
Theorem pad_width (str : string) (len : Z) :
  (0 ≤ len)%Z →
  Z.of_nat (String.length (padRight str len)) = len ∧
  Z.of_nat (String.length (padLeft str len)) = len ∧
  ((Z.of_nat (String.length str) < len)%Z →
     padRight str len = str +:+ repeat " " (len - Z.of_nat (String.length str)) ∧
     padLeft str len = repeat " " (len - Z.of_nat (String.length str)) +:+ str) ∧
  ((len ≤ Z.of_nat (String.length str))%Z →
     padLeft str len = padRight str len ∧ ∃ rest, str = padRight str len +:+ rest) ∧
  padRight (padRight str len) len = padRight str len.
Proof.
  intros Hlen.
  assert (∀ s, (len ≤ Z.of_nat (String.length s))%Z →
               Z.of_nat (String.length (slice s 0 len)) = len) as Hcut.
  { intros s Hs. rewrite slice_0, length_substring_0. unfold slice_index.
    rewrite (proj2 (Z.ltb_ge _ _)) by lia. lia. }
  assert (Z.of_nat (String.length (padRight str len)) = len) as HR.
  { unfold padRight. destruct (Z.geb_spec (Z.of_nat (String.length str)) len).
    - by apply Hcut.
    - rewrite string_length_app. unfold repeat. rewrite length_repeat_nat. cbn. lia. }
  split; [done|]. split; [|split; [|split]].
  - unfold padLeft. destruct (Z.geb_spec (Z.of_nat (String.length str)) len).
    + by apply Hcut.
    + rewrite string_length_app. unfold repeat. rewrite length_repeat_nat. cbn. lia.
  - intros Hlt. unfold padRight, padLeft.
    destruct (Z.geb_spec (Z.of_nat (String.length str)) len); [lia|done].
  - intros Hge. unfold padRight, padLeft.
    destruct (Z.geb_spec (Z.of_nat (String.length str)) len); [|lia].
    split; [done|]. rewrite slice_0. apply substring_0_prefix.
  - unfold padRight at 1. rewrite HR.
    destruct (Z.geb_spec len len); [|lia].
    rewrite slice_0, HR. unfold slice_index.
    rewrite (proj2 (Z.ltb_ge _ _)) by lia. rewrite Z.min_id.
    rewrite <- HR at 1. rewrite Nat2Z.id. apply substring_0_all.
Qed.

Lemma pad_width_witness :
  Z.of_nat (String.length (Utils.padRight "ab" 4)) = 4%Z ∧
  Z.of_nat (String.length (Utils.padLeft "abcdef" 4)) = 4%Z.
Proof.
  split.
  - apply (proj1 (pad_width "ab" 4 ltac:(lia))).
  - apply (proj1 (proj2 (pad_width "abcdef" 4 ltac:(lia)))).
Defined.

End Text.

(** ** [relativeTime] *)

Section RelativeTime.

Import Utils.

(** X3: [relativeTime], by the age of the date in milliseconds: below five
    seconds (a date in the future too) "just now"; then whole seconds
    from 5 to 59, whole minutes from 1 to 59, whole hours from 1 to 23,
    "yesterday" for the second day, whole days from 2 to 29, and from
    thirty days on the date as the locale prints it. *)
Theorem relativeTime_ranges (toLocaleDateString : Z → string) (now date : Z) :
  let age := (now - date)%Z in
  let r := relativeTime toLocaleDateString now date in
  ((age < 5000)%Z → r = "just now") ∧
  ((5000 ≤ age < 60000)%Z →
     ∃ n, (5 ≤ n < 60)%Z ∧ n = (age / 1000)%Z ∧ r = pretty n +:+ "s ago") ∧
  ((60000 ≤ age < 3600000)%Z →
     ∃ n, (1 ≤ n < 60)%Z ∧ n = (age / 60000)%Z ∧ r = pretty n +:+ "m ago") ∧
  ((3600000 ≤ age < 86400000)%Z →
     ∃ n, (1 ≤ n < 24)%Z ∧ n = (age / 3600000)%Z ∧ r = pretty n +:+ "h ago") ∧
  ((86400000 ≤ age < 172800000)%Z → r = "yesterday") ∧
  ((172800000 ≤ age < 2592000000)%Z →
     ∃ n, (2 ≤ n < 30)%Z ∧ n = (age / 86400000)%Z ∧ r = pretty n +:+ "d ago") ∧
  ((2592000000 ≤ age)%Z → r = toLocaleDateString date).
Proof.
  intros age r. subst r. unfold relativeTime. fold age.
  set (seconds := (age / 1000)%Z).
  assert ((seconds / 60)%Z = (age / 60000)%Z) as Hm.
  { subst seconds. rewrite Z.div_div by lia. done. }
  assert ((seconds / 60 / 60)%Z = (age / 3600000)%Z) as Hh.
  { rewrite Hm, Z.div_div by lia. done. }
  assert ((seconds / 60 / 60 / 24)%Z = (age / 86400000)%Z) as Hd.
  { rewrite Hh, Z.div_div by lia. done. }
  rewrite Hd, Hh, Hm.
  assert (∀ k x, (0 < k)%Z → ((age / k < x)%Z ↔ (age < x * k)%Z)) as Hlt.
  { intros k x Hk. split; intros H.
    - destruct (Z.lt_ge_cases age (x * k)) as [?|Hc]; [done|].
      assert (x ≤ age / k)%Z by (apply Z.div_le_lower_bound; lia). lia.
    - apply Z.div_lt_upper_bound; lia. }
  assert (∀ k x, (0 < k)%Z → ((x ≤ age / k)%Z ↔ (x * k ≤ age)%Z)) as Hle.
  { intros k x Hk. pose proof (Hlt k x Hk). lia. }
  repeat split.
  - intros H. rewrite (proj2 (Z.ltb_lt _ _)); [done|]. subst seconds. apply Hlt; lia.
  - intros H. exists seconds.
    rewrite (proj2 (Z.ltb_ge _ _)) by (subst seconds; apply Hle; lia).
    rewrite (proj2 (Z.ltb_lt _ _)) by (subst seconds; apply Hlt; lia).
    split; [|done]. subst seconds. split; [apply Hle | apply Hlt]; lia.
  - intros H. exists (age / 60000)%Z.
    rewrite (proj2 (Z.ltb_ge _ _)) by (subst seconds; apply Hle; lia).
    rewrite (proj2 (Z.ltb_ge _ _)) by (subst seconds; apply Hle; lia).
    rewrite (proj2 (Z.ltb_lt _ _)) by (apply Hlt; lia).
    split; [|done]. split; [apply Hle | apply Hlt]; lia.
  - intros H. exists (age / 3600000)%Z.
    rewrite (proj2 (Z.ltb_ge _ _)) by (subst seconds; apply Hle; lia).
    rewrite (proj2 (Z.ltb_ge _ _)) by (subst seconds; apply Hle; lia).
    rewrite (proj2 (Z.ltb_ge _ _)) by (apply Hle; lia).
    rewrite (proj2 (Z.ltb_lt _ _)) by (apply Hlt; lia).
    split; [|done]. split; [apply Hle | apply Hlt]; lia.
  - intros H.
    rewrite (proj2 (Z.ltb_ge _ _)) by (subst seconds; apply Hle; lia).
    rewrite (proj2 (Z.ltb_ge _ _)) by (subst seconds; apply Hle; lia).
    rewrite (proj2 (Z.ltb_ge _ _)) by (apply Hle; lia).
    rewrite (proj2 (Z.ltb_ge _ _)) by (apply Hle; lia).
    rewrite (proj2 (Z.eqb_eq _ _)); [done|].
    assert (1 ≤ age / 86400000)%Z by (apply Hle; lia).
    assert (age / 86400000 < 2)%Z by (apply Hlt; lia). lia.
  - intros H. exists (age / 86400000)%Z.
    assert (2 ≤ age / 86400000)%Z by (apply Hle; lia).
    assert (age / 86400000 < 30)%Z by (apply Hlt; lia).
    rewrite (proj2 (Z.ltb_ge _ _)) by (subst seconds; apply Hle; lia).
    rewrite (proj2 (Z.ltb_ge _ _)) by (subst seconds; apply Hle; lia).
    rewrite (proj2 (Z.ltb_ge _ _)) by (apply Hle; lia).
    rewrite (proj2 (Z.ltb_ge _ _)) by (apply Hle; lia).
    rewrite (proj2 (Z.eqb_neq _ _)) by lia.
    rewrite (proj2 (Z.ltb_lt _ _)) by lia. done.
  - intros H.
    assert (30 ≤ age / 86400000)%Z by (apply Hle; lia).
    rewrite (proj2 (Z.ltb_ge _ _)) by (subst seconds; apply Hle; lia).
    rewrite (proj2 (Z.ltb_ge _ _)) by (subst seconds; apply Hle; lia).
    rewrite (proj2 (Z.ltb_ge _ _)) by (apply Hle; lia).
    rewrite (proj2 (Z.ltb_ge _ _)) by (apply Hle; lia).
    rewrite (proj2 (Z.eqb_neq _ _)) by lia.
    rewrite (proj2 (Z.ltb_ge _ _)) by lia. done.
Qed.

Lemma relativeTime_ranges_witness :
  Utils.relativeTime (λ _, "1/1/2026") 1000 4000 = "just now" ∧
  ∃ n, (1 ≤ n < 60)%Z ∧ n = ((200000 - 20000) / 60000)%Z ∧
       Utils.relativeTime (λ _, "1/1/2026") 200000 20000 = pretty n +:+ "m ago".
Proof.
  split.
  - apply (proj1 (relativeTime_ranges (λ _, "1/1/2026") 1000 4000)). lia.
  - apply (proj1 (proj2 (proj2 (relativeTime_ranges (λ _, "1/1/2026") 200000 20000)))).
    lia.
Defined.

End RelativeTime.

(** ** Slugs and watch keys *)

Section Slugs.

Import Utils Config Watcher.

Lemma sanitize_chars (s : string) :
  all_chars (λ a, is_slug_char a = true) (sanitize s).
Proof.
  induction s as [|a s IH]; [done|]. cbn [sanitize all_chars]. split; [|done].
  by destruct (is_slug_char a) eqn:E.
Qed.

Lemma sanitize_fixed (s : string) :
  all_chars (λ a, is_slug_char a = true) s → sanitize s = s.
Proof.
  induction s as [|a s IH]; [done|]. intros [Ha Hs].
  cbn [sanitize]. by rewrite Ha, IH.
Qed.

Lemma sanitize_length (s : string) : String.length (sanitize s) = String.length s.
Proof. induction s as [|a s IH]; [done|]. cbn. by rewrite IH. Qed.

(** X4: [projectSlug]: the slug is made of letters, digits, [_] and [-] only;
    it is as long as the last component of the resolved directory; and a
    name that is already a slug is left as it is. *)
Theorem projectSlug_alphabet (cwd dirPath : string) :
  all_chars (λ a, is_slug_char a = true) (projectSlug cwd dirPath) ∧
  String.length (projectSlug cwd dirPath)
  = String.length (Path.basename (Path.resolve cwd dirPath)) ∧
  sanitize (projectSlug cwd dirPath) = projectSlug cwd dirPath.
Proof.
  unfold projectSlug. split; [apply sanitize_chars|]. split; [apply sanitize_length|].
  apply sanitize_fixed, sanitize_chars.
Qed.

Lemma key_of_nil (f : string) : key_of "" f = String ":" f.
Proof. done. Qed.

Lemma key_of_cons a (s f : string) : key_of (String a s) f = String a (key_of s f).
Proof. done. Qed.

Lemma key_of_inj (s1 s2 f1 f2 : string) :
  all_chars (λ a, a ≠ ":"%char) s1 →
  all_chars (λ a, a ≠ ":"%char) s2 →
  key_of s1 f1 = key_of s2 f2 → s1 = s2 ∧ f1 = f2.
Proof.
  revert s2.
  induction s1 as [|a s1 IH]; intros [|b s2] H1 H2;
    rewrite ?key_of_nil, ?key_of_cons; intros Hk.
  - by injection Hk as ->.
  - destruct H2 as [Hb _]. by injection Hk as <-.
  - destruct H1 as [Ha _]. by injection Hk as ->.
  - destruct H1 as [_ H1], H2 as [_ H2].
    injection Hk as -> Hk. destruct (IH s2 H1 H2 Hk) as [-> ->]. done.
Qed.

(** X5: The key of a watch, [`${slug}:${fileName}`], tells the slug and the
    file name apart when the slugs come from [projectSlug]: two keys are
    equal only for the same slug and the same file name. *)
Theorem watch_key_injective (cwd d1 d2 f1 f2 : string) :
  key_of (projectSlug cwd d1) f1 = key_of (projectSlug cwd d2) f2 →
  projectSlug cwd d1 = projectSlug cwd d2 ∧ f1 = f2.
Proof.
  apply key_of_inj; (eapply all_chars_impl; [|apply sanitize_chars]);
    by intros a Ha ->.
Qed.

Lemma watch_key_injective_witness :
  projectSlug "/" "/a/my notes" = projectSlug "/" "/b/my_notes" ∧ "x:y.md" = "x:y.md".
Proof.
  apply (watch_key_injective "/" "/a/my notes" "/b/my_notes" "x:y.md" "x:y.md").
  reflexivity.
Defined.

End Slugs.

(** ** The registry *)

Section Registry.

Import Utils Config.

Lemma find_project_cons slug p ps :
  find_project slug (p :: ps) =
  if decide (p_slug p = slug) then Some p else find_project slug ps.
Proof.
  unfold find_project. cbn. case_decide; [done|].
  by destruct (list_find _ ps) as [[i q]|].
Qed.

Lemma find_project_slug slug ps p :
  find_project slug ps = Some p → p_slug p = slug ∧ p ∈ ps.
Proof.
  induction ps as [|q ps IH]; [done|]. rewrite find_project_cons.
  case_decide.
  - intros [= ->]. split; [done|]. apply elem_of_cons. by left.
  - intros H'. destruct (IH H') as [? ?]. split; [done|]. apply elem_of_cons. by right.
Qed.

Lemma find_project_app slug ps qs :
  find_project slug (ps ++ qs) =
  match find_project slug ps with
  | Some p => Some p
  | None => find_project slug qs
  end.
Proof.
  induction ps as [|p ps IH]; [reflexivity|].
  rewrite <- app_comm_cons, !find_project_cons. by case_decide.
Qed.

Lemma find_update_found slug f ps :
  (∀ q, p_slug (f q) = p_slug q) →
  find_project slug (update_found slug f ps) = f <$> find_project slug ps.
Proof.
  intros Hf. induction ps as [|p ps IH]; [done|].
  cbn [update_found]. rewrite find_project_cons. case_decide as Hp.
  - rewrite find_project_cons, Hf. by rewrite decide_True.
  - rewrite find_project_cons. by rewrite decide_False.
Qed.

Lemma find_update_other slug slug' f ps :
  slug' ≠ slug →
  (∀ q, p_slug (f q) = p_slug q) →
  find_project slug' (update_found slug f ps) = find_project slug' ps.
Proof.
  intros Hne Hf. induction ps as [|p ps IH]; [done|].
  cbn [update_found]. case_decide as Hp.
  - rewrite !find_project_cons, Hf. rewrite Hp. by rewrite !decide_False.
  - rewrite !find_project_cons. by rewrite IH.
Qed.

Lemma update_found_twice slug f g ps :
  (∀ q, p_slug (g q) = p_slug q) →
  update_found slug f (update_found slug g ps) = update_found slug (f ∘ g) ps.
Proof.
  intros Hg. induction ps as [|p ps IH]; [done|].
  cbn [update_found]. case_decide as Hp.
  - cbn [update_found]. by rewrite Hg, decide_True.
  - cbn [update_found]. by rewrite decide_False, IH.
Qed.

Lemma update_found_ext slug f g ps :
  (∀ q, q ∈ ps → p_slug q = slug → f q = g q) →
  update_found slug f ps = update_found slug g ps.
Proof.
  induction ps as [|p ps IH]; [done|]. intros H.
  cbn [update_found]. case_decide as Hp.
  - f_equal. apply H; [apply elem_of_cons; by left | done].
  - f_equal. apply IH. intros q Hq. apply H. apply elem_of_cons. by right.
Qed.

Lemma update_found_id slug f ps :
  (∀ q, find_project slug ps = Some q → f q = q) →
  update_found slug f ps = ps.
Proof.
  induction ps as [|p ps IH]; [done|]. intros H.
  cbn [update_found]. rewrite find_project_cons in H. case_decide as Hp.
  - f_equal. by apply H.
  - f_equal. by apply IH.
Qed.

Lemma push_file_slug fileName q : p_slug (push_file fileName q) = p_slug q.
Proof. unfold push_file. by case_decide. Qed.

Lemma push_file_elem fileName q : fileName ∈ p_files (push_file fileName q).
Proof.
  unfold push_file. case_decide; [done|]. cbn. apply elem_of_app. right.
  by apply list_elem_of_singleton.
Qed.

Lemma push_file_twice fileName q :
  push_file fileName (push_file fileName q) = push_file fileName q.
Proof.
  unfold push_file at 1. rewrite decide_True; [done|]. apply push_file_elem.
Qed.

(** The projects that [addFileToConfig] works on: the registry, with a
    new empty project after it when none has the slug. *)
Lemma add_has_project slug dir ps :
  ∃ q, find_project slug
         (match find_project slug ps with
          | Some _ => ps
          | None => ps ++ [Build_ProjectConfig slug dir []]
          end) = Some q ∧
       (find_project slug ps = None → q = Build_ProjectConfig slug dir []).
Proof.
  destruct (find_project slug ps) as [q|] eqn:E.
  - exists q. by rewrite E.
  - exists (Build_ProjectConfig slug dir []). split; [|done].
    rewrite find_project_app, E, find_project_cons. cbn. by rewrite decide_True.
Qed.

(** X6: [addFileToConfig]: afterwards the project of the file's directory is
    in the registry and lists the file's basename; a project that was
    not there before is created with the file's directory and this one
    file; the projects of other slugs are what they were; and adding the
    same file again changes nothing. *)
Theorem addFileToConfig_tracks (cwd : string) (config : AppConfig) (filePath : string) :
  let absPath := Path.resolve cwd filePath in
  let dir := projectDirFromFile cwd absPath in
  let slug := projectSlug cwd dir in
  let fileName := Path.basename absPath in
  let config' := addFileToConfig cwd config filePath in
  (∃ q, find_project slug (projects config') = Some q ∧
        p_slug q = slug ∧ fileName ∈ p_files q ∧
        (find_project slug (projects config) = None →
         q = Build_ProjectConfig slug dir [fileName])) ∧
  (∀ slug', slug' ≠ slug →
     find_project slug' (projects config') = find_project slug' (projects config)) ∧
  addFileToConfig cwd config' filePath = config'.
Proof.
  intros absPath dir slug fileName config'. subst config'.
  unfold addFileToConfig. fold absPath dir slug fileName. cbn [projects editor].
  destruct (add_has_project slug dir (projects config)) as (q & Hq & Hnew).
  set (ps := match find_project slug (projects config) with
             | Some _ => projects config
             | None => projects config ++ [Build_ProjectConfig slug dir []]
             end) in *.
  pose proof (find_update_found slug (push_file fileName) ps
                (push_file_slug fileName)) as Hfind.
  rewrite Hq in Hfind. cbn in Hfind.
  split; [|split].
  - exists (push_file fileName q). split; [done|].
    split; [rewrite push_file_slug; by apply find_project_slug in Hq as [? _]|].
    split; [apply push_file_elem|].
    intros Hnone. by rewrite (Hnew Hnone).
  - intros slug' Hne. rewrite find_update_other by (done || apply push_file_slug).
    subst ps. destruct (find_project slug (projects config)) eqn:E; [done|].
    rewrite find_project_app, find_project_cons. cbn.
    rewrite decide_False by done. by destruct (find_project slug' (projects config)).
  - rewrite Hfind. f_equal.
    rewrite update_found_twice by apply push_file_slug.
    apply update_found_ext. intros p _ _. apply push_file_twice.
Qed.

Lemma addFileToConfig_tracks_witness :
  find_project "other"
    (projects (addFileToConfig "/" (Build_AppConfig [] None) "/a/notes/x.md"))
  = find_project "other" (projects (Build_AppConfig [] None)).
Proof.
  apply (proj1 (proj2 (addFileToConfig_tracks "/" (Build_AppConfig [] None)
                         "/a/notes/x.md")) "other").
  vm_compute. discriminate.
Defined.

Lemma filter_all {A} (P : A → Prop) `{∀ x, Decision (P x)} (l : list A) :
  (∀ x, x ∈ l → P x) → filter P l = l.
Proof.
  induction l as [|a l IH]; [done|]. intros Hall.
  rewrite filter_cons, decide_True by (apply Hall, elem_of_cons; by left).
  f_equal. apply IH. intros x Hx. apply Hall, elem_of_cons. by right.
Qed.

Lemma drop_file_slug fileName q : p_slug (drop_file fileName q) = p_slug q.
Proof. done. Qed.

Lemma find_filter_other slug slug' ps :
  slug' ≠ slug →
  find_project slug' (filter (λ p, p_slug p ≠ slug) ps) = find_project slug' ps.
Proof.
  intros Hne. induction ps as [|p ps IH]; [done|].
  rewrite filter_cons. case_decide as Hp.
  - rewrite !find_project_cons. by rewrite IH.
  - rewrite find_project_cons. rewrite decide_False; [done|]. congruence.
Qed.

Lemma find_filter_same slug ps :
  find_project slug (filter (λ p, p_slug p ≠ slug) ps) = None.
Proof.
  induction ps as [|p ps IH]; [done|].
  rewrite filter_cons. case_decide as Hp; [|done].
  rewrite find_project_cons. by rewrite decide_False.
Qed.

(** X7: [removeFileFromConfig]: afterwards the project of the file's
    directory, if it is still there, does not list the file's basename
    and lists at least one file; the projects of other slugs are what
    they were. *)
Theorem removeFileFromConfig_untracks (cwd : string) (config : AppConfig)
    (filePath : string) :
  let absPath := Path.resolve cwd filePath in
  let slug := projectSlug cwd (projectDirFromFile cwd absPath) in
  let fileName := Path.basename absPath in
  let config' := removeFileFromConfig cwd config filePath in
  (∀ q, find_project slug (projects config') = Some q →
        (fileName ∉ p_files q) ∧
        ∃ p, find_project slug (projects config) = Some p ∧
             p_files q = filter (λ f, f ≠ fileName) (p_files p) ∧
             p_files q ≠ []) ∧
  (∀ slug', slug' ≠ slug →
     find_project slug' (projects config') = find_project slug' (projects config)).
Proof.
  intros absPath slug fileName config'. subst config'.
  unfold removeFileFromConfig. fold absPath slug fileName.
  destruct (find_project slug (projects config)) as [p|] eqn:E.
  2:{ split; [by intros q; rewrite E | done]. }
  pose proof (find_update_found slug (drop_file fileName) (projects config)
                (drop_file_slug fileName)) as Hfind.
  rewrite E in Hfind. cbn [fmap option_fmap option_map] in Hfind.
  case_decide as Hlen; cbn [projects].
  - split.
    + intros q. by rewrite find_filter_same.
    + intros slug' Hne. rewrite find_filter_other by done.
      by apply find_update_other.
  - split.
    + intros q. rewrite Hfind. intros [= <-]. split.
      * cbn. intros [Hne _]%list_elem_of_filter. done.
      * exists p. split; [done|]. split; [done|].
        intros Hnil. apply Hlen. cbn in *. by rewrite Hnil.
    + intros slug' Hne. by apply find_update_other.
Qed.

Lemma removeFileFromConfig_untracks_witness :
  find_project "other"
    (projects (removeFileFromConfig "/"
                 (registry_after "/" [AddFile "/a/notes/x.md"; AddFile "/a/notes/y.md"])
                 "/a/notes/x.md"))
  = find_project "other"
      (projects (registry_after "/" [AddFile "/a/notes/x.md"; AddFile "/a/notes/y.md"])).
Proof.
  apply (proj2 (removeFileFromConfig_untracks "/"
                  (registry_after "/" [AddFile "/a/notes/x.md"; AddFile "/a/notes/y.md"])
                  "/a/notes/x.md") "other").
  vm_compute. discriminate.
Defined.

Lemma update_found_fresh slug f dir ps :
  find_project slug ps = None →
  update_found slug f (ps ++ [Build_ProjectConfig slug dir []])
  = ps ++ [f (Build_ProjectConfig slug dir [])].
Proof.
  induction ps as [|q ps IH].
  - intros _. cbn [app update_found p_slug]. by rewrite decide_True.
  - rewrite find_project_cons. case_decide; [done|]. intros Hps.
    rewrite <- !app_comm_cons. cbn [update_found]. rewrite decide_False by done.
    by rewrite IH.
Qed.

(** X8: Removing a file that was just added gives the registry back, when
    the file was not listed before and its project, if there was one,
    listed some file. *)
Theorem remove_after_add (cwd : string) (config : AppConfig) (filePath : string) :
  let absPath := Path.resolve cwd filePath in
  let slug := projectSlug cwd (projectDirFromFile cwd absPath) in
  let fileName := Path.basename absPath in
  (∀ q, find_project slug (projects config) = Some q →
        (fileName ∉ p_files q) ∧ p_files q ≠ []) →
  removeFileFromConfig cwd (addFileToConfig cwd config filePath) filePath = config.
Proof.
  intros absPath slug fileName Hfresh.
  set (dir := projectDirFromFile cwd absPath) in *.
  unfold removeFileFromConfig, addFileToConfig.
  fold absPath dir. fold slug. fold fileName. cbn [projects editor].
  destruct (find_project slug (projects config)) as [p|] eqn:E.
  - destruct (Hfresh p eq_refl) as [Hnot Hne].
    rewrite find_update_found by apply push_file_slug. rewrite E.
    cbn [fmap option_fmap option_map].
    assert (drop_file fileName (push_file fileName p) = p) as Hdp.
    { unfold push_file. rewrite decide_False by done. unfold drop_file. cbn.
      rewrite filter_app, filter_cons, decide_False by (intros H; by apply H).
      rewrite filter_nil, app_nil_r.
      rewrite filter_all; [by destruct p|]. by intros f Hf ->. }
    rewrite Hdp. rewrite decide_False by by destruct (p_files p).
    rewrite update_found_twice by apply push_file_slug.
    rewrite update_found_id; [by destruct config|].
    intros q. rewrite E. intros [= <-]. exact Hdp.
  - rewrite (update_found_fresh slug (push_file fileName) dir _ E).
    change (push_file fileName (Build_ProjectConfig slug dir []))
      with (Build_ProjectConfig slug dir [fileName]).
    rewrite find_project_app, E, find_project_cons. cbn [p_slug].
    rewrite decide_True by done.
    rewrite decide_True.
    2:{ unfold drop_file. cbn [p_files].
        rewrite filter_cons, decide_False by (intros H; by apply H). done. }
    assert (∀ ps, find_project slug ps = None →
              filter (λ q, p_slug q ≠ slug)
                (update_found slug (drop_file fileName)
                   (ps ++ [Build_ProjectConfig slug dir [fileName]])) = ps) as Hflt.
    { induction ps as [|q ps IH].
      - intros _. cbn [app update_found p_slug]. rewrite decide_True by done.
        rewrite filter_cons, decide_False by (intros H; by apply H). done.
      - rewrite find_project_cons. case_decide as Hq; [done|]. intros Hps.
        rewrite <- !app_comm_cons. cbn [update_found]. rewrite decide_False by done.
        rewrite filter_cons, decide_True by done. by rewrite IH. }
    rewrite (Hflt _ E). by destruct config.
Qed.

Lemma remove_after_add_witness :
  removeFileFromConfig "/"
    (addFileToConfig "/" (registry_after "/" [AddFile "/a/notes/x.md"]) "/a/notes/y.md")
    "/a/notes/y.md"
  = registry_after "/" [AddFile "/a/notes/x.md"].
Proof.
  apply (remove_after_add "/" (registry_after "/" [AddFile "/a/notes/x.md"])
                          "/a/notes/y.md").
  intros q Hq. vm_compute in Hq. injection Hq as <-. split; [|done].
  cbn. intros [H|H]%elem_of_cons; [done|]. by apply elem_of_nil in H.
Defined.

Lemma update_found_Forall (Q : ProjectConfig → Prop) slug f ps :
  Forall Q ps →
  (∀ p, find_project slug ps = Some p → Q (f p)) →
  Forall Q (update_found slug f ps).
Proof.
  induction ps as [|p ps IH]; [done|].
  intros [Hp Hps]%Forall_cons Hf. rewrite find_project_cons in Hf.
  cbn [update_found]. case_decide.
  - apply Forall_cons. split; [by apply Hf | done].
  - apply Forall_cons. split; [done | by apply IH].
Qed.

Lemma push_file_listed fileName p :
  NoDup (p_files p) → listed (push_file fileName p).
Proof.
  intros Hnd. unfold push_file, listed. case_decide as Hin.
  - split; [|done]. intros Hnil. rewrite Hnil in Hin. by apply elem_of_nil in Hin.
  - cbn [p_files]. split; [by destruct (p_files p)|].
    apply NoDup_app. split; [done|]. split; [|apply NoDup_singleton].
    by intros x Hx ->%list_elem_of_singleton.
Qed.

(** X9: In every registry that the commands build, each project lists at
    least one file and lists no file twice: a project whose last file is
    removed leaves the registry. *)
Theorem registry_projects_listed (cwd : string) (ops : list registry_op) :
  Forall listed (projects (registry_after cwd ops)).
Proof.
  unfold registry_after.
  induction ops as [|op ops IH] using rev_ind; [apply Forall_nil_2|].
  rewrite foldl_app. cbn [foldl].
  set (config := foldl (apply_op cwd) (Build_AppConfig [] None) ops) in *.
  destruct op as [filePath|filePath]; cbn [apply_op].
  - unfold addFileToConfig. cbn [projects].
    set (slug := projectSlug cwd _). set (fileName := Path.basename _).
    destruct (find_project slug (projects config)) as [p|] eqn:E.
    + apply update_found_Forall; [done|]. intros q Hq.
      apply push_file_listed. rewrite E in Hq. injection Hq as <-.
      apply find_project_slug in E as [_ Hin].
      rewrite Forall_forall in IH. by apply IH.
    + rewrite update_found_fresh by done. apply Forall_app. split; [done|].
      apply Forall_singleton. apply push_file_listed. apply NoDup_nil_2.
  - unfold removeFileFromConfig.
    set (slug := projectSlug cwd _). set (fileName := Path.basename _).
    destruct (find_project slug (projects config)) as [p|] eqn:E; [|done].
    case_decide as Hlen; cbn [projects].
    + assert (Forall (λ q, p_slug q ≠ slug → listed q)
                (update_found slug (drop_file fileName) (projects config))) as Hall.
      { apply update_found_Forall.
        - eapply Forall_impl; [exact IH|]. by intros q Hq _.
        - intros q Hq Hne. by apply find_project_slug in Hq as [? _]. }
      rewrite Forall_forall in Hall. apply Forall_forall.
      intros q [Hq Hin]%list_elem_of_filter. by apply Hall.
    + apply update_found_Forall; [done|]. intros q Hq.
      rewrite E in Hq. injection Hq as <-. split.
      * intros Hnil. apply Hlen. by rewrite Hnil.
      * cbn [drop_file p_files]. apply NoDup_filter.
        apply find_project_slug in E as [_ Hin].
        rewrite Forall_forall in IH. by apply IH.
Qed.

End Registry.

(** ** The store: what was recorded can be listed, read and restored *)

Section StoreRoundTrips.

Import Config Tracker.


Lemma history_with_git_repo slug w r :
  w_repos (with_git slug w) !! getRepoPath (w_home w) slug = Some r →
  Watcher.history slug w = r_commits r.
Proof.
  intros Hr. rewrite <- (with_git_history slug w).
  apply history_lookup. by rewrite with_git_home.
Qed.

(** The store as [getGit] leaves it. *)
Lemma with_git_store slug w r :
  opens slug w = true →
  w_repos (with_git slug w) !! getRepoPath (w_home w) slug = Some r →
  w_git_ok (with_git slug w) = true ∧
  w_copy_source (with_git slug w) = w_copy_source w.
Proof.
  intros [_ Hok]%andb_true_iff Hr.
  destruct (with_git_flags slug w) as (-> & _ & ->). done.
Qed.

(** *** [getLog] without a file *)

Lemma log_entries_all (cs : list Env.commit) :
  Git.e_hash <$> Git.log_entries cs None = c_hash <$> cs ∧
  Git.e_date <$> Git.log_entries cs None = c_date <$> cs ∧
  Git.e_message <$> Git.log_entries cs None = c_message <$> cs.
Proof.
  induction cs as [|c cs (IH1 & IH2 & IH3)]; [done|].
  cbn [Git.log_entries]. rewrite !fmap_cons, IH1, IH2, IH3. done.
Qed.

Lemma to_info_fields e :
  hash (to_info e) = Git.e_hash e ∧ date (to_info e) = Git.e_date e ∧
  message (to_info e) = Git.e_message e.
Proof. unfold to_info. by repeat case_match. Qed.

Lemma to_info_fmap (l : list Git.log_entry) :
  hash <$> (to_info <$> l) = Git.e_hash <$> l ∧
  date <$> (to_info <$> l) = Git.e_date <$> l ∧
  message <$> (to_info <$> l) = Git.e_message <$> l.
Proof.
  induction l as [|e l (IH1 & IH2 & IH3)]; [done|].
  destruct (to_info_fields e) as (H1 & H2 & H3).
  rewrite !fmap_cons, IH1, IH2, IH3, H1, H2, H3. done.
Qed.

(** The entries that [git log] gives for the [args] of [getLog]. *)
Definition log_of (w : world) (cs : list Env.commit) (fo : option string)
  : list Git.log_entry :=
  match truthy fo with
  | Some f => Git.log_follow (w_copy_source w) cs f
  | None => Git.log_entries cs None
  end.

(** What [getLog] returns, from the repository as [getGit] leaves it. *)
Lemma getLog_value slug fo w r :
  opens slug w = true →
  w_repos (with_git slug w) !! getRepoPath (w_home w) slug = Some r →
  getLog slug fo w =
  (Ok (if r_damaged r then [] else to_info <$> log_of w (r_commits r) fo),
   with_git slug w).
Proof.
  intros Hopen Hr. destruct (with_git_store slug w r Hopen Hr) as [Hok Hcp].
  unfold getLog, mbind, M_bind, bind, try_catch, mret, M_ret, ret.
  rewrite getGit_eq by done. unfold Git.log, Git.read_repo. rewrite Hok, Hr, Hcp.
  cbn [negb]. destruct (r_damaged r); [done|].
  unfold log_of, log_args. destruct (truthy fo) as [f|].
  - cbn [app Git.path_arg]. rewrite !decide_False by done. rewrite decide_True by done.
    cbn [head]. destruct (r_commits r); [done|].
    rewrite decide_True by set_solver. done.
  - cbn [app Git.path_arg]. rewrite !decide_False by done.
    by destruct (r_commits r).
Qed.



(** *** Reading a revision back *)

Lemma split_colon_spec (h f : string) :
  all_chars (λ a, a ≠ ":"%char) h →
  Git.split_colon (h +:+ ":" +:+ f) = Some (h, f).
Proof.
  induction h as [|a h IH]; [done|]. intros [Ha Hh].
  rewrite app_cons. cbn [Git.split_colon]. rewrite decide_False by done.
  by rewrite IH.
Qed.

Lemma mk_hash_no_colon n : all_chars (λ a, a ≠ ":"%char) (Git.mk_hash n).
Proof.
  split; [done|].
  eapply all_chars_impl; [|apply pretty_N_decimal]. by intros a Ha ->.
Qed.

(** Text of seven-bit characters is well-formed UTF-8. *)
Lemma ascii_well_formed (s : string) :
  all_chars (λ a, (Utf8.byte a < 128)%N) s → Utf8.well_formed s.
Proof.
  unfold Utf8.well_formed. induction s as [|a s IH]; [done|].
  intros [Ha Hs]. cbn [Utf8.lossy].
  apply N.ltb_lt in Ha. rewrite Ha. by rewrite IH.
Qed.

(** What [getContent] returns, from the repository as [getGit] leaves
    it: the text of the file in the revision, decoded. *)
Lemma getContent_value slug h f w r :
  opens slug w = true →
  w_repos (with_git slug w) !! getRepoPath (w_home w) slug = Some r →
  all_chars (λ a, a ≠ ":"%char) h →
  getContent slug h f w =
  (Ok (if r_damaged r then "(content not available)"
       else default "(content not available)"
              (Utf8.lossy <$> content_at (r_commits r) h f)),
   with_git slug w).
Proof.
  intros Hopen Hr Hh. destruct (with_git_store slug w r Hopen Hr) as [Hok _].
  unfold getContent, mbind, M_bind, bind, try_catch, mret, M_ret, ret.
  rewrite getGit_eq by done. unfold Git.show, Git.read_repo. rewrite Hok, Hr.
  cbn [negb]. destruct (r_damaged r); [done|]. rewrite split_colon_spec by done.
  unfold content_at. destruct (Git.find_commit (r_commits r) h) as [[c ?]|]; [|done].
  by destruct (c_tree c !! f).
Qed.

Lemma store_opens slug w r : store slug w r → opens slug w = true.
Proof. intros (Hok & Hdir & _). by apply is_dir_opens. Qed.

Lemma store_with_git slug w r : store slug w r → with_git slug w = w.
Proof. intros (_ & Hdir & Hr & _). by eapply with_git_id. Qed.

Lemma getContent_eval slug h f w r :
  store slug w r →
  all_chars (λ a, a ≠ ":"%char) h →
  getContent slug h f w =
  (Ok (default "(content not available)"
         (Utf8.lossy <$> content_at (r_commits r) h f)), w).
Proof.
  intros Hst Hh. pose proof Hst as (_ & _ & Hr & Hd).
  assert (w_repos (with_git slug w) !! getRepoPath (w_home w) slug = Some r) as Hr'.
  { by rewrite (store_with_git slug w r Hst). }
  rewrite (getContent_value slug h f w r (store_opens _ _ _ Hst) Hr' Hh), Hd.
  by rewrite (store_with_git slug w r Hst).
Qed.



Lemma restore_eval slug h fileName destPath w r text :
  store slug w r →
  all_chars (λ a, a ≠ ":"%char) h →
  content_at (r_commits r) h fileName = Some text →
  Utf8.lossy text ≠ "(content not available)" →
  destPath ∉ w_readonly w →
  Fs.is_dir destPath w = false →
  restore slug h fileName destPath w
  = if w_require w
    then (Ok true, set_fs (<[destPath := Utf8.lossy text]> (w_fs w)) w)
    else (Ok false, w).
Proof.
  intros Hst Hh Hc Hs Hro Hdd.
  unfold restore, mbind, M_bind, bind, try_catch, mret, M_ret, ret.
  rewrite (getContent_eval _ _ _ _ _ Hst Hh), Hc. cbn [default fmap option_fmap option_map].
  rewrite decide_False by done. unfold require, Fs.writeFileSync.
  destruct (w_require w); [|done]. rewrite Hdd.
  by rewrite decide_False.
Qed.

(** X12: [restore] of a revision that holds the file, whose text, decoded as
    UTF-8, is not the sentinel of [getContent], to a destination that
    can be written and is not a directory.  Where the runtime defines
    [require] the answer is [true], the destination then holds the
    decoded text (the text itself, where it is well-formed UTF-8), no
    other file and no repository changes, and restoring once more
    changes nothing.  Where it does not, the answer is [false] and
    nothing is written. *)
Theorem restore_writes slug h fileName destPath w r text :
  store slug w r →
  all_chars (λ a, a ≠ ":"%char) h →
  content_at (r_commits r) h fileName = Some text →
  Utf8.lossy text ≠ "(content not available)" →
  destPath ∉ w_readonly w →
  Fs.is_dir destPath w = false →
  let w' := (restore slug h fileName destPath w).2 in
  (w_require w = true →
     (restore slug h fileName destPath w).1 = Ok true ∧
     w_fs w' !! destPath = Some (Utf8.lossy text) ∧
     (Utf8.well_formed text → w_fs w' !! destPath = Some text) ∧
     (∀ p, p ≠ destPath → w_fs w' !! p = w_fs w !! p) ∧
     w_repos w' = w_repos w ∧
     restore slug h fileName destPath w' = (Ok true, w')) ∧
  (w_require w = false →
     restore slug h fileName destPath w = (Ok false, w)).
Proof.
  intros Hst Hh Hc Hs Hro Hdd. cbn zeta.
  rewrite (restore_eval slug h fileName destPath w r text) by done.
  split; intros Hreq; rewrite Hreq; [|done].
  cbn [fst snd]. split; [done|]. split; [apply lookup_insert_eq|].
  split; [intros Hwf; cbn; by rewrite lookup_insert_eq, Hwf|].
  split; [by intros p Hp; apply lookup_insert_ne|]. split; [done|].
  rewrite (restore_eval slug h fileName destPath _ r text) by done.
  cbn [set_fs w_require]. rewrite Hreq.
  unfold set_fs. cbn. by rewrite insert_insert_eq.
Qed.

Lemma restore_writes_witness :
  (restore "notes" "c0" "a.md" Scenario.file Scenario.world2).1 = Ok true ∧
  w_fs (restore "notes" "c0" "a.md" Scenario.file Scenario.world2).2 !! Scenario.file
  = Some Scenario.text1 ∧
  restore "notes" "c0" "a.md" Scenario.file Scenario.node_world
  = (Ok false, Scenario.node_world).
Proof.
  destruct (restore_writes "notes" "c0" "a.md" Scenario.file Scenario.world2
              (Scenario.repo_of Scenario.world2) Scenario.text1) as [H _].
  - vm_compute. repeat split; reflexivity.
  - vm_compute. repeat split; discriminate.
  - vm_compute. reflexivity.
  - vm_compute. discriminate.
  - vm_compute. discriminate.
  - vm_compute. reflexivity.
  - destruct H as (H1 & _ & H2 & _); [reflexivity|].
    split; [exact H1|]. split; [apply H2; vm_compute; reflexivity|].
    apply (restore_writes "notes" "c0" "a.md" Scenario.file Scenario.node_world
             (Scenario.repo_of Scenario.node_world) Scenario.text1).
    + vm_compute. repeat split; reflexivity.
    + vm_compute. repeat split; discriminate.
    + vm_compute. reflexivity.
    + vm_compute. discriminate.
    + vm_compute. discriminate.
    + vm_compute. reflexivity.
    + reflexivity.
Defined.

(** X13: [restore] and then [snapshot] of the restored file, on a store with
    nothing staged, where the runtime defines [require]: whatever the
    file held in between, the store then holds for the file the text of
    the revision, decoded as UTF-8, and [snapshot] returns [null],
    making no commit, exactly when that is what the store held
    already. *)
Theorem restore_then_snapshot slug h sourceFilePath w r text :
  let dir := getRepoPath (w_home w) slug in
  let fileName := Path.basename sourceFilePath in
  store slug w r →
  w_require w = true →
  Git.head_tree (r_commits r) = r_index r →
  all_chars (λ a, a ≠ ":"%char) h →
  content_at (r_commits r) h fileName = Some text →
  Utf8.lossy text ≠ "(content not available)" →
  sourceFilePath ∉ w_readonly w →
  Fs.is_dir sourceFilePath w = false →
  Path.join dir fileName ∉ w_readonly w →
  Fs.is_dir (Path.join dir fileName) w = false →
  Git.is_option fileName = false →
  ∃ w1 res w2,
    restore slug h fileName sourceFilePath w = (Ok true, w1) ∧
    snapshot slug sourceFilePath w1 = (Ok res, w2) ∧
    Git.head_tree (Watcher.history slug w2) !! fileName = Some (Utf8.lossy text) ∧
    (res = None ↔ Git.head_tree (r_commits r) !! fileName = Some (Utf8.lossy text)) ∧
    (res = None → Watcher.history slug w2 = r_commits r).
Proof.
  intros dir fileName Hst Hreq Hclean Hh Hc Hs Hro Hsd Hro' Hdd Hopt.
  pose proof (restore_eval slug h fileName sourceFilePath w r text
                Hst Hh Hc Hs Hro Hsd) as Hrest.
  rewrite Hreq in Hrest.
  set (text' := Utf8.lossy text) in *.
  set (w1 := set_fs (<[sourceFilePath:=text']> (w_fs w)) w) in *.
  assert (store slug w1 r) as Hst1 by done.
  pose proof Hst as (Hok & Hdir & Hr & Hd).
  pose proof (snapshot_cases slug sourceFilePath w1 (store_opens _ _ _ Hst1)) as H.
  cbn zeta in H. rewrite (store_with_git slug w1 r Hst1) in H.
  assert (w_fs w1 !! sourceFilePath = Some text') as Hsrc by apply lookup_insert_eq.
  change (Fs.is_dir sourceFilePath w1) with (Fs.is_dir sourceFilePath w) in H.
  rewrite Hsd, Hsrc in H.
  change (w_home w1) with (w_home w) in H. change (w_readonly w1) with (w_readonly w) in H.
  fold dir fileName in H.
  change (Fs.is_dir (Path.join dir fileName) w1)
    with (Fs.is_dir (Path.join dir fileName) w) in H.
  rewrite Hdd in H. rewrite decide_False in H by done.
  change (w_repos w1) with (w_repos w) in H. fold dir in Hr. rewrite Hr, Hd, Hopt in H.
  assert (Git.staged (Git.set_index (<[fileName:=text']> (r_index r)) r) = []
          ↔ Git.head_tree (r_commits r) !! fileName = Some text') as Hstg.
  { rewrite staged_nil_iff. cbn [Git.set_index r_commits r_index]. rewrite <- Hclean.
    split.
    - intros ->. apply lookup_insert_eq.
    - intros Hl. by rewrite insert_id. }
  destruct (decide (Git.staged _ = [])) as [Hs0|Hs0].
  - eexists _, _, _. split; [exact Hrest|].
    split; [exact H|]. pose proof (proj1 Hstg Hs0) as Hl.
    unfold Watcher.history. cbn [set_repos set_fs w_home w_repos w1].
    fold dir. rewrite lookup_insert_eq. cbn [Git.set_index r_commits].
    done.
  - eexists _, _, _. split; [exact Hrest|]. split; [exact H|].
    unfold Watcher.history. cbn [set_repos set_fs w_home w_repos w1].
    fold dir. rewrite lookup_insert_eq.
    cbn [Git.set_commits Git.set_index r_commits r_index Git.head_tree
           snapshot_commit c_tree].
    split; [by rewrite lookup_insert_eq|].
    split; [|done]. split; [done|]. intros Hl. exfalso. apply Hs0. by apply Hstg.
Qed.

Lemma restore_then_snapshot_witness :
  ∃ w1 res w2,
    restore "notes" "c0" "a.md" Scenario.file Scenario.world2 = (Ok true, w1) ∧
    snapshot "notes" Scenario.file w1 = (Ok res, w2) ∧
    Git.head_tree (Watcher.history "notes" w2) !! "a.md" = Some Scenario.text1.
Proof.
  destruct (restore_then_snapshot "notes" "c0" Scenario.file Scenario.world2
              (Scenario.repo_of Scenario.world2) Scenario.text1)
    as (w1 & res & w2 & H1 & H2 & H3 & _).
  - vm_compute. repeat split; reflexivity.
  - vm_compute. reflexivity.
  - vm_compute. reflexivity.
  - vm_compute. repeat split; discriminate.
  - vm_compute. reflexivity.
  - vm_compute. discriminate.
  - vm_compute. discriminate.
  - vm_compute. reflexivity.
  - vm_compute. discriminate.
  - vm_compute. reflexivity.
  - vm_compute. reflexivity.
  - exists w1, res, w2. split; [exact H1|]. split; [exact H2|].
    etransitivity; [exact H3|]. vm_compute. reflexivity.
Defined.

(** *** The history of a file within the history of the project *)

Lemma log_follow_sublist source (cs : list Env.commit) (f : string) :
  sublist (Git.e_hash <$> Git.log_follow source cs f) (c_hash <$> cs).
Proof.
  revert f. induction cs as [|c cs IH]; intros f; [constructor|].
  cbn [Git.log_follow]. rewrite fmap_cons. case_decide.
  - by apply sublist_cons.
  - destruct (Git.head_tree cs !! f); [rewrite fmap_cons; by apply sublist_skip|].
    destruct (source _ _ _); rewrite fmap_cons; by apply sublist_skip.
Qed.

(** X15: The history of a file is part of the history of its project: where
    [getGit] can open the store, the hashes that [getLog] lists for a
    file are, in the same order, among those it lists without a file,
    also where [--follow] takes the file to be a copy of another; where
    it cannot, both calls throw. *)
Theorem file_log_within_project_log slug f w :
  (opens slug w = true →
   ∃ l lf, getLog slug None w = (Ok l, with_git slug w) ∧
           getLog slug (Some f) w = (Ok lf, with_git slug w) ∧
           sublist (hash <$> lf) (hash <$> l)) ∧
  (opens slug w = false →
   ∃ e w', getLog slug None w = (Throw e, w') ∧
           getLog slug (Some f) w = (Throw e, w')).
Proof.
  split.
  - intros Hopen. destruct (with_git_is_repo slug w) as [r Hr].
    eexists _, _. split; [by apply getLog_value|]. split; [by apply getLog_value|].
    destruct (r_damaged r); [constructor|].
    destruct (to_info_fmap (log_of w (r_commits r) None)) as (-> & _).
    destruct (to_info_fmap (log_of w (r_commits r) (Some f))) as (-> & _).
    destruct (log_entries_all (r_commits r)) as (L1 & _).
    unfold log_of. cbn [truthy]. rewrite L1. destruct f as [|a f]; [by rewrite L1|].
    apply log_follow_sublist.
  - intros Hopen. destruct (getGit_fails slug w Hopen) as (e & w' & Hg & _).
    exists e, w'. unfold getLog, mbind, M_bind, bind. by rewrite Hg.
Qed.

Lemma file_log_within_project_log_witness :
  (∃ l lf, getLog "notes" None Scenario.world2 = (Ok l, with_git "notes" Scenario.world2) ∧
           getLog "notes" (Some "a.md") Scenario.world2
           = (Ok lf, with_git "notes" Scenario.world2) ∧
           sublist (hash <$> lf) (hash <$> l)) ∧
  (∃ e w', getLog "notes" None Scenario.no_git_world = (Throw e, w') ∧
           getLog "notes" (Some "a.md") Scenario.no_git_world = (Throw e, w')).
Proof.
  split.
  - apply (proj1 (file_log_within_project_log "notes" "a.md" Scenario.world2)).
    vm_compute. reflexivity.
  - apply (proj2 (file_log_within_project_log "notes" "a.md" Scenario.no_git_world)).
    vm_compute. reflexivity.
Defined.

(** *** Revisions that do not exist *)

Lemma find_commit_none cs n :
  numbered cs → (length cs ≤ n)%nat → Git.find_commit cs (Git.mk_hash n) = None.
Proof.
  intros Hnum Hn.
  destruct (Git.find_commit cs (Git.mk_hash n)) as [[c older]|] eqn:E; [|done].
  apply find_commit_hash in E as [Hh Hin].
  destruct (numbered_bound cs (Git.mk_hash n) Hnum) as (m & Hm & Heq).
  { rewrite <- Hh. by apply list_elem_of_fmap_2. }
  apply mk_hash_inj in Heq. lia.
Qed.

Lemma diff_of_unknown cs n fo :
  numbered cs → (length cs ≤ n)%nat →
  (∃ e, Git.diff_of cs (diff_args (Git.mk_hash n) fo) = Throw e) ∧
  (∃ e, Git.diff_of cs [EMPTY_TREE; Git.mk_hash n] = Throw e).
Proof.
  intros Hnum Hn. pose proof (find_commit_none cs n Hnum Hn) as Hnone.
  pose proof (mk_hash_plain n) as Hplain.
  assert (Git.rev_tree cs (Git.mk_hash n) = None) as Hrev.
  { by rewrite rev_tree_hash, Hnone. }
  unfold Git.diff_of. split.
  - rewrite diff_args_revs, rev_tree_parent, Hnone by done. eauto.
  - cbn [Git.rev_args]. replace (Git.is_option EMPTY_TREE) with false by done.
    replace (Git.is_option (Git.mk_hash n)) with false by done.
    rewrite (decide_False (P := EMPTY_TREE = "--")) by done.
    rewrite (decide_False (P := Git.mk_hash n = "--")) by done.
    rewrite Hrev. destruct (Git.rev_tree cs EMPTY_TREE); eauto.
Qed.

(** X16: For the identifier of a commit that the project does not have
    (the commits numbered as [git commit] numbers them here, and a
    number that is not reached yet), where [getGit] can open the store:
    [getDiff] answers ["(no diff available)"] and [getContent] answers
    ["(content not available)"].  Neither throws, and neither changes
    anything but for what [getGit] creates when it is not there. *)
Theorem unknown_revision slug n w :
  opens slug w = true →
  numbered (Watcher.history slug w) →
  (length (Watcher.history slug w) ≤ n)%nat →
  (∀ fo, getDiff slug (Git.mk_hash n) fo w
         = (Ok "(no diff available)", with_git slug w)) ∧
  (∀ f, getContent slug (Git.mk_hash n) f w
        = (Ok "(content not available)", with_git slug w)).
Proof.
  intros Hopen. destruct (with_git_is_repo slug w) as [r Hr].
  rewrite (history_with_git_repo slug w r Hr). intros Hnum Hn.
  destruct (with_git_store slug w r Hopen Hr) as [Hok _]. split.
  - intros fo.
    unfold getDiff, mbind, M_bind, bind, try_catch, mret, M_ret, ret.
    rewrite getGit_eq by done. unfold Git.diff, Git.read_repo. rewrite Hok, Hr.
    cbn [negb].
    destruct (diff_of_unknown (r_commits r) n fo Hnum Hn) as [[e1 He1] [e2 He2]].
    destruct (r_damaged r) eqn:Hd; [by rewrite Hok, Hr, Hd|].
    rewrite He1, Hok, Hr, Hd, He2. done.
  - intros f.
    rewrite (getContent_value slug _ f w r Hopen Hr (mk_hash_no_colon n)).
    unfold content_at. rewrite (find_commit_none _ n Hnum Hn).
    by destruct (r_damaged r).
Qed.

Lemma unknown_revision_witness :
  getDiff "notes" "c7" (Some "a.md") Scenario.world2
  = (Ok "(no diff available)", with_git "notes" Scenario.world2) ∧
  getContent "notes" "c7" "a.md" Scenario.world2
  = (Ok "(content not available)", with_git "notes" Scenario.world2).
Proof.
  destruct (unknown_revision "notes" 7 Scenario.world2) as [H1 H2].
  - vm_compute. reflexivity.
  - vm_compute. repeat split; reflexivity.
  - vm_compute. lia.
  - split; [apply (H1 (Some "a.md")) | apply (H2 "a.md")].
Defined.

End StoreRoundTrips.

(** ** The table of watches *)

Section WatchTable.

Import Config Tracker Watcher.

Lemma stop_loop_lookup slug fileName (l : list (string * WatcherEntry)) st k :
  NoDup l.*1 →
  watchers (foldl (stop_one slug fileName) st l) !! k =
  match (list_to_map l : gmap string WatcherEntry) !! k with
  | Some e => if stop_matches slug fileName k e then None else watchers st !! k
  | None => watchers st !! k
  end.
Proof.
  revert st. induction l as [|[k0 e0] l IH]; intros st Hnd; [done|].
  rewrite fmap_cons in Hnd. apply NoDup_cons in Hnd as [Hk Hnd].
  cbn [foldl list_to_map foldr]. rewrite IH by done. cbn [uncurry].
  destruct (decide (k = k0)) as [->|Hne].
  - rewrite lookup_insert_eq, (not_elem_of_list_to_map_1 _ _ Hk).
    unfold stop_one. cbn [fst snd].
    destruct (stop_matches slug fileName k0 e0); [|done].
    cbn [set_watchers watchers]. apply lookup_delete_eq.
  - rewrite lookup_insert_ne by done. rewrite stop_one_watchers by done. done.
Qed.

Lemma stopWatching_lookup slug fileName st k :
  watchers (stopWatching slug fileName st) !! k =
  watchers st !! k ≫= (λ e, if stop_matches slug fileName k e then None else Some e).
Proof.
  unfold stopWatching. rewrite stop_loop_lookup by apply NoDup_fst_map_to_list.
  rewrite list_to_map_to_list. destruct (watchers st !! k) as [e|] eqn:He; [|done].
  cbn. by destruct (stop_matches slug fileName k e).
Qed.

(** X17: [stopWatching] removes from the table exactly the entries that its
    test selects, whatever the order in which the loop meets them; in a
    state where the table and the active watches agree, it closes the
    watchers of those entries and no other; and an empty file name is
    no file name. *)
Theorem stopWatching_filters slug fileName st :
  (∀ k, watchers (stopWatching slug fileName st) !! k =
        watchers st !! k ≫=
          (λ e, if stop_matches slug fileName k e then None else Some e)) ∧
  (watch_inv st →
   ∀ w key, active (stopWatching slug fileName st) w key ↔
            active st w key ∧
            ∀ e, watchers st !! key = Some e → stop_matches slug fileName key e = false) ∧
  stopWatching slug (Some "") st = stopWatching slug None st.
Proof.
  split; [apply stopWatching_lookup|]. split; [|done].
  intros Hinv w key.
  destruct (stopWatching_inv slug fileName st Hinv) as [H1' H2'].
  destruct Hinv as [H1 H2]. split.
  - intros Ha. destruct (H2' w key Ha) as (e & He & <-).
    rewrite stopWatching_lookup in He.
    destruct (watchers st !! key) as [e0|] eqn:He0; [|done]. cbn in He.
    destruct (stop_matches slug fileName key e0) eqn:Hm; [done|].
    injection He as <-. split; [by apply H1|]. by intros e [= <-].
  - intros [Ha Hm]. destruct (H2 w key Ha) as (e & He & <-).
    apply H1'. rewrite stopWatching_lookup, He. cbn. by rewrite (Hm e He).
Qed.

Lemma stopWatching_filters_witness :
  active (stopWatching "notes" (Some "b.md") Scenario.watching) 0 "notes:a.md".
Proof.
  apply (proj1 (proj2 (stopWatching_filters "notes" (Some "b.md") Scenario.watching))).
  - apply (run_inv (init_state Scenario.world0)), watch_inv_init.
  - split.
    + eexists. split; [vm_compute; reflexivity|]. split; vm_compute; reflexivity.
    + intros e. vm_compute. intros [= <-]. reflexivity.
Defined.

Lemma stopAll_timers st : timers (stopAll st) = timers st.
Proof.
  unfold stopAll. cbn [set_watchers timers].
  generalize (map_to_list (watchers st)). intros l. revert st.
  induction l as [|ke l IH]; intros st; [done|].
  cbn [foldl]. rewrite IH. apply close_timers.
Qed.

(** X18: After [stopAll], in a state where the table and the active watches
    agree, the table is empty and no watcher is active, so that a change
    that is reported afterwards arms nothing; the timers that were armed
    stay armed. *)
Theorem stopAll_quiesces st :
  watch_inv st →
  watchers (stopAll st) = ∅ ∧
  (∀ w key, ¬ active (stopAll st) w key) ∧
  (∀ w, step (stopAll st) (ChangeSeen w) = stopAll st) ∧
  (∀ slug fileName, isWatching slug fileName (stopAll st) = false) ∧
  timers (stopAll st) = timers st.
Proof.
  intros Hinv. destruct (stopAll_inv st Hinv) as [H1 H2].
  assert (∀ w key, ¬ active (stopAll st) w key) as Hno.
  { intros w key Ha. destruct (H2 w key Ha) as (e & He & _).
    unfold stopAll in He. cbn [set_watchers watchers] in He.
    by rewrite lookup_empty in He. }
  split; [done|]. split; [done|]. split; [|split; [|apply stopAll_timers]].
  - intros w. cbn [step].
    destruct (fswatchers (stopAll st) !! w) as [fw|] eqn:Hfw; [|done].
    destruct (fw_closed fw) eqn:Hc; [done|].
    exfalso. apply (Hno w (fw_key fw)). by exists fw.
  - intros slug fileName. unfold isWatching, stopAll.
    cbn [set_watchers watchers]. rewrite lookup_empty.
    apply bool_decide_eq_false. by intros [? ?].
Qed.

Lemma stopAll_quiesces_witness :
  watchers (stopAll Scenario.armed) = ∅ ∧
  timers (stopAll Scenario.armed) = timers Scenario.armed.
Proof.
  assert (watch_inv Scenario.armed) as Hinv.
  { unfold Scenario.armed. apply run_inv. unfold Scenario.watching.
    apply run_inv, watch_inv_init. }
  destruct (stopAll_quiesces Scenario.armed Hinv) as (H1 & _ & _ & _ & H5).
  split; [exact H1 | exact H5].
Defined.

Lemma start_one_env slug dir st fileName :
  env (start_one slug dir st fileName) = env st ∧
  timers (start_one slug dir st fileName) = timers st ∧
  next_timer (start_one slug dir st fileName) = next_timer st ∧
  notified (start_one slug dir st fileName) = notified st.
Proof. unfold start_one. by case_decide. Qed.

Lemma start_one_watches slug dir st fileName :
  is_Some (watchers (start_one slug dir st fileName) !! key_of slug fileName).
Proof.
  unfold start_one. case_decide as Hk; [done|].
  cbn [set_watchers set_fswatchers watchers]. rewrite lookup_insert_eq. eauto.
Qed.

Lemma start_loop_keeps slug dir (fs : list string) st key :
  is_Some (watchers st !! key) →
  is_Some (watchers (foldl (start_one slug dir) st fs) !! key).
Proof.
  revert st. induction fs as [|f fs IH]; intros st Hk; [done|].
  cbn [foldl]. apply IH. destruct Hk as [e He].
  exists e. by apply start_one_keeps.
Qed.

Lemma start_loop_watches slug dir (fs : list string) st f :
  f ∈ fs →
  is_Some (watchers (foldl (start_one slug dir) st fs) !! key_of slug f).
Proof.
  revert st. induction fs as [|f0 fs IH]; intros st Hf; [by apply elem_of_nil in Hf|].
  cbn [foldl]. apply elem_of_cons in Hf as [->|Hf].
  - apply start_loop_keeps, start_one_watches.
  - by apply IH.
Qed.

Lemma start_loop_present slug dir (fs : list string) st :
  (∀ f, f ∈ fs → is_Some (watchers st !! key_of slug f)) →
  foldl (start_one slug dir) st fs = st.
Proof.
  revert st. induction fs as [|f fs IH]; intros st Hall; [done|].
  cbn [foldl]. rewrite start_one_present.
  - apply IH. intros f' Hf'. apply Hall. apply elem_of_cons. by right.
  - apply Hall. apply elem_of_cons. by left.
Qed.

(** X19: After [startWatching(project)] every file of the project is watched:
    [isWatching] answers [true] for it, and where the table and the
    active watches agreed there is an active watcher for its key.
    Starting the same project again changes nothing. *)
Theorem startWatching_watches project st f :
  f ∈ p_files project →
  isWatching (p_slug project) f (startWatching project st) = true ∧
  (watch_inv st →
   ∃ w, active (startWatching project st) w (key_of (p_slug project) f)) ∧
  startWatching project (startWatching project st) = startWatching project st.
Proof.
  intros Hf.
  pose proof (start_loop_watches (p_slug project) (p_dir project)
                (p_files project) st f Hf) as Hk.
  split; [|split].
  - unfold isWatching. by apply bool_decide_eq_true.
  - intros Hinv. destruct (startWatching_inv project st Hinv) as [H1 _].
    destruct Hk as [e He]. exists (watcher e). by apply H1.
  - unfold startWatching at 1. apply start_loop_present.
    intros f' Hf'. by apply start_loop_watches.
Qed.

Lemma startWatching_watches_witness :
  isWatching "notes" "a.md"
    (startWatching Scenario.project (init_state Scenario.world0)) = true.
Proof.
  apply (startWatching_watches Scenario.project (init_state Scenario.world0) "a.md").
  vm_compute. apply list_elem_of_here.
Defined.

End WatchTable.

(** ** The debounce timers *)

Section Debounce.

Import Config Tracker Watcher.

Lemma filter_agree {A} (P Q : A → Prop) `{!∀ x, Decision (P x)}
    `{!∀ x, Decision (Q x)} (l : list A) :
  (∀ x, x ∈ l → P x ↔ Q x) →
  filter P l = filter Q l.
Proof.
  induction l as [|x l IH]; intros Hiff; [done|].
  assert (filter P l = filter Q l) as IH'.
  { apply IH. intros y Hy. apply Hiff. apply elem_of_cons. by right. }
  assert (P x ↔ Q x) as Hx by (apply Hiff, elem_of_cons; by left).
  rewrite !filter_cons, IH'.
  destruct (decide (P x)), (decide (Q x)); tauto.
Qed.

Lemma filter_none {A} (P : A → Prop) `{!∀ x, Decision (P x)} (l : list A) :
  (∀ x, x ∈ l → ¬ P x) → filter P l = [].
Proof.
  induction l as [|x l IH]; intros Hno; [done|].
  rewrite filter_cons, decide_False.
  - apply IH. intros y Hy. apply Hno. apply elem_of_cons. by right.
  - apply Hno. apply elem_of_cons. by left.
Qed.

Lemma timers_inv_init w0 : timers_inv (init_state w0).
Proof.
  split; [constructor|]. split.
  - by intros t ?%elem_of_nil.
  - intros w id H. unfold handle in H. cbn in H. by rewrite lookup_nil in H.
Qed.

(** What of a state the invariant reads, and how a step that arms
    nothing may change it. *)
Lemma timers_inv_mono st st' :
  sublist (timers st') (timers st) →
  (next_timer st ≤ next_timer st')%nat →
  (∀ w, handle st' w = handle st w) →
  timers_inv st → timers_inv st'.
Proof.
  intros Hsub Hnext Hh (Hnd & Ht & Hw). split; [|split].
  - eapply sublist_NoDup; [exact Hnd | by apply fmap_sublist].
  - intros t Hin. rewrite Hh.
    destruct (Ht t) as [Hlt Hown]; [by eapply elem_of_sublist|].
    split; [lia | done].
  - intros w id. rewrite Hh. intros Hid. destruct (Hw w id Hid) as [Hlt Hown].
    split; [lia|]. intros t Hin. apply Hown. by eapply elem_of_sublist.
Qed.

Lemma close_handle w0 st w : handle (close w0 st) w = handle st w.
Proof.
  unfold handle, close. destruct (fswatchers st !! w0) as [fw|] eqn:Hfw; [|done].
  cbn [set_fswatchers fswatchers].
  destruct (decide (w = w0)) as [->|Hne].
  - rewrite list_lookup_insert_eq by by eapply lookup_lt_Some. by rewrite Hfw.
  - by rewrite list_lookup_insert_ne.
Qed.

Lemma close_next w st : next_timer (close w st) = next_timer st.
Proof. unfold close. by destruct (fswatchers st !! w). Qed.

Lemma close_env w st :
  env (close w st) = env st ∧ notified (close w st) = notified st.
Proof. unfold close. by destruct (fswatchers st !! w). Qed.

Lemma close_timers_inv w st : timers_inv st → timers_inv (close w st).
Proof.
  apply timers_inv_mono.
  - by rewrite close_timers.
  - by rewrite close_next.
  - apply close_handle.
Qed.

Lemma start_one_handle slug dir st f w :
  handle (start_one slug dir st f) w = handle st w.
Proof.
  unfold handle, start_one. case_decide; [done|].
  cbn [set_watchers set_fswatchers fswatchers].
  destruct (fswatchers st !! w) as [fw|] eqn:Hfw.
  - by rewrite (lookup_app_l_Some _ _ _ _ Hfw).
  - apply lookup_ge_None in Hfw.
    destruct (decide (w = length (fswatchers st))) as [->|Hne].
    + by rewrite list_lookup_middle.
    + rewrite lookup_ge_None_2; [done|]. rewrite length_app. cbn. lia.
Qed.

Lemma start_one_timers_inv slug dir st f :
  timers_inv st → timers_inv (start_one slug dir st f).
Proof.
  destruct (start_one_env slug dir st f) as (_ & Ht & Hn & _).
  apply timers_inv_mono.
  - by rewrite Ht.
  - by rewrite Hn.
  - apply start_one_handle.
Qed.

Lemma startWatching_timers_inv project st :
  timers_inv st → timers_inv (startWatching project st).
Proof.
  unfold startWatching. revert st.
  induction (p_files project) as [|f fs IH]; intros st Hinv; [done|].
  cbn [foldl]. by apply IH, start_one_timers_inv.
Qed.

Lemma stop_one_timers_inv slug fileName st ke :
  timers_inv st → timers_inv (stop_one slug fileName st ke).
Proof.
  intros Hinv. unfold stop_one.
  destruct (stop_matches slug fileName ke.1 ke.2); [|done].
  by apply (close_timers_inv (watcher ke.2)) in Hinv.
Qed.

Lemma stopWatching_timers_inv slug fileName st :
  timers_inv st → timers_inv (stopWatching slug fileName st).
Proof.
  unfold stopWatching. generalize (map_to_list (watchers st)). intros l.
  revert st. induction l as [|ke l IH]; intros st Hinv; [done|].
  cbn [foldl]. by apply IH, stop_one_timers_inv.
Qed.

Lemma stopAll_timers_inv st : timers_inv st → timers_inv (stopAll st).
Proof.
  unfold stopAll. generalize (map_to_list (watchers st)). intros l.
  revert st. induction l as [|ke l IH]; intros st Hinv; [done|].
  cbn [foldl]. by apply IH, close_timers_inv.
Qed.

Lemma on_settle_next w st : next_timer (on_settle w st) = next_timer st.
Proof.
  unfold on_settle. destruct (fswatchers st !! w) as [fw|]; [|done].
  destruct (snapshot _ _ _) as [o w'].
  destruct o as [[h|]|e]; cbn [set_env onSnapshotCallback]; [|done..].
  destruct (onSnapshotCallback st); [|done]. by case_decide.
Qed.

Lemma fire_timers_inv t st : timers_inv st → timers_inv (fire t st).
Proof.
  unfold fire. case_decide; [|done].
  set (st2 := set_env _ _).
  destruct (on_settle_tables (t_owner t) st2) as (_ & Hfs & Hts).
  apply timers_inv_mono.
  - rewrite Hts. subst st2. cbn [set_env clearTimeout set_timers timers].
    apply sublist_filter.
  - by rewrite on_settle_next.
  - intros w. unfold handle. by rewrite Hfs.
Qed.

Lemma elapse_timers_inv d st : timers_inv st → timers_inv (elapse d st).
Proof.
  unfold elapse. generalize (filter (λ t, (t_due t ≤ w_now (env st) + d)%N) (timers st)).
  generalize (w_now (env st) + d)%N. intros target due. revert st.
  induction due as [|t due IH]; intros st Hinv; [done|].
  cbn [foldl]. by apply IH, fire_timers_inv.
Qed.

(** Before the handler of [w] arms a timer, no timer of [w] is armed
    any more, and the timers of the other watchers are as they were. *)
Lemma on_change_cleared w st fw :
  timers_inv st →
  fswatchers st !! w = Some fw →
  timers (match fw_debounceTimer fw with
          | Some id => clearTimeout id st
          | None => st
          end) = timers_of_others w st.
Proof.
  intros (Hnd & Ht & Hw) Hfw. unfold timers_of_others.
  assert (handle st w = fw_debounceTimer fw) as Hh.
  { unfold handle. by rewrite Hfw. }
  destruct (fw_debounceTimer fw) as [id|].
  - cbn [clearTimeout set_timers timers].
    destruct (Hw w id Hh) as [_ Hown].
    apply filter_agree. intros t Hin. split.
    + intros Hid Ho. apply Hid. destruct (Ht t Hin) as [_ Hht].
      rewrite Ho, Hh in Hht. by injection Hht.
    + intros Ho Hid. apply Ho. by apply Hown.
  - symmetry. apply filter_all. intros t Hin Ho.
    destruct (Ht t Hin) as [_ Hht]. rewrite Ho, Hh in Hht. done.
Qed.

Lemma on_change_shape w st fw :
  fswatchers st !! w = Some fw →
  let st1 := match fw_debounceTimer fw with
             | Some id => clearTimeout id st
             | None => st
             end in
  on_change w st =
  State (watchers st) (onSnapshotCallback st)
        (<[w := FSWatcher (fw_slug fw) (fw_fileName fw) (fw_filePath fw)
                          (Some (next_timer st)) (fw_closed fw)]> (fswatchers st))
        (timers st1 ++ [Timer (next_timer st) (w_now (env st) + DEBOUNCE_MS) w])
        (S (next_timer st)) (notified st) (env st).
Proof.
  intros Hfw. cbn zeta. unfold on_change. rewrite Hfw.
  by destruct (fw_debounceTimer fw).
Qed.

Lemma on_change_timers_inv w st : timers_inv st → timers_inv (on_change w st).
Proof.
  intros Hinv. destruct (fswatchers st !! w) as [fw|] eqn:Hfw;
    [|by unfold on_change; rewrite Hfw].
  rewrite (on_change_shape w st fw Hfw), (on_change_cleared w st fw Hinv Hfw).
  destruct Hinv as (Hnd & Ht & Hw). unfold timers_of_others.
  assert (∀ t, t ∈ filter (λ t, t_owner t ≠ w) (timers st) →
               t ∈ timers st ∧ t_owner t ≠ w) as Hin.
  { intros t Hin. apply list_elem_of_filter in Hin. tauto. }
  assert (∀ w', handle
            (State (watchers st) (onSnapshotCallback st)
               (<[w := FSWatcher (fw_slug fw) (fw_fileName fw) (fw_filePath fw)
                                 (Some (next_timer st)) (fw_closed fw)]> (fswatchers st))
               (filter (λ t, t_owner t ≠ w) (timers st) ++
                [Timer (next_timer st) (w_now (env st) + DEBOUNCE_MS) w])
               (S (next_timer st)) (notified st) (env st)) w' =
          if decide (w' = w) then Some (next_timer st) else handle st w') as Hh.
  { intros w'. unfold handle. cbn [fswatchers]. case_decide as Hw'.
    - subst w'. by rewrite list_lookup_insert_eq by by eapply lookup_lt_Some.
    - by rewrite list_lookup_insert_ne. }
  split; [|split].
  - cbn [timers]. rewrite fmap_app. apply NoDup_app. split; [|split].
    + eapply sublist_NoDup; [exact Hnd|]. apply fmap_sublist, sublist_filter.
    + intros id [t [-> Hin']]%list_elem_of_fmap. cbn.
      intros Heq%list_elem_of_singleton.
      destruct (Hin t Hin') as [Hin'' _]. destruct (Ht t Hin'') as [Hlt _]. lia.
    + cbn. apply NoDup_singleton.
  - intros t. rewrite Hh. cbn [timers next_timer].
    intros [Hin'|Heq%list_elem_of_singleton]%elem_of_app.
    + destruct (Hin t Hin') as [Hin'' Ho]. destruct (Ht t Hin'') as [Hlt Hht].
      rewrite decide_False by done. split; [lia | done].
    + subst t. cbn [t_id t_owner]. rewrite decide_True by done. split; [lia | done].
  - intros w' id. rewrite Hh. cbn [timers next_timer]. case_decide as Hw'.
    + intros [= <-]. split; [lia|]. subst w'.
      intros t [Hin'|Heq%list_elem_of_singleton]%elem_of_app Hid.
      * destruct (Hin t Hin') as [Hin'' _]. destruct (Ht t Hin'') as [Hlt _]. lia.
      * by subst t.
    + intros Hid. destruct (Hw w' id Hid) as [Hlt Hown]. split; [lia|].
      intros t [Hin'|Heq%list_elem_of_singleton]%elem_of_app Hid'.
      * destruct (Hin t Hin') as [Hin'' _]. by apply Hown.
      * subst t. cbn in Hid'. lia.
Qed.

Lemma step_timers_inv st e : timers_inv st → timers_inv (step st e).
Proof.
  intros Hinv. destruct e; cbn [step]; try done.
  - destruct (fswatchers st !! w) as [fw|]; [|done].
    destruct (fw_closed fw); [done|]. by apply on_change_timers_inv.
  - by apply elapse_timers_inv.
  - by apply startWatching_timers_inv.
  - by apply stopWatching_timers_inv.
  - by apply stopAll_timers_inv.
Qed.

Lemma run_timers_inv st es : timers_inv st → timers_inv (run st es).
Proof.
  unfold run. revert st. induction es as [|e es IH]; intros st Hinv; [done|].
  cbn [foldl]. by apply IH, step_timers_inv.
Qed.

(** X20: In every state that the watcher can reach a watcher has at most one
    timer armed; and when a change is reported to a watcher that is
    open, its handler leaves exactly one timer of its own, due
    [DEBOUNCE_MS] after the report, whatever it had armed before, and
    leaves the timers of the other watchers alone. *)
Theorem one_timer_per_watcher w0 (es : list event) :
  let st := run (init_state w0) es in
  (∀ t1 t2, t1 ∈ timers st → t2 ∈ timers st →
            t_owner t1 = t_owner t2 → t1 = t2) ∧
  (∀ w fw, fswatchers st !! w = Some fw → fw_closed fw = false →
     timers_of w (step st (ChangeSeen w)) =
       [Timer (next_timer st) (w_now (env st) + DEBOUNCE_MS) w] ∧
     timers_of_others w (step st (ChangeSeen w)) = timers_of_others w st).
Proof.
  intros st.
  assert (timers_inv st) as Hinv by apply run_timers_inv, timers_inv_init.
  split.
  - destruct Hinv as (Hnd & Ht & _). intros t1 t2 H1 H2 Ho.
    destruct (Ht t1 H1) as [_ Hh1]. destruct (Ht t2 H2) as [_ Hh2].
    rewrite Ho, Hh2 in Hh1. injection Hh1 as Hid.
    apply list_elem_of_lookup in H1 as [i Hi]. apply list_elem_of_lookup in H2 as [j Hj].
    assert (i = j) as ->; [|congruence].
    eapply (NoDup_lookup _ _ _ _ Hnd).
    + by rewrite list_lookup_fmap, Hi.
    + rewrite list_lookup_fmap, Hj. cbn. by rewrite Hid.
  - intros w fw Hfw Hc. cbn [step]. rewrite Hfw, Hc.
    rewrite (on_change_shape w st fw Hfw), (on_change_cleared w st fw Hinv Hfw).
    unfold timers_of, timers_of_others. cbn [timers]. rewrite !filter_app.
    rewrite !filter_cons, !filter_nil. cbn [t_owner].
    rewrite decide_True by done. rewrite decide_False by (intros H; by apply H).
    rewrite app_nil_r. split.
    + rewrite filter_none; [done|]. intros t Hin%list_elem_of_filter. tauto.
    + apply filter_all. intros t Hin%list_elem_of_filter. tauto.
Qed.

Lemma one_timer_per_watcher_witness :
  timers_of 0 (step Scenario.armed (ChangeSeen 0)) = [Timer 1 1600 0].
Proof.
  apply (proj2 (one_timer_per_watcher Scenario.world0
    [CallOnSnapshot 1; CallStartWatching Scenario.project;
     FileWritten Scenario.file Scenario.text2; ChangeSeen 0; Elapse 100]) 0
    (FSWatcher "notes" "a.md" "/work/notes/a.md" (Some 0%nat) false));
    vm_compute; reflexivity.
Defined.

End Debounce.

(** ** The debounce window *)

Section Window.

Import Config Tracker Watcher.

Lemma on_settle_env w st fw :
  fswatchers st !! w = Some fw →
  env (on_settle w st) = (snapshot (fw_slug fw) (fw_filePath fw) (env st)).2.
Proof.
  intros Hfw. unfold on_settle. rewrite Hfw.
  destruct (snapshot _ _ _) as [o w'].
  destruct o as [[h|]|e]; cbn [set_env onSnapshotCallback snd]; [|done..].
  destruct (onSnapshotCallback st); [|done]. by case_decide.
Qed.

Lemma set_now_set_now a b w : set_now a (set_now b w) = set_now a w.
Proof. done. Qed.

(** X21: A change, a pause shorter than the window, and a second change: the
    first timer is cancelled, and what follows depends on the pause
    after the second change alone.  When it is shorter than
    [DEBOUNCE_MS] nothing was recorded and one timer is armed, due
    [DEBOUNCE_MS] after the second change; otherwise [snapshot] ran,
    once, at that moment, and no timer is left. *)
Theorem debounce_restarts_window st w fw (d1 d2 : N) :
  timers st = [] →
  fswatchers st !! w = Some fw →
  fw_closed fw = false →
  (d1 < DEBOUNCE_MS)%N →
  let st' := run st [ChangeSeen w; Elapse d1; ChangeSeen w; Elapse d2] in
  let now := w_now (env st) in
  ((d2 < DEBOUNCE_MS)%N →
   env st' = set_now (now + d1 + d2) (env st) ∧
   timers st' = [Timer (S (next_timer st)) (now + d1 + DEBOUNCE_MS) w]) ∧
  ((DEBOUNCE_MS ≤ d2)%N →
   env st' =
     set_now (now + d1 + d2)
       (snapshot (fw_slug fw) (fw_filePath fw)
          (set_now (now + d1 + DEBOUNCE_MS) (env st))).2 ∧
   timers st' = []).
Proof.
  intros Hts Hfw Hc Hd1. cbn zeta. unfold run. cbn [foldl].
  assert (step st (ChangeSeen w) =
          State (watchers st) (onSnapshotCallback st)
            (<[w := FSWatcher (fw_slug fw) (fw_fileName fw) (fw_filePath fw)
                              (Some (next_timer st)) false]> (fswatchers st))
            [Timer (next_timer st) (w_now (env st) + DEBOUNCE_MS) w]
            (S (next_timer st)) (notified st) (env st)) as ->.
  { cbn [step]. rewrite Hfw, Hc, (on_change_shape w st fw Hfw), Hc.
    by destruct (fw_debounceTimer fw); cbn [clearTimeout set_timers timers];
      rewrite Hts. }
  set (fs1 := <[w := _]> (fswatchers st)).
  assert (fs1 !! w = Some (FSWatcher (fw_slug fw) (fw_fileName fw) (fw_filePath fw)
                                     (Some (next_timer st)) false)) as Hfw1.
  { subst fs1. apply list_lookup_insert_eq. by eapply lookup_lt_Some. }
  assert (∀ st0, timers st0 = [Timer (next_timer st) (w_now (env st) + DEBOUNCE_MS) w] →
                 env st0 = env st →
                 step st0 (Elapse d1) = set_env (set_now (w_now (env st) + d1) (env st)) st0)
    as Hel1.
  { intros st0 Ht0 He0. cbn [step]. unfold elapse. rewrite Ht0, He0.
    rewrite filter_cons, decide_False by (cbn [t_due]; lia).
    rewrite filter_nil. cbn [foldl]. by rewrite He0. }
  rewrite Hel1 by done. unfold set_env. cbn [watchers onSnapshotCallback fswatchers timers
                             next_timer notified env].
  assert (∀ e0, step (State (watchers st) (onSnapshotCallback st) fs1
                   [Timer (next_timer st) (w_now (env st) + DEBOUNCE_MS) w]
                   (S (next_timer st)) (notified st) e0) (ChangeSeen w) =
          State (watchers st) (onSnapshotCallback st)
            (<[w := FSWatcher (fw_slug fw) (fw_fileName fw) (fw_filePath fw)
                              (Some (S (next_timer st))) false]> fs1)
            [Timer (S (next_timer st)) (w_now e0 + DEBOUNCE_MS) w]
            (S (S (next_timer st))) (notified st) e0) as ->.
  { intros e0. cbn [step fswatchers]. rewrite Hfw1. cbn [fw_closed].
    erewrite on_change_shape by exact Hfw1.
    cbn [fw_debounceTimer clearTimeout set_timers timers fw_slug fw_fileName
         fw_filePath fw_closed watchers onSnapshotCallback fswatchers next_timer
         notified env].
    rewrite filter_cons, decide_False by (cbn [t_id]; intros H; by apply H).
    done. }
  set (fs2 := <[w := _]> fs1).
  assert (fs2 !! w = Some (FSWatcher (fw_slug fw) (fw_fileName fw) (fw_filePath fw)
                                     (Some (S (next_timer st))) false)) as Hfw2.
  { subst fs2. apply list_lookup_insert_eq. by eapply lookup_lt_Some. }
  cbn [w_now set_now]. split.
  - intros Hd2. cbn [step]. unfold elapse.
    cbn [timers env w_now set_now].
    rewrite filter_cons, decide_False by (cbn [t_due]; lia).
    rewrite filter_nil. cbn [foldl set_env env timers]. split; done.
  - intros Hd2. cbn [step]. unfold elapse.
    cbn [timers env w_now set_now].
    rewrite filter_cons, decide_True by (cbn [t_due]; lia).
    rewrite filter_nil. cbn [foldl]. unfold fire.
    cbn [timers t_id fmap list_fmap]. rewrite decide_True by apply list_elem_of_here.
    unfold clearTimeout, set_timers, set_env.
    cbn [timers env watchers onSnapshotCallback
         fswatchers next_timer notified t_owner t_due w_now set_now].
    rewrite filter_cons, decide_False by (cbn [t_id]; intros H; by apply H).
    rewrite filter_nil. rewrite N.max_r by lia.
    match goal with |- context [on_settle w ?s] =>
      pose proof (on_settle_env w s _ Hfw2) as Henv;
      destruct (on_settle_tables w s) as (_ & _ & Htm) end.
    rewrite Htm, Henv. cbn [fw_slug fw_filePath env timers]. split; [|done].
    by rewrite set_now_set_now.
Qed.

Lemma debounce_restarts_window_witness :
  timers (run Scenario.watching
            [ChangeSeen 0; Elapse 100; ChangeSeen 0; Elapse 500]) = [].
Proof.
  apply (proj2 (debounce_restarts_window Scenario.watching 0
    (FSWatcher "notes" "a.md" "/work/notes/a.md" None false) 100 500
    eq_refl eq_refl eq_refl eq_refl)).
  vm_compute. discriminate.
Defined.

Lemma startWatching_env project st :
  env (startWatching project st) = env st ∧
  notified (startWatching project st) = notified st.
Proof.
  unfold startWatching. revert st.
  induction (p_files project) as [|f fs IH]; intros st; [done|].
  cbn [foldl]. destruct (IH (start_one (p_slug project) (p_dir project) st f)) as [-> ->].
  by destruct (start_one_env (p_slug project) (p_dir project) st f) as (-> & _ & _ & ->).
Qed.

Lemma stopWatching_env slug fileName st :
  env (stopWatching slug fileName st) = env st ∧
  notified (stopWatching slug fileName st) = notified st.
Proof.
  unfold stopWatching. generalize (map_to_list (watchers st)). intros l.
  revert st. induction l as [|ke l IH]; intros st; [done|].
  cbn [foldl]. destruct (IH (stop_one slug fileName st ke)) as [-> ->].
  unfold stop_one. destruct (stop_matches slug fileName ke.1 ke.2); [|done].
  cbn [set_watchers env notified]. apply close_env.
Qed.

Lemma stopAll_env st :
  env (stopAll st) = env st ∧ notified (stopAll st) = notified st.
Proof.
  unfold stopAll. cbn [set_watchers env notified].
  generalize (map_to_list (watchers st)). intros l.
  revert st. induction l as [|ke l IH]; intros st; [done|].
  cbn [foldl]. destruct (IH (close (watcher ke.2) st)) as [-> ->]. apply close_env.
Qed.

Lemma on_change_env w st :
  env (on_change w st) = env st ∧ notified (on_change w st) = notified st.
Proof.
  unfold on_change. destruct (fswatchers st !! w) as [fw|]; [|done].
  by destruct (fw_debounceTimer fw).
Qed.

(** X22: Only a timer records a revision or calls the callback: no call of
    an exported function of the watcher, no change of a file and no
    report of a change touches the repositories or calls the callback
    ([startWatching], in particular, takes no first snapshot), and
    neither does the passing of time while no timer is due. *)
Theorem only_timers_commit st (e : event) :
  match e with
  | Elapse d => ∀ t, t ∈ timers st → (w_now (env st) + d < t_due t)%N
  | _ => True
  end →
  w_repos (env (step st e)) = w_repos (env st) ∧
  notified (step st e) = notified st ∧
  (∀ path, match e with
           | FileWritten p _ | FileRemoved p => path ≠ p
           | _ => True
           end →
           w_fs (env (step st e)) !! path = w_fs (env st) !! path).
Proof.
  destruct e as [p c|p|w|d|cb|project|slug fileName|]; cbn [step]; intros He.
  - split; [done|]. split; [done|]. intros path Hne. cbn. by rewrite lookup_insert_ne.
  - split; [done|]. split; [done|]. intros path Hne. cbn. by rewrite lookup_delete_ne.
  - destruct (fswatchers st !! w) as [fw|]; [|done].
    destruct (fw_closed fw); [done|].
    by destruct (on_change_env w st) as [-> ->].
  - unfold elapse. rewrite filter_none; [done|].
    intros t Hin Hdue. specialize (He t Hin). lia.
  - done.
  - by destruct (startWatching_env project st) as [-> ->].
  - by destruct (stopWatching_env slug fileName st) as [-> ->].
  - by destruct (stopAll_env st) as [-> ->].
Qed.

Lemma only_timers_commit_witness :
  w_repos (env (step Scenario.armed (Elapse 399))) = w_repos (env Scenario.armed).
Proof.
  apply (only_timers_commit Scenario.armed (Elapse 399)).
  intros t Hin. vm_compute in Hin.
  apply list_elem_of_singleton in Hin. subst t. vm_compute. reflexivity.
Defined.

End Window.

(** ** Resolved paths *)

Section Paths.

Import Path.

Lemma split_go_free sep cur s :
  all_chars (λ a, a ≠ sep) s →
  split_go sep cur s = [String.rev_app cur s].
Proof.
  revert cur. induction s as [|a s IH]; intros cur Hs; [done|].
  destruct Hs as [Ha Hs]. cbn [split_go]. rewrite decide_False by done.
  by rewrite IH.
Qed.

Lemma split_go_sep sep cur x rest :
  all_chars (λ a, a ≠ sep) x →
  split_go sep cur (x +:+ String sep rest) =
  String.rev_app cur x :: split_go sep "" rest.
Proof.
  revert cur. induction x as [|a x IH]; intros cur Hx.
  - change ("" +:+ String sep rest) with (String sep rest).
    cbn [split_go]. by rewrite decide_True.
  - destruct Hx as [Ha Hx]. rewrite app_cons. cbn [split_go].
    rewrite decide_False by done. by rewrite IH.
Qed.

Lemma split_go_pieces sep cur s :
  all_chars (λ a, a ≠ sep) cur →
  Forall (all_chars (λ a, a ≠ sep)) (split_go sep cur s).
Proof.
  revert cur. induction s as [|a s IH]; intros cur Hcur; cbn [split_go].
  - apply Forall_singleton. by apply all_chars_rev_app.
  - case_decide.
    + apply Forall_cons. split; [by apply all_chars_rev_app | by apply IH].
    + apply IH. by split.
Qed.

Lemma split_join (l : list string) :
  l ≠ [] →
  Forall (all_chars (λ a, a ≠ "/"%char)) l →
  split "/" (join_with "/" l) = l.
Proof.
  induction l as [|x l IH]; intros Hne Hl; [done|].
  apply Forall_cons in Hl as [Hx Hl]. destruct l as [|y l].
  - cbn [join_with]. unfold split. by rewrite split_go_free.
  - change (join_with "/" (x :: y :: l)) with (x +:+ "/" +:+ join_with "/" (y :: l)).
    unfold split.
    change ("/" +:+ join_with "/" (y :: l)) with (String "/" (join_with "/" (y :: l))).
    rewrite split_go_sep by done. cbn [String.rev_app]. f_equal.
    by apply IH.
Qed.

Lemma segments_join (l : list string) :
  Forall component l →
  segments ("/" +:+ join_with "/" l) = l.
Proof.
  intros Hl. unfold segments, split.
  change ("/" +:+ join_with "/" l) with (String "/" (join_with "/" l)).
  cbn [split_go]. rewrite decide_True by done.
  rewrite filter_cons, decide_False by (intros H; by apply H).
  destruct l as [|x l]; [done|].
  fold (split "/" (join_with "/" (x :: l))). rewrite split_join.
  - apply filter_all. intros y Hy. rewrite Forall_forall in Hl. by apply Hl.
  - done.
  - eapply Forall_impl; [exact Hl|]. by intros y [_ ?].
Qed.

Lemma segments_components p : Forall component (segments p).
Proof.
  unfold segments. apply Forall_forall. intros x [Hx Hin]%list_elem_of_filter.
  split; [done|].
  pose proof (split_go_pieces "/" "" p I) as Hall.
  rewrite Forall_forall in Hall. by apply Hall.
Qed.

Lemma norm_loop_plain acc l :
  Forall plain acc → Forall component l → Forall plain (foldl norm_step acc l).
Proof.
  revert acc. induction l as [|x l IH]; intros acc Hacc Hl; [done|].
  apply Forall_cons in Hl as [Hx Hl]. cbn [foldl]. apply IH; [|done].
  unfold norm_step. repeat case_decide; [done| |by apply Forall_cons].
  destruct acc; [done|]. cbn [tail]. by apply Forall_cons in Hacc as [_ ?].
Qed.

Lemma norm_loop_id acc l :
  Forall plain l → foldl norm_step acc l = rev l ++ acc.
Proof.
  revert acc. induction l as [|x l IH]; intros acc Hl; [done|].
  apply Forall_cons in Hl as [(_ & H1 & H2) Hl]. cbn [foldl rev].
  rewrite IH by done. unfold norm_step. rewrite !decide_False by done.
  by rewrite <- app_assoc.
Qed.

Lemma resolved_segments_plain cwd p : Forall plain (resolved_segments cwd p).
Proof.
  unfold resolved_segments, normalize_segments. apply Forall_rev.
  apply norm_loop_plain; [constructor | apply segments_components].
Qed.

Lemma plain_components (l : list string) : Forall plain l → Forall component l.
Proof. intros Hl. eapply Forall_impl; [exact Hl|]. by intros x [? _]. Qed.

(** A path that is written from components that [path.resolve] keeps
    resolves to itself. *)
Lemma resolve_joined cwd (l : list string) :
  Forall plain l →
  resolve cwd ("/" +:+ join_with "/" l) = "/" +:+ join_with "/" l.
Proof.
  intros Hl. unfold resolve, resolved_segments.
  change (is_absolute ("/" +:+ join_with "/" l)) with true. cbn match.
  rewrite segments_join by by apply plain_components.
  unfold normalize_segments. rewrite norm_loop_id by done.
  by rewrite app_nil_r, rev_involutive.
Qed.

Lemma resolve_idem cwd p : resolve cwd (resolve cwd p) = resolve cwd p.
Proof. apply resolve_joined, resolved_segments_plain. Qed.

Lemma Forall_removelast {A} (P : A → Prop) (l : list A) :
  Forall P l → Forall P (removelast l).
Proof.
  induction l as [|x l IH]; [done|]. intros [Hx Hl]%Forall_cons.
  cbn [removelast]. destruct l; [constructor|]. apply Forall_cons. auto.
Qed.

Lemma resolve_dirname cwd p :
  resolve cwd (dirname (resolve cwd p)) = dirname (resolve cwd p).
Proof.
  unfold dirname. apply resolve_joined, Forall_removelast.
  unfold resolve. rewrite segments_join.
  - apply resolved_segments_plain.
  - apply plain_components, resolved_segments_plain.
Qed.

(** X23: The handlers of [/watch] and [/unwatch] compute the slug of a file
    on their own, as [projectSlug(dirname(resolve(arg)))], while
    [addFileToConfig] and [removeFileFromConfig] resolve the path once
    more on the way: both name the same project, with the same
    directory, for every argument and working directory. *)
Theorem command_slug_agrees cwd arg :
  let absPath := resolve cwd arg in
  Utils.projectDirFromFile cwd absPath = dirname absPath ∧
  Utils.projectSlug cwd (Utils.projectDirFromFile cwd absPath) =
    Utils.projectSlug cwd (dirname absPath) ∧
  Utils.projectSlug cwd (dirname absPath) =
    Utils.sanitize (basename (dirname absPath)) ∧
  resolve cwd absPath = absPath.
Proof.
  cbn zeta. unfold Utils.projectDirFromFile, Utils.projectSlug.
  by rewrite resolve_idem, resolve_dirname.
Qed.

End Paths.

(** ** The registry and the table of watches *)

Section Commands.

Import Utils Config Tracker Watcher App.

Lemma strip_prefix_rev_app (s a b : string) :
  strip_prefix (String.rev_app s a) (String.rev_app s b) = strip_prefix a b.
Proof.
  revert a b. induction s as [|c s IH]; intros a b; [done|].
  cbn [String.rev_app]. rewrite IH. cbn [strip_prefix]. by rewrite decide_True.
Qed.

Lemma endsWith_app (pre suf : string) : endsWith (pre +:+ suf) suf = true.
Proof.
  unfold endsWith, String.rev. rewrite rev_app_app, strip_prefix_rev_app.
  apply bool_decide_eq_true. cbn [strip_prefix]. eauto.
Qed.

Lemma stop_matches_own slug base e :
  Watcher.slug e = slug →
  stop_matches slug (Some base) (key_of slug base) e = true.
Proof.
  intros He. unfold stop_matches. rewrite bool_decide_eq_true_2 by done.
  cbn [andb]. destruct base as [|a base]; [done|]. cbn [truthy].
  apply (endsWith_app slug (":" +:+ String a base)).
Qed.

(** What [find] finds in the registry after [addFileToConfig] and after
    [removeFileFromConfig]. *)
Lemma add_find cwd config filePath slug' :
  let absPath := Path.resolve cwd filePath in
  let dir := projectDirFromFile cwd absPath in
  let slug := projectSlug cwd dir in
  let fileName := Path.basename absPath in
  find_project slug' (projects (addFileToConfig cwd config filePath)) =
  if decide (slug' = slug)
  then Some (push_file fileName
               (default (Build_ProjectConfig slug dir [])
                        (find_project slug (projects config))))
  else find_project slug' (projects config).
Proof.
  intros absPath dir slug fileName.
  unfold addFileToConfig. fold absPath dir slug fileName. cbn [projects].
  case_decide as Hs.
  - subst slug'. rewrite find_update_found by apply push_file_slug.
    destruct (find_project slug (projects config)) as [q|] eqn:E; [by rewrite E|].
    rewrite find_project_app, E, find_project_cons. cbn. by rewrite decide_True.
  - rewrite find_update_other by (done || apply push_file_slug).
    destruct (find_project slug (projects config)) eqn:E; [done|].
    rewrite find_project_app, find_project_cons. cbn.
    rewrite decide_False by done. by destruct (find_project slug' (projects config)).
Qed.

Lemma remove_find cwd config filePath slug' :
  let absPath := Path.resolve cwd filePath in
  let slug := projectSlug cwd (projectDirFromFile cwd absPath) in
  let fileName := Path.basename absPath in
  find_project slug' (projects (removeFileFromConfig cwd config filePath)) =
  if decide (slug' = slug)
  then find_project slug (projects config) ≫=
         (λ p, if decide (p_files (drop_file fileName p) = [])
               then None else Some (drop_file fileName p))
  else find_project slug' (projects config).
Proof.
  intros absPath slug fileName.
  unfold removeFileFromConfig. fold absPath slug fileName.
  destruct (find_project slug (projects config)) as [p|] eqn:E.
  2:{ case_decide; [subst slug'; by rewrite E | done]. }
  cbn [mbind option_bind].
  destruct (decide (length (p_files (drop_file fileName p)) = 0%nat)) as [Hl|Hl];
    cbn [projects].
  - apply length_zero_iff_nil in Hl. rewrite (decide_True _ _ Hl).
    case_decide as Hs.
    + subst slug'. apply find_filter_same.
    + rewrite find_filter_other by done.
      by apply find_update_other.
  - assert (p_files (drop_file fileName p) ≠ []) as Hne.
    { intros Hnil. apply Hl. by rewrite Hnil. }
    rewrite (decide_False _ _ Hne).
    case_decide as Hs.
    + subst slug'. rewrite find_update_found by apply drop_file_slug. by rewrite E.
    + by apply find_update_other.
Qed.

Lemma add_registered cwd config filePath k e :
  registered config k e → registered (addFileToConfig cwd config filePath) k e.
Proof.
  intros (p & f & Hp & Hf & Hk). unfold registered. rewrite add_find.
  case_decide as Hs; [|by exists p, f].
  rewrite <- Hs, Hp. cbn [default]. exists (push_file (Path.basename (Path.resolve cwd filePath)) p), f.
  split; [done|]. split; [|done].
  unfold push_file. case_decide; [done|]. cbn [p_files]. apply elem_of_app. by left.
Qed.

Lemma remove_registered cwd config arg k e :
  registered config k e →
  stop_matches (projectSlug cwd (Path.dirname (Path.resolve cwd arg)))
               (Some (Path.basename (Path.resolve cwd arg))) k e = false →
  registered (removeFileFromConfig cwd config arg) k e.
Proof.
  intros (p & f & Hp & Hf & Hk) Hm. unfold registered. rewrite remove_find.
  unfold projectDirFromFile. rewrite resolve_idem.
  case_decide as Hs; [|by exists p, f].
  rewrite <- Hs, Hp. cbn [mbind option_bind].
  assert (f ≠ Path.basename (Path.resolve cwd arg)) as Hne.
  { intros ->. rewrite Hk, <- Hs in Hm. by rewrite stop_matches_own in Hm. }
  assert (f ∈ p_files (drop_file (Path.basename (Path.resolve cwd arg)) p)) as Hin.
  { cbn [drop_file p_files]. by apply list_elem_of_filter. }
  rewrite decide_False by (intros Hnil; rewrite Hnil in Hin; by apply elem_of_nil in Hin).
  by eexists _, f.
Qed.

Lemma add_slugs_ok cwd config filePath :
  slugs_ok config → slugs_ok (addFileToConfig cwd config filePath).
Proof.
  intros [Hnd Hc]. split; [by apply addFileToConfig_NoDup|].
  unfold addFileToConfig. cbn [projects].
  rewrite update_found_slugs by apply push_file_slug.
  destruct (find_project _ (projects config)); [done|].
  rewrite fmap_app. apply Forall_app. split; [done|].
  apply Forall_singleton. cbn [p_slug]. unfold projectSlug.
  eapply all_chars_impl; [|apply sanitize_chars]. by intros a Ha ->.
Qed.

Lemma remove_slugs_ok cwd config filePath :
  slugs_ok config → slugs_ok (removeFileFromConfig cwd config filePath).
Proof.
  intros [Hnd Hc]. split; [by apply removeFileFromConfig_NoDup|].
  unfold removeFileFromConfig.
  destruct (find_project _ (projects config)); [|done].
  assert (Forall (all_chars (λ a, a ≠ ":"%char))
            (p_slug <$> update_found
               (projectSlug cwd (projectDirFromFile cwd (Path.resolve cwd filePath)))
               (drop_file (Path.basename (Path.resolve cwd filePath)))
               (projects config))) as Hc'.
  { by rewrite update_found_slugs. }
  case_decide; cbn [projects]; [|done].
  rewrite Forall_fmap in Hc'. rewrite Forall_fmap.
  rewrite Forall_forall in Hc'. apply Forall_forall.
  intros q [_ Hq]%list_elem_of_filter. by apply Hc'.
Qed.

(** The entries that the loop of [startWatching] adds to the table. *)
Lemma start_one_entries (R : string → WatcherEntry → Prop) slug dir st f :
  (∀ k e, watchers st !! k = Some e → R k e) →
  (∀ w path, R (key_of slug f) (Build_WatcherEntry w path slug)) →
  ∀ k e, watchers (start_one slug dir st f) !! k = Some e → R k e.
Proof.
  intros Hold Hnew k e. unfold start_one. case_decide; [apply Hold|].
  cbn [set_watchers set_fswatchers watchers]. rewrite lookup_insert.
  case_decide as Hk; [|apply Hold]. intros [= <-]. subst k. apply Hnew.
Qed.

Lemma startWatching_entries (R : string → WatcherEntry → Prop) project st :
  (∀ k e, watchers st !! k = Some e → R k e) →
  (∀ f w path, f ∈ p_files project →
               R (key_of (p_slug project) f) (Build_WatcherEntry w path (p_slug project))) →
  ∀ k e, watchers (startWatching project st) !! k = Some e → R k e.
Proof.
  unfold startWatching. revert st.
  induction (p_files project) as [|f fs IH]; intros st Hold Hnew; [done|].
  cbn [foldl]. apply IH.
  - apply start_one_entries; [done|]. intros w path. apply Hnew, elem_of_cons. by left.
  - intros f' w path Hf'. apply Hnew, elem_of_cons. by right.
Qed.

Lemma find_project_unique ps p :
  NoDup (p_slug <$> ps) → p ∈ ps → find_project (p_slug p) ps = Some p.
Proof.
  induction ps as [|q ps IH]; intros Hnd Hin; [by apply elem_of_nil in Hin|].
  rewrite fmap_cons in Hnd. apply NoDup_cons in Hnd as [Hq Hnd].
  rewrite find_project_cons. apply elem_of_cons in Hin as [->|Hin].
  - by rewrite decide_True.
  - rewrite decide_False; [by apply IH|].
    intros Hs. apply Hq. rewrite Hs. apply list_elem_of_fmap. by exists p.
Qed.

Lemma startWatching_registered config project st :
  find_project (p_slug project) (projects config) = Some project →
  (∀ k e, watchers st !! k = Some e → registered config k e) →
  ∀ k e, watchers (startWatching project st) !! k = Some e → registered config k e.
Proof.
  intros Hp Hold. apply startWatching_entries; [done|].
  intros f w path Hf. by exists project, f.
Qed.

Lemma startApp_inv cwd loaded initialFilePath cb w :
  slugs_ok loaded → app_inv (startApp cwd loaded initialFilePath cb w).
Proof.
  intros Hok. unfold startApp.
  set (config := match truthy initialFilePath with
                 | Some f => addFileToConfig cwd loaded f
                 | None => loaded
                 end).
  assert (slugs_ok config) as Hok'.
  { subst config. destruct (truthy initialFilePath); [by apply add_slugs_ok | done]. }
  split; [done|]. cbn [a_watcher a_config].
  assert (∀ ps st,
            (∀ p, p ∈ ps → p ∈ projects config) →
            (∀ k e, watchers st !! k = Some e → registered config k e) →
            ∀ k e, watchers (foldl (λ st project, startWatching project st) st ps) !! k
                   = Some e → registered config k e) as Hloop.
  { induction ps as [|p ps IH]; intros st Hsub Hold; [done|].
    cbn [foldl]. apply IH.
    - intros q Hq. apply Hsub, elem_of_cons. by right.
    - apply startWatching_registered; [|done].
      apply find_project_unique; [apply Hok'|]. apply Hsub, elem_of_cons. by left. }
  apply Hloop; [done|]. intros k e H.
  unfold onSnapshot, init_state in H. cbn [watchers] in H.
  by rewrite lookup_empty in H.
Qed.

Lemma on_change_watchers w st : watchers (on_change w st) = watchers st.
Proof.
  unfold on_change. destruct (fswatchers st !! w) as [fw|]; [|done].
  by destruct (fw_debounceTimer fw).
Qed.

Lemma cmd_watch_inv cwd arg a : app_inv a → app_inv (cmd_watch cwd arg a).
Proof.
  intros [Hok Hreg]. unfold cmd_watch. case_decide; [done|].
  destruct (snapshot _ _ _) as [res w'].
  assert (∀ k e, watchers (set_env w' (a_watcher a)) !! k = Some e →
                 registered (addFileToConfig cwd (a_config a) arg) k e) as Hreg'.
  { intros k e He. by apply add_registered, Hreg. }
  destruct res as [r|err]; [|by split; [apply add_slugs_ok|]].
  destruct (find_project _ _) as [p|] eqn:Hp; [|by split; [apply add_slugs_ok|]].
  split; [by apply add_slugs_ok|]. cbn [a_watcher a_config].
  apply startWatching_registered; [|done].
  by destruct (find_project_slug _ _ _ Hp) as [-> _].
Qed.

Lemma cmd_unwatch_inv cwd arg a : app_inv a → app_inv (cmd_unwatch cwd arg a).
Proof.
  intros [Hok Hreg]. unfold cmd_unwatch. case_decide; [done|].
  split; [by apply remove_slugs_ok|]. cbn [a_watcher a_config].
  intros k e. rewrite stopWatching_lookup.
  destruct (watchers (a_watcher a) !! k) as [e0|] eqn:He0; [|done]. cbn.
  destruct (stop_matches _ _ k e0) eqn:Hm; [done|]. intros [= <-].
  apply remove_registered; [by apply Hreg | done].
Qed.

Lemma app_step_inv cwd a e : app_inv a → app_inv (app_step cwd a e).
Proof.
  intros Hinv. destruct e; cbn [app_step];
    [by apply cmd_watch_inv | by apply cmd_unwatch_inv | | | |];
    destruct Hinv as [Hok Hreg]; (split; [done|]); cbn [a_watcher a_config step].
  - done.
  - done.
  - destruct (fswatchers (a_watcher a) !! w) as [fw|]; [|done].
    destruct (fw_closed fw); [done|]. by rewrite on_change_watchers.
  - by destruct (elapse_tables d (a_watcher a)) as [-> _].
Qed.

Lemma app_run_inv cwd a es : app_inv a → app_inv (app_run cwd a es).
Proof.
  unfold app_run. revert a. induction es as [|e es IH]; intros a Hinv; [done|].
  cbn [foldl]. by apply IH, app_step_inv.
Qed.

(** X24: Whatever commands are entered and whatever happens outside, every
    entry of the table of watches is a file of the registry: the project
    that the registry finds for the slug of the entry lists a file whose
    key is the key of the entry, and [isWatching] answers [true] for
    it.  The registry that was loaded must name its projects by slugs
    that differ. *)
Theorem watched_files_registered cwd loaded initialFilePath cb w (es : list app_event) :
  slugs_ok loaded →
  let a := app_run cwd (startApp cwd loaded initialFilePath cb w) es in
  ∀ k e, watchers (a_watcher a) !! k = Some e →
    ∃ p f, find_project (slug e) (projects (a_config a)) = Some p ∧
           f ∈ p_files p ∧ k = key_of (slug e) f ∧
           isWatching (slug e) f (a_watcher a) = true.
Proof.
  intros Hok a k e He.
  assert (app_inv a) as [_ Hreg] by by apply app_run_inv, startApp_inv.
  destruct (Hreg k e He) as (p & f & Hp & Hf & Hk).
  exists p, f. split; [done|]. split; [done|]. split; [done|].
  unfold isWatching. apply bool_decide_eq_true. rewrite <- Hk. eauto.
Qed.

Lemma watched_files_registered_witness :
  ∃ p f, find_project "notes"
           (projects (a_config (app_run "/" (startApp "/" (Build_AppConfig [] None)
                                   None 1 Scenario.world0)
                                  [Watch Scenario.file]))) = Some p ∧
         f ∈ p_files p ∧ "notes:a.md" = key_of "notes" f ∧
         isWatching "notes" f
           (a_watcher (app_run "/" (startApp "/" (Build_AppConfig [] None)
                                      None 1 Scenario.world0)
                         [Watch Scenario.file])) = true.
Proof.
  apply (watched_files_registered "/" (Build_AppConfig [] None) None 1
           Scenario.world0 [Watch Scenario.file]
           (conj (NoDup_nil_2 : NoDup (p_slug <$> [])) (Forall_nil_2 _))
           "notes:a.md" (Build_WatcherEntry 0 "/work/notes/a.md" "notes")).
  vm_compute. reflexivity.
Defined.

Lemma colon_free_slug (s : string) : all_chars (λ a, a ≠ ":"%char) (sanitize s).
Proof. eapply all_chars_impl; [|apply sanitize_chars]. by intros a Ha ->. Qed.

(** X25: [/unwatch] in a state that the application can reach: afterwards
    [isWatching] answers [false] for the file and the registry does not
    list it; the watches of other projects and the file system stay as
    they were. *)
Theorem unwatch_command cwd loaded initialFilePath cb w (es : list app_event) arg :
  slugs_ok loaded →
  arg ≠ "" →
  let a := app_run cwd (startApp cwd loaded initialFilePath cb w) es in
  let absPath := Path.resolve cwd arg in
  let slug := projectSlug cwd (Path.dirname absPath) in
  let fileName := Path.basename absPath in
  let a' := cmd_unwatch cwd arg a in
  isWatching slug fileName (a_watcher a') = false ∧
  (∀ p, find_project slug (projects (a_config a')) = Some p →
        (fileName ∉ p_files p) ∧ p_files p ≠ []) ∧
  (∀ k e, watchers (a_watcher a) !! k = Some e → Watcher.slug e ≠ slug →
          watchers (a_watcher a') !! k = Some e) ∧
  env (a_watcher a') = env (a_watcher a).
Proof.
  intros Hok Harg a absPath slug fileName a'.
  assert (app_inv a) as [[_ Hcolon] Hreg] by by apply app_run_inv, startApp_inv.
  subst a'. unfold cmd_unwatch. rewrite decide_False by done.
  fold absPath slug fileName. cbn [a_watcher a_config].
  split; [|split; [|split]].
  - unfold isWatching. apply bool_decide_eq_false. intros [e He].
    rewrite stopWatching_lookup in He.
    destruct (watchers (a_watcher a) !! key_of slug fileName) as [e0|] eqn:He0; [|done].
    cbn in He. destruct (stop_matches slug (Some fileName) _ e0) eqn:Hm; [done|].
    destruct (Hreg _ _ He0) as (p & f & Hp & Hf & Hk).
    destruct (find_project_slug _ _ _ Hp) as [Hps Hpin].
    assert (all_chars (λ a, a ≠ ":"%char) (Watcher.slug e0)) as Hc0.
    { rewrite Forall_fmap, Forall_forall in Hcolon. rewrite <- Hps. by apply Hcolon. }
    apply key_of_inj in Hk as [Hs _]; [|apply colon_free_slug|done].
    rewrite stop_matches_own in Hm; done.
  - intros p. rewrite remove_find. unfold projectDirFromFile.
    rewrite resolve_idem. fold absPath slug fileName.
    rewrite decide_True by done.
    destruct (find_project slug (projects (a_config a))) as [q|]; [|done].
    cbn [mbind option_bind]. case_decide as Hnil; [done|]. intros [= <-].
    split; [|done]. cbn [drop_file p_files].
    by intros [Hne _]%list_elem_of_filter.
  - intros k e He Hs. rewrite stopWatching_lookup, He. cbn.
    unfold stop_matches. by rewrite bool_decide_eq_false_2.
  - apply stopWatching_env.
Qed.

Lemma unwatch_command_witness :
  isWatching "notes" "a.md"
    (a_watcher (cmd_unwatch "/" Scenario.file
                  (app_run "/" (startApp "/" (Build_AppConfig [] None)
                                  None 1 Scenario.world0)
                     [Watch Scenario.file]))) = false.
Proof.
  apply (unwatch_command "/" (Build_AppConfig [] None) None 1
           Scenario.world0 [Watch Scenario.file] Scenario.file
           (conj (NoDup_nil_2 : NoDup (p_slug <$> [])) (Forall_nil_2 _))).
  vm_compute. discriminate.
Defined.

Lemma push_file_dir fileName q : p_dir (push_file fileName q) = p_dir q.
Proof. unfold push_file. by case_decide. Qed.

Lemma key_of_inj_file slug : Inj (=) (=) (key_of slug).
Proof.
  intros f1 f2 H. unfold key_of in H.
  apply (inj (String.app slug)) in H. by injection H.
Qed.

Lemma start_one_other slug dir st fileName key :
  key ≠ key_of slug fileName →
  watchers (start_one slug dir st fileName) !! key = watchers st !! key.
Proof.
  intros Hne. unfold start_one. case_decide; [done|].
  cbn [set_watchers set_fswatchers watchers]. by rewrite lookup_insert_ne.
Qed.

(** The watch that a key has after the loop of [startWatching]: the one
    it had, or a new one on [join(dir, fileName)]. *)
Lemma start_loop_entry slug dir (fs : list string) st f :
  f ∈ fs →
  ∃ e, watchers (foldl (start_one slug dir) st fs) !! key_of slug f = Some e ∧
       (watchers st !! key_of slug f = Some e ∨
        watchers st !! key_of slug f = None ∧
        filePath e = Path.join dir f ∧ Watcher.slug e = slug).
Proof.
  revert st. induction fs as [|f0 fs IH]; intros st Hf; [by apply elem_of_nil in Hf|].
  cbn [foldl]. destruct (decide (f = f0)) as [->|Hne].
  - assert (∃ e, watchers (start_one slug dir st f0) !! key_of slug f0 = Some e ∧
                 (watchers st !! key_of slug f0 = Some e ∨
                  watchers st !! key_of slug f0 = None ∧
                  filePath e = Path.join dir f0 ∧ Watcher.slug e = slug))
      as (e & He & Hcase).
    { unfold start_one. case_decide as Hk.
      - destruct Hk as [e He]. exists e. split; [done|by left].
      - eexists. cbn [set_watchers set_fswatchers watchers].
        rewrite lookup_insert_eq. split; [done|]. right.
        split; [|done]. by apply eq_None_not_Some. }
    exists e. split; [|done].
    apply (startWatching_keeps (Build_ProjectConfig slug dir fs)). exact He.
  - apply elem_of_cons in Hf as [?|Hf]; [done|].
    destruct (IH (start_one slug dir st f0) Hf) as (e & He & Hcase).
    exists e. split; [done|].
    rewrite start_one_other in Hcase; [done|].
    intros Heq. by apply key_of_inj_file in Heq.
Qed.

(** X26: [/watch]: afterwards the registry lists the file under the first
    project that has the slug of its directory, which is the project of
    another directory when one with the same slug was there before.
    When [snapshot] returned, the key of the file is watched: by the
    watch it had, or by a new one on [join(project.dir, fileName)].
    When it threw, the handler ends there, and the table of watches is
    what it was.  In both cases the stores are as [snapshot] left
    them. *)
Theorem watch_command cwd arg a :
  arg ≠ "" →
  let absPath := Path.resolve cwd arg in
  let slug := projectSlug cwd (Path.dirname absPath) in
  let fileName := Path.basename absPath in
  let key := key_of slug fileName in
  let out := snapshot slug absPath (env (a_watcher a)) in
  let a' := cmd_watch cwd arg a in
  env (a_watcher a') = out.2 ∧
  (∃ p, find_project slug (projects (a_config a')) = Some p ∧
        p_slug p = slug ∧ fileName ∈ p_files p ∧
        p_dir p = match find_project slug (projects (a_config a)) with
                  | Some q => p_dir q
                  | None => Path.dirname absPath
                  end ∧
        ((∃ res, out.1 = Ok res) →
         isWatching slug fileName (a_watcher a') = true ∧
         ∃ e, watchers (a_watcher a') !! key = Some e ∧
              (watchers (a_watcher a) !! key = Some e ∨
               watchers (a_watcher a) !! key = None ∧
               filePath e = Path.join (p_dir p) fileName ∧ Watcher.slug e = slug))) ∧
  ((∃ err, out.1 = Throw err) → watchers (a_watcher a') = watchers (a_watcher a)).
Proof.
  intros Harg absPath slug fileName key out a'.
  assert (∃ p, find_project slug (projects (addFileToConfig cwd (a_config a) arg))
               = Some p ∧ p_slug p = slug ∧ fileName ∈ p_files p ∧
               p_dir p = match find_project slug (projects (a_config a)) with
                         | Some q => p_dir q
                         | None => Path.dirname absPath
                         end) as (p & Hp & Hps & Hf & Hpd).
  { rewrite add_find. unfold projectDirFromFile. rewrite resolve_idem.
    fold absPath slug fileName. rewrite decide_True by done.
    eexists. split; [done|]. rewrite push_file_slug, push_file_dir.
    split; [|split; [apply push_file_elem|]].
    - destruct (find_project slug (projects (a_config a))) as [q|] eqn:Hq; [|done].
      cbn [default]. by destruct (find_project_slug _ _ _ Hq).
    - by destruct (find_project slug (projects (a_config a))). }
  subst a' out. unfold cmd_watch. rewrite decide_False by done.
  fold absPath slug fileName.
  destruct (snapshot slug absPath (env (a_watcher a))) as [res w'].
  cbn [fst snd]. destruct res as [r|err].
  - rewrite Hp. cbn [a_watcher a_config].
    split; [by destruct (startWatching_env p (set_env w' (a_watcher a))) as [-> _]|].
    split; [|by intros [? ?]].
    exists p. do 4 (split; [done|]). intros _.
    destruct (start_loop_entry (p_slug p) (p_dir p) (p_files p)
                (set_env w' (a_watcher a)) fileName Hf) as (e & He & Hcase).
    change (foldl _ _ _) with (startWatching p (set_env w' (a_watcher a))) in He.
    rewrite Hps in He, Hcase. fold key in He, Hcase.
    split; [unfold isWatching; apply bool_decide_eq_true; fold key; eauto|].
    exists e. split; [exact He|exact Hcase].
  - cbn [a_watcher a_config]. split; [done|]. split; [|done].
    exists p. do 4 (split; [done|]). by intros [? ?].
Qed.

Lemma watch_command_witness :
  isWatching "notes" "a.md"
    (a_watcher (cmd_watch "/" Scenario.file
                  (startApp "/" (Build_AppConfig [] None) None 1 Scenario.world0)))
  = true ∧
  filePath <$>
    watchers (a_watcher (cmd_watch "/" Scenario.file
                (startApp "/" (Build_AppConfig
                                 [Build_ProjectConfig "notes" "/a/notes" ["x.md"]] None)
                   None 1 Scenario.world0))) !! "notes:a.md"
  = Some "/a/notes/a.md" ∧
  watchers (a_watcher (cmd_watch "/" Scenario.file
              (startApp "/" (Build_AppConfig [] None) None 1 Scenario.no_git_world)))
  = ∅.
Proof.
  split; [|split; [vm_compute; reflexivity|]].
  - destruct (watch_command "/" Scenario.file
                (startApp "/" (Build_AppConfig [] None) None 1 Scenario.world0)
                ltac:(discriminate)) as (_ & (p & _ & _ & _ & _ & H) & _).
    apply H. eexists. vm_compute. reflexivity.
  - destruct (watch_command "/" Scenario.file
                (startApp "/" (Build_AppConfig [] None) None 1 Scenario.no_git_world)
                ltac:(discriminate)) as (_ & _ & H).
    rewrite H; [reflexivity|]. eexists. vm_compute. reflexivity.
Defined.

End Commands.

(** ** The stat line in the body of a log entry *)

Section StatLine.

Import Tracker.

(** A natural number below [2^53] is a double. *)
Lemma to_double_small (n : N) : (n < 2 ^ 53)%N → to_double n = Num n.
Proof.
  intros Hn. unfold to_double. cbn zeta.
  assert (N.size n ≤ 53)%N as Hsize.
  { pose proof (N.size_le n) as Hle. rewrite N.succ_double_spec in Hle.
    assert (2 ^ N.size n < 2 ^ 54)%N as Hlt.
    { replace (2 ^ 54)%N with (2 * 2 ^ 53)%N by done. lia. }
    apply N.pow_lt_mono_r_iff in Hlt; lia. }
  apply N.leb_le in Hsize. by rewrite Hsize.
Qed.

Lemma digits_value_snoc (s : string) (c : ascii) :
  digits_value (s +:+ String c "") = (10 * digits_value s + (N_of_ascii c - 48))%N.
Proof.
  unfold digits_value. generalize 0%N.
  induction s as [|a s IH]; intros acc; [done|].
  rewrite app_cons. apply IH.
Qed.

Lemma string_app_assoc (s t u : string) : (s +:+ t) +:+ u = s +:+ t +:+ u.
Proof. induction s as [|a s IH]; [done|]. rewrite !app_cons. by f_equal. Qed.

Lemma pretty_N_go_app (x : N) (s : string) :
  pretty_N_go x s = pretty_N_go x "" +:+ s.
Proof.
  revert s. induction (N.lt_wf_0 x) as [x _ IH]; intros s.
  destruct (decide (x = 0)%N) as [->|Hx]; [by rewrite !pretty_N_go_0|].
  rewrite (pretty_N_go_step x s), (pretty_N_go_step x "") by lia.
  assert (x `div` 10 < x)%N as Hlt by (apply N.div_lt; lia).
  rewrite (IH _ Hlt (String (pretty_N_char (x `mod` 10)) s)).
  rewrite (IH _ Hlt (String (pretty_N_char (x `mod` 10)) "")).
  by rewrite string_app_assoc.
Qed.

Lemma pretty_N_char_value (d : N) :
  (d < 10)%N → (N_of_ascii (pretty_N_char d) - 48)%N = d.
Proof.
  intros Hd.
  assert (d = 0 ∨ d = 1 ∨ d = 2 ∨ d = 3 ∨ d = 4 ∨
          d = 5 ∨ d = 6 ∨ d = 7 ∨ d = 8 ∨ d = 9)%N as Hcases by lia.
  by repeat destruct Hcases as [->|Hcases]; [..|subst d].
Qed.

Lemma digits_value_pretty_go (x : N) : digits_value (pretty_N_go x "") = x.
Proof.
  induction (N.lt_wf_0 x) as [x _ IH].
  destruct (decide (x = 0)%N) as [->|Hx]; [by rewrite pretty_N_go_0|].
  rewrite pretty_N_go_step by lia. rewrite pretty_N_go_app, digits_value_snoc.
  rewrite IH by (apply N.div_lt; lia).
  rewrite pretty_N_char_value by (apply N.mod_lt; lia).
  symmetry. apply N.div_mod. lia.
Qed.

(** The digits that the decimal notation writes have the value of the
    number written. *)
Lemma digits_value_pretty (x : N) : digits_value (pretty x) = x.
Proof.
  unfold pretty, pretty_N. case_decide as Hx; [by subst|]. apply digits_value_pretty_go.
Qed.

(** [parseInt] reads back what the decimal notation writes, as a
    double. *)
Lemma parseInt_pretty (x : N) : parseInt (pretty x) = to_double x.
Proof. unfold parseInt. by rewrite digits_value_pretty. Qed.

Lemma pretty_N_nonempty (x : N) : pretty x ≠ "".
Proof.
  unfold pretty, pretty_N. case_decide; [done|].
  rewrite pretty_N_go_step by lia. rewrite pretty_N_go_app.
  destruct (pretty_N_go (x `div` 10) ""); done.
Qed.

Lemma strip_prefix_app (pre s : string) : strip_prefix pre (pre +:+ s) = Some s.
Proof.
  induction pre as [|a pre IH]; [done|].
  rewrite app_cons. cbn [strip_prefix]. by rewrite decide_True.
Qed.

(** A run of digits, up to a character that is no digit. *)
Lemma span_digits_run (ds : string) (c : ascii) (rest : string) :
  all_chars is_decimal ds → is_digit c = false →
  span_digits (ds +:+ String c rest) = (ds, String c rest).
Proof.
  intros Hds Hc. induction ds as [|d ds IH].
  - change ("" +:+ String c rest) with (String c rest).
    cbn [span_digits]. by rewrite Hc.
  - destruct Hds as [Hd Hds]. rewrite app_cons. cbn [span_digits].
    unfold is_decimal in Hd. rewrite Hd, IH by done. done.
Qed.

Lemma digits_then_run word (ds : string) (c : ascii) (rest : string) :
  all_chars is_decimal ds → ds ≠ "" → is_digit c = false →
  digits_then word (ds +:+ String c rest) =
  match strip_prefix word (String c rest) with
  | Some rest' => Some (ds, rest')
  | None => None
  end.
Proof.
  intros Hds Hne Hc. unfold digits_then.
  rewrite span_digits_run by done. by rewrite decide_False.
Qed.

Lemma digits_then_none word (c : ascii) (s : string) :
  is_digit c = false → digits_then word (String c s) = None.
Proof. intros Hc. unfold digits_then. cbn [span_digits]. by rewrite Hc. Qed.

Lemma digits_then_nil word : digits_then word "" = None.
Proof. done. Qed.

Lemma stat_match_unfold (s : string) :
  stat_match s =
  match match digits_then " insertion" s with
        | Some (ds1, rest) =>
            match lazy_deletion rest with
            | Some ds2 => Some (ds1, ds2)
            | None => None
            end
        | None => None
        end with
  | Some m => Some m
  | None => match s with
            | "" => None
            | String _ s' => stat_match s'
            end
  end.
Proof. by destruct s. Qed.

Lemma lazy_deletion_unfold (s : string) :
  lazy_deletion s =
  match digits_then " deletion" s with
  | Some (ds, _) => Some ds
  | None =>
      match s with
      | "" => None
      | String a s' => if is_line_terminator a then None else lazy_deletion s'
      end
  end.
Proof. by destruct s. Qed.

(** Characters that are no digits are passed over. *)
Lemma stat_match_skip (pre s : string) :
  all_chars (λ c, is_digit c = false) pre →
  stat_match (pre +:+ s) = stat_match s.
Proof.
  induction pre as [|c pre IH]; intros Hpre; [done|].
  destruct Hpre as [Hc Hpre]. rewrite app_cons, stat_match_unfold.
  rewrite digits_then_none by done. by apply IH.
Qed.

Lemma stat_match_no_digit (s : string) :
  all_chars (λ c, is_digit c = false) s → stat_match s = None.
Proof.
  intros Hs. rewrite <- (app_empty_r s), stat_match_skip by done. done.
Qed.

Lemma lazy_deletion_skip (pre s : string) :
  all_chars (λ c, is_digit c = false ∧ is_line_terminator c = false) pre →
  lazy_deletion (pre +:+ s) = lazy_deletion s.
Proof.
  induction pre as [|c pre IH]; intros Hpre; [done|].
  destruct Hpre as [[Hc Ht] Hpre]. rewrite app_cons, lazy_deletion_unfold.
  rewrite digits_then_none by done. rewrite Ht. by apply IH.
Qed.

Lemma lazy_deletion_no_digit (s : string) :
  all_chars (λ c, is_digit c = false) s → lazy_deletion s = None.
Proof.
  induction s as [|c s IH]; intros Hs; [done|]. destruct Hs as [Hc Hs].
  rewrite lazy_deletion_unfold, digits_then_none by done.
  destruct (is_line_terminator c); [done | by apply IH].
Qed.

(** A run of digits that is not followed by [" insertion"] is passed
    over, from each of its digits. *)
Lemma stat_match_skip_run (ds : string) (c : ascii) (rest : string) :
  all_chars is_decimal ds → is_digit c = false →
  strip_prefix " insertion" (String c rest) = None →
  stat_match (ds +:+ String c rest) = stat_match (String c rest).
Proof.
  intros Hds Hc Hno. induction ds as [|d ds IH]; [done|].
  rewrite stat_match_unfold, digits_then_run, Hno by done.
  rewrite app_cons. apply IH. by destruct Hds.
Qed.

(** A run of digits followed by [" insertion"], with no digit after
    it: there is nothing to read. *)
Lemma stat_match_insertions_only (ds tail : string) :
  all_chars is_decimal ds →
  all_chars (λ c, is_digit c = false) tail →
  stat_match (ds +:+ " insertion" +:+ tail) = None.
Proof.
  intros Hds Htail. induction ds as [|d ds IH].
  - apply stat_match_no_digit. apply all_chars_app; [|done].
    cbn. repeat split; reflexivity.
  - rewrite stat_match_unfold.
    change (" insertion" +:+ tail) with (String " " ("insertion" +:+ tail)).
    rewrite digits_then_run by done.
    change (String " " ("insertion" +:+ tail)) with (" insertion" +:+ tail).
    rewrite strip_prefix_app, lazy_deletion_no_digit by done.
    rewrite app_cons. apply IH. by destruct Hds.
Qed.

Lemma stat_match_hit (ds1 ds2 mid post : string) :
  all_chars is_decimal ds1 → ds1 ≠ "" →
  all_chars is_decimal ds2 → ds2 ≠ "" →
  all_chars (λ c, is_digit c = false ∧ is_line_terminator c = false) mid →
  stat_match (ds1 +:+ " insertion" +:+ mid +:+ ds2 +:+ " deletion" +:+ post)
  = Some (ds1, ds2).
Proof.
  intros H1 N1 H2 N2 Hmid. rewrite stat_match_unfold.
  change (" insertion" +:+ mid +:+ ds2 +:+ " deletion" +:+ post)
    with (String " " ("insertion" +:+ mid +:+ ds2 +:+ " deletion" +:+ post)).
  rewrite digits_then_run by done.
  change (String " " ("insertion" +:+ mid +:+ ds2 +:+ " deletion" +:+ post))
    with (" insertion" +:+ mid +:+ ds2 +:+ " deletion" +:+ post).
  rewrite strip_prefix_app, lazy_deletion_skip by done.
  rewrite lazy_deletion_unfold.
  change (" deletion" +:+ post) with (String " " ("deletion" +:+ post)).
  rewrite digits_then_run by done.
  change (String " " ("deletion" +:+ post)) with (" deletion" +:+ post).
  by rewrite strip_prefix_app.
Qed.

(** X27: the fall-back of [getLog] and the stat line of [git]: from a
    body that holds [ N file(s) changed, A insertion(s)(+), B
    deletion(s)(-)] the counts [A] and [B] are read back as doubles:
    the numbers themselves where they are below [2^53], the nearest
    double otherwise; from a line that reports insertions only nothing
    is read, and the counts stay at zero. *)
Theorem stat_fallback_reads_stat_line (files a b : N) (p1 p2 p3 : bool) h d m :
  let plural (p : bool) := if p then "s" else "" in
  let head := " " +:+ pretty files +:+ " file" +:+ plural p1 +:+ " changed, " in
  let both := head +:+ pretty a +:+ " insertion" +:+ plural p2 +:+ "(+), "
                   +:+ pretty b +:+ " deletion" +:+ plural p3 +:+ "(-)" in
  let one := head +:+ pretty a +:+ " insertion" +:+ plural p2 +:+ "(+)" in
  stat_match both = Some (pretty a, pretty b) ∧
  insertions (to_info (Git.LogEntry h d m both None)) = to_double a ∧
  deletions (to_info (Git.LogEntry h d m both None)) = to_double b ∧
  ((a < 2 ^ 53)%N → insertions (to_info (Git.LogEntry h d m both None)) = Num a) ∧
  ((b < 2 ^ 53)%N → deletions (to_info (Git.LogEntry h d m both None)) = Num b) ∧
  stat_match one = None ∧
  insertions (to_info (Git.LogEntry h d m one None)) = Num 0 ∧
  deletions (to_info (Git.LogEntry h d m one None)) = Num 0.
Proof.
  intros plural head both one.
  assert (∀ s, stat_match (head +:+ s)
               = stat_match s) as Hhead.
  { intros s. subst head. rewrite !string_app_assoc.
    rewrite (stat_match_skip " ") by (cbn; repeat split; reflexivity).
    change (" file" +:+ plural p1 +:+ " changed, " +:+ s)
      with (String " " ("file" +:+ plural p1 +:+ " changed, " +:+ s)).
    rewrite stat_match_skip_run by (done || apply pretty_N_decimal).
    destruct p1.
    - change (String " " ("file" +:+ plural true +:+ " changed, " +:+ s))
        with (" files changed, " +:+ s).
      apply stat_match_skip. cbn. repeat split; reflexivity.
    - change (String " " ("file" +:+ plural false +:+ " changed, " +:+ s))
        with (" file changed, " +:+ s).
      apply stat_match_skip. cbn. repeat split; reflexivity. }
  assert (stat_match both = Some (pretty a, pretty b)) as Hboth.
  { subst both. rewrite Hhead.
    rewrite <- (string_app_assoc (plural p2) "(+), ").
    apply stat_match_hit; try apply pretty_N_decimal; try apply pretty_N_nonempty.
    destruct p2; cbn; repeat split; reflexivity. }
  assert (stat_match one = None) as Hone.
  { subst one. rewrite Hhead. apply stat_match_insertions_only.
    - apply pretty_N_decimal.
    - destruct p2; cbn; repeat split; reflexivity. }
  assert (both ≠ "" ∧ one ≠ "") as [Nb No] by (by subst both one head).
  unfold to_info. cbn [Git.e_diff Git.e_body Git.e_hash Git.e_date Git.e_message].
  cbn [is_zero andb]. rewrite !bool_decide_eq_false_2 by done. cbn [negb].
  rewrite Hboth, Hone, !parseInt_pretty. cbn [insertions deletions].
  repeat split; try done; apply to_double_small.
Qed.

Lemma stat_fallback_reads_stat_line_witness :
  insertions (to_info (Git.LogEntry "c0" 0 "m"
                (" 1 file changed, 3 insertions(+), 1 deletion(-)") None)) = Num 3 ∧
  deletions (to_info (Git.LogEntry "c0" 0 "m"
                (" 1 file changed, 3 insertions(+), 1 deletion(-)") None)) = Num 1 ∧
  parseInt "9007199254740993" = Num 9007199254740992.
Proof.
  destruct (stat_fallback_reads_stat_line 1 3 1 false true false "c0" 0%N "m")
    as (_ & _ & _ & H1 & H2 & _).
  split; [apply H1; vm_compute; reflexivity|].
  split; [apply H2; vm_compute; reflexivity|].
  vm_compute. reflexivity.
Defined.

End StatLine.

(** ** The histories only grow *)

Section AppendOnly.

Import Config Tracker Watcher.

Lemma read_repo_world {A} dir (f : repo → outcome A) w :
  (Git.read_repo dir f w).2 = w.
Proof.
  unfold Git.read_repo. destruct (w_git_ok w); [|done]. cbn [negb].
  destruct (w_repos w !! dir) as [r|]; [|done].
  by destruct (r_damaged r).
Qed.

(** [getGit] adds no commit to any history, whether it returns or
    throws. *)
Lemma getGit_history slug slug' w :
  w_home (getGit slug w).2 = w_home w ∧
  history slug' (getGit slug w).2 = history slug' w.
Proof.
  destruct (opens slug w) eqn:Hopen.
  - rewrite getGit_eq by done. cbn [snd].
    split; [apply with_git_home|].
    destruct (decide (slug' = slug)) as [->|Hne]; [apply with_git_history|].
    unfold history. rewrite with_git_home. unfold with_git. cbn zeta.
    destruct (with_dir_fields (getRepoPath (w_home w) slug) w)
      as (_ & _ & _ & _ & Hrepos & _).
    destruct (w_repos w !! getRepoPath (w_home w) slug); [by rewrite Hrepos|].
    cbn [set_repos w_home w_repos]. rewrite lookup_insert_ne; [done|].
    intros Heq. by apply getRepoPath_inj in Heq.
  - destruct (getGit_fails slug w Hopen) as (e & w' & -> & Hr & _ & Hh).
    cbn [snd]. split; [done|]. unfold history. by rewrite Hh, Hr.
Qed.

Lemma getLog_world slug fo w : (getLog slug fo w).2 = (getGit slug w).2.
Proof.
  unfold getLog, mbind, M_bind, bind, try_catch, mret, M_ret, ret.
  destruct (getGit slug w) as [[g|e] w1]; [|done].
  pose proof (log_world g (log_args fo) w1) as Hw.
  destruct (Git.log g (log_args fo) w1) as [[l|e] w']; cbn in *; done.
Qed.

Lemma getDiff_world slug h fo w : (getDiff slug h fo w).2 = (getGit slug w).2.
Proof.
  unfold getDiff, mbind, M_bind, bind, try_catch, mret, M_ret, ret.
  destruct (getGit slug w) as [[g|e] w1]; [|done]. unfold Git.diff.
  pose proof (read_repo_world g (λ r, Git.diff_of (r_commits r) (diff_args h fo)) w1)
    as Hw.
  destruct (Git.read_repo g (λ r, Git.diff_of (r_commits r) (diff_args h fo)) w1)
    as [[l|e] w']; cbn in *; [done|]. subst w'.
  pose proof (read_repo_world g (λ r, Git.diff_of (r_commits r) [EMPTY_TREE; h]) w1)
    as Hw.
  destruct (Git.read_repo _ _ _) as [[l|e'] w']; cbn in *; done.
Qed.

Lemma getContent_world slug h f w : (getContent slug h f w).2 = (getGit slug w).2.
Proof.
  unfold getContent, mbind, M_bind, bind, try_catch, mret, M_ret, ret.
  destruct (getGit slug w) as [[g|e] w1]; [|done]. unfold Git.show.
  match goal with |- context [Git.read_repo ?d ?g ?w0] =>
    pose proof (read_repo_world d g w0) as Hw;
    destruct (Git.read_repo d g w0) as [[l|e] w'] end; cbn in *; done.
Qed.

Lemma restore_world slug h f dest w :
  w_home (restore slug h f dest w).2 = w_home (getGit slug w).2 ∧
  w_repos (restore slug h f dest w).2 = w_repos (getGit slug w).2.
Proof.
  unfold restore, mbind, M_bind, bind, try_catch, mret, M_ret, ret.
  pose proof (getContent_world slug h f w) as Hw.
  destruct (getContent slug h f w) as [[c|e] w']; cbn [snd] in Hw; subst w';
    [|done].
  case_decide; [done|].
  unfold require. destruct (w_require _); [|done].
  unfold Fs.writeFileSync. destruct (Fs.is_dir _ _); [done|].
  by case_decide.
Qed.

Lemma snapshot_history slug sourceFilePath w slug' :
  w_home (snapshot slug sourceFilePath w).2 = w_home w ∧
  ∃ newer, history slug' (snapshot slug sourceFilePath w).2 = newer ++ history slug' w.
Proof.
  destruct (opens slug w) eqn:Hopen.
  2:{ destruct (snapshot_fails slug sourceFilePath w Hopen) as (e & w' & -> & Hr & _ & Hh).
      cbn [snd]. split; [done|]. exists []. unfold history. by rewrite Hh, Hr. }
  pose proof (snapshot_cases slug sourceFilePath w Hopen) as H. cbn zeta in H.
  destruct (getGit_history slug slug' w) as [Hhome Hhist].
  rewrite getGit_eq in Hhome, Hhist by done. cbn [snd] in Hhome, Hhist.
  assert (∀ fs, history slug' (set_fs fs (with_git slug w)) = history slug' w) as Hfs.
  { intros fs. by rewrite <- Hhist. }
  assert (∀ fs r',
            slug' ≠ slug →
            history slug'
              (set_repos (<[getRepoPath (w_home w) slug := r']> (w_repos (with_git slug w)))
                 (set_fs fs (with_git slug w))) = history slug' w) as Hother.
  { intros fs r' Hne. rewrite <- Hhist. unfold history.
    cbn [set_repos set_fs w_home w_repos].
    rewrite Hhome, lookup_insert_ne; [done|].
    intros Heq. by apply getRepoPath_inj in Heq. }
  destruct (Fs.is_dir sourceFilePath _).
  { rewrite H. cbn [snd]. split; [done|]. exists []. by rewrite Hhist. }
  destruct (w_fs w !! sourceFilePath) as [c|].
  2:{ rewrite H. cbn [snd]. split; [done|]. exists []. by rewrite Hhist. }
  destruct (Fs.is_dir (Path.join _ _) _).
  { rewrite H. cbn [snd]. split; [done|]. exists []. by rewrite Hhist. }
  destruct (decide (_ ∈ w_readonly w)).
  { rewrite H. cbn [snd]. split; [done|]. exists []. by rewrite Hhist. }
  destruct (w_repos (with_git slug w) !! getRepoPath (w_home w) slug) as [r|] eqn:Hr;
    [|done].
  assert (history slug w = r_commits r) as Hcs.
  { rewrite <- with_git_history. unfold history. by rewrite Hhome, Hr. }
  assert (∀ fs r', r_commits r' = r_commits r →
            history slug'
              (set_repos (<[getRepoPath (w_home w) slug := r']> (w_repos (with_git slug w)))
                 (set_fs fs (with_git slug w))) = history slug' w) as Hsame.
  { intros fs r' Hcm. destruct (decide (slug' = slug)) as [->|Hne]; [|by apply Hother].
    rewrite Hcs. unfold history. cbn [set_repos set_fs w_home w_repos].
    by rewrite Hhome, lookup_insert_eq. }
  destruct (r_damaged r).
  { rewrite H. cbn [snd]. split; [done|]. exists []. by rewrite Hfs. }
  destruct (Git.is_option _).
  { rewrite H. cbn [snd]. split; [done|]. exists []. by rewrite Hsame. }
  destruct (decide (Git.staged _ = [])); rewrite H; cbn [snd];
    (split; [done|]).
  - exists []. by rewrite Hsame.
  - destruct (decide (slug' = slug)) as [->|Hne].
    + eexists [_]. rewrite Hcs. unfold history.
      cbn [set_repos set_fs w_home w_repos].
      by rewrite Hhome, lookup_insert_eq.
    + exists []. by apply Hother.
Qed.

Lemma on_settle_history w st slug :
  w_home (env (on_settle w st)) = w_home (env st) ∧
  ∃ newer, history slug (env (on_settle w st)) = newer ++ history slug (env st).
Proof.
  destruct (fswatchers st !! w) as [fw|] eqn:Hfw.
  - rewrite (on_settle_env w st fw Hfw).
    destruct (snapshot_history (fw_slug fw) (fw_filePath fw) (env st) slug)
      as (Hh & newer & Hn). eauto.
  - unfold on_settle. rewrite Hfw. split; [done|]. by exists [].
Qed.

Lemma fire_history t st slug :
  w_home (env (fire t st)) = w_home (env st) ∧
  ∃ newer, history slug (env (fire t st)) = newer ++ history slug (env st).
Proof.
  unfold fire. case_decide; [|split; [done|by exists []]].
  match goal with |- context [on_settle ?w ?s] =>
    destruct (on_settle_history w s slug) as (Hh & newer & Hn) end.
  rewrite Hh, Hn. split; [done|]. by exists newer.
Qed.

Lemma elapse_history d st slug :
  w_home (env (elapse d st)) = w_home (env st) ∧
  ∃ newer, history slug (env (elapse d st)) = newer ++ history slug (env st).
Proof.
  unfold elapse. generalize (filter (λ t, (t_due t ≤ w_now (env st) + d)%N) (timers st)).
  generalize (w_now (env st) + d)%N. intros target due.
  cbn [set_env env].
  assert (∀ st0, w_home (env (foldl (λ st t, fire t st) st0 due)) = w_home (env st0) ∧
                 ∃ newer, history slug (env (foldl (λ st t, fire t st) st0 due))
                          = newer ++ history slug (env st0)) as Hloop.
  { induction due as [|t due IH]; intros st0; [split; [done|by exists []]|].
    cbn [foldl]. destruct (IH (fire t st0)) as (Hh & newer & Hn).
    destruct (fire_history t st0 slug) as (Hh0 & newer0 & Hn0).
    rewrite Hh, Hh0, Hn, Hn0. split; [done|]. exists (newer ++ newer0).
    by rewrite app_assoc. }
  destruct (Hloop st) as (Hh & newer & Hn). split; [done|]. by exists newer.
Qed.

Lemma step_history st e slug :
  w_home (env (step st e)) = w_home (env st) ∧
  ∃ newer, history slug (env (step st e)) = newer ++ history slug (env st).
Proof.
  destruct e as [p c|p|w|d|cb|project|s fileName|]; cbn [step];
    try (split; [done|by exists []]).
  - destruct (fswatchers st !! w) as [fw|]; [|split; [done|by exists []]].
    destruct (fw_closed fw); [split; [done|by exists []]|].
    destruct (on_change_env w st) as [-> _]. split; [done|by exists []].
  - apply elapse_history.
  - destruct (startWatching_env project st) as [-> _]. split; [done|by exists []].
  - destruct (stopWatching_env s fileName st) as [-> _]. split; [done|by exists []].
  - destruct (stopAll_env st) as [-> _]. split; [done|by exists []].
Qed.

(** X28: the histories are append-only.  Whatever the watcher goes
    through (calls of its functions, changes of files, reports of
    changes, time), the history of every project afterwards is its
    history before with the new commits in front; so it is after one
    [snapshot]; and [getLog], [getDiff], [getContent] and [restore]
    leave every history as it is, whether they return or throw. *)
Theorem history_append_only slug' :
  (∀ st (es : list event),
     ∃ newer, history slug' (env (run st es)) = newer ++ history slug' (env st)) ∧
  (∀ slug sourceFilePath w,
     ∃ newer, history slug' (snapshot slug sourceFilePath w).2
              = newer ++ history slug' w) ∧
  (∀ slug h fo f dest w,
     history slug' (getLog slug fo w).2 = history slug' w ∧
     history slug' (getDiff slug h fo w).2 = history slug' w ∧
     history slug' (getContent slug h f w).2 = history slug' w ∧
     history slug' (restore slug h f dest w).2 = history slug' w).
Proof.
  split; [|split].
  - intros st es.
    assert (w_home (env (run st es)) = w_home (env st) ∧
            ∃ newer, history slug' (env (run st es)) = newer ++ history slug' (env st))
      as [_ H]; [|done].
    unfold run. revert st. induction es as [|e es IH]; intros st;
      [split; [done|by exists []]|].
    cbn [foldl]. destruct (IH (step st e)) as (Hh & newer & Hn).
    destruct (step_history st e slug') as (Hh0 & newer0 & Hn0).
    rewrite Hh, Hh0, Hn, Hn0. split; [done|]. exists (newer ++ newer0).
    by rewrite app_assoc.
  - intros slug sourceFilePath w.
    by destruct (snapshot_history slug sourceFilePath w slug') as [_ ?].
  - intros slug h fo f dest w.
    destruct (getGit_history slug slug' w) as [Hhome Hhist].
    rewrite getLog_world, getDiff_world, getContent_world, Hhist.
    split; [done|]. split; [done|]. split; [done|].
    destruct (restore_world slug h f dest w) as [Hh Hr].
    unfold history at 1. rewrite Hh, Hr. rewrite <- Hhist.
    unfold history. done.
Qed.

End AppendOnly.
